(** * CacheManager: in-memory cache with score-based eviction and adaptive TTL

    Shallow embedding of [core/cache.ts] (class [CacheManager]) and proofs
    of its size accounting, eviction, TTL resolution and key construction.

    Modelling conventions.
    - Integer-valued JavaScript numbers (timestamps, sizes, hit counters,
      byte budgets, TTLs) are [Z]; they stay far below 2^53 in the program,
      where double arithmetic on integers is exact.
    - The eviction score is a genuine double: it is computed with the
      IEEE-754 binary64 operations of [SpecFloat] (53-bit significand), so
      NaN, the infinities and rounding behave as in the program.
    - The [Map] holding the entries is an association list kept in insertion
      order, with the operations of an ECMAScript [Map].
    - [Date.now()] is an oracle: a function from the number of readings made
      so far to the value read; every call consumes one reading.
    - Strings are [string] (sequences of 8-bit characters); text made of
      ASCII characters is represented exactly, and the statements on the
      key builder are made for such text and for the integers below 2^53
      in absolute value, which a JavaScript number holds exactly and prints
      in plain decimal digits. *)

From Stdlib Require Import ZArith List String Ascii Bool Lia.
From Stdlib Require Import Decimal DecimalString DecimalPos DecimalZ.
From Stdlib Require Import Sorting.Sorted Sorting.Permutation.
From Stdlib Require Import Floats.SpecFloat.
Import ListNotations.

Local Open Scope string_scope.
Local Open Scope Z_scope.

(* ===================================================================== *)
(** ** JavaScript numbers used as doubles *)
(* ===================================================================== *)

Module JSNumber.

Definition prec : Z := 53.
Definition emax : Z := 1024.

Definition number := spec_float.

(** The double nearest to an integer (an integer literal or an
    integer-valued variable used in a floating-point operation). *)
Definition of_Z (z : Z) : number := binary_normalize prec emax z 0 false.

Definition Infinity : number := S754_infinity false.
Definition NaN : number := S754_nan.

Definition div (x y : number) : number := SFdiv prec emax x y.
Definition ltb (x y : number) : bool := SFltb x y.
Definition leb (x y : number) : bool := SFleb x y.
Definition eqb (x y : number) : bool := SFeqb x y.

Definition is_nan (x : number) : bool :=
  match x with S754_nan => true | _ => false end.

(** [Number.prototype.toFixed(2)].  For a finite magnitude [m * 2^e] the
    digits are those of the integer [n] nearest to one hundred times the
    magnitude, the larger one on a tie.  (Magnitudes of 10^21 and more,
    which the specification prints in exponent form, do not occur.) *)
Definition hundredths (m : positive) (e : Z) : Z :=
  match e with
  | Zneg p => (200 * Zpos m + 2 ^ Zpos p) / 2 ^ (Zpos p + 1)
  | _ => 100 * Zpos m * 2 ^ e
  end.

Definition pad3 (s : string) : string :=
  match String.length s with
  | 0%nat => "000"
  | 1%nat => "00" ++ s
  | 2%nat => "0" ++ s
  | _ => s
  end.

Definition fixed2_digits (n : Z) : string :=
  let m := pad3 (NilZero.string_of_uint (N.to_uint (Z.to_N n))) in
  let k := String.length m in
  substring 0 (k - 2) m ++ "." ++ substring (k - 2) 2 m.

Definition toFixed2 (x : number) : string :=
  match x with
  | S754_nan => "NaN"
  | S754_infinity false => "Infinity"
  | S754_infinity true => "-Infinity"
  | S754_zero _ => "0.00"
  | S754_finite s m e =>
      (if s then "-" else "") ++ fixed2_digits (hundredths m e)
  end.

(** A rank that orders the doubles other than NaN as [SFcompare] does:
    the class, then the exponent, then the significand. *)
Definition rank (x : number) : option (Z * Z * Z) :=
  match x with
  | S754_nan => None
  | S754_infinity true => Some (-2, 0, 0)
  | S754_finite true m e => Some (-1, - e, - Zpos m)
  | S754_zero _ => Some (0, 0, 0)
  | S754_finite false m e => Some (1, e, Zpos m)
  | S754_infinity false => Some (2, 0, 0)
  end.

Definition lex_lt (a b : Z * Z * Z) : Prop :=
  let '(a1, a2, a3) := a in
  let '(b1, b2, b3) := b in
  a1 < b1 \/ (a1 = b1 /\ (a2 < b2 \/ (a2 = b2 /\ a3 < b3))).

Definition lex_le (a b : Z * Z * Z) : Prop := lex_lt a b \/ a = b.

End JSNumber.

(* ===================================================================== *)
(** ** ECMAScript [Map] with string keys, in insertion order *)
(* ===================================================================== *)

Module JSMap.
Section WithValue.
Context {V : Type}.

Definition t := list (string * V).

Definition empty : t := [].

Fixpoint get (k : string) (m : t) : option V :=
  match m with
  | [] => None
  | (k', v) :: rest => if String.eqb k' k then Some v else get k rest
  end.

Definition has (k : string) (m : t) : bool :=
  match get k m with Some _ => true | None => false end.

(** [Map.prototype.set]: an existing key keeps its position and gets the
    new value; a new key is appended. *)
Fixpoint set (k : string) (v : V) (m : t) : t :=
  match m with
  | [] => [(k, v)]
  | (k', v') :: rest =>
      if String.eqb k' k then (k', v) :: rest else (k', v') :: set k v rest
  end.

(** The map without the key [k] (the keys of a [Map] are distinct, so at
    most one entry goes). *)
Definition remove (k : string) (m : t) : t :=
  filter (fun kv => negb (String.eqb (fst kv) k)) m.

(** [Map.prototype.delete]: the result tells whether the key was there. *)
Definition delete (k : string) (m : t) : bool * t :=
  (has k m, remove k m).

Definition size (m : t) : Z := Z.of_nat (List.length m).

Definition keys (m : t) : list string := List.map fst m.
Definition values (m : t) : list V := List.map snd m.
Definition entries (m : t) : list (string * V) := m.
End WithValue.
Arguments t : clear implicits.
End JSMap.

(* ===================================================================== *)
(** ** Regular expressions of the TTL rule table *)
(* ===================================================================== *)

Module RegExp.

(** Character tests: a literal character, [.] (any character except a
    line terminator), and the wildcard used around unanchored bodies. *)
Inductive cls : Type :=
| Lit : ascii -> cls
| Dot : cls
| Any : cls.

(** Pattern bodies. *)
Inductive re : Type :=
| Void : re
| Eps : re
| Chr : cls -> re
| Cat : re -> re -> re
| Alt : re -> re -> re
| Star : re -> re.

(** A literal pattern, anchored or not at either end (no flags). *)
Record t : Type := mk {
  at_start : bool;   (* pattern begins with ^ *)
  body : re;
  at_end : bool      (* pattern ends with $ *)
}.

(** Line feed and carriage return (the other two line terminators,
    U+2028 and U+2029, are not 8-bit characters). *)
Definition is_line_terminator (c : ascii) : bool :=
  (Ascii.eqb c "010"%char || Ascii.eqb c "013"%char)%bool.

Definition accepts (k : cls) (c : ascii) : bool :=
  match k with
  | Lit a => Ascii.eqb a c
  | Dot => negb (is_line_terminator c)
  | Any => true
  end.

Fixpoint str (s : string) : re :=
  match s with
  | EmptyString => Eps
  | String c rest => Cat (Chr (Lit c)) (str rest)
  end.

Fixpoint nullable (r : re) : bool :=
  match r with
  | Void => false
  | Eps => true
  | Chr _ => false
  | Cat a b => nullable a && nullable b
  | Alt a b => nullable a || nullable b
  | Star _ => true
  end.

Fixpoint deriv (c : ascii) (r : re) : re :=
  match r with
  | Void => Void
  | Eps => Void
  | Chr k => if accepts k c then Eps else Void
  | Cat a b =>
      if nullable a then Alt (Cat (deriv c a) b) (deriv c b)
      else Cat (deriv c a) b
  | Alt a b => Alt (deriv c a) (deriv c b)
  | Star a => Cat (deriv c a) (Star a)
  end.

Fixpoint matches (r : re) (s : string) : bool :=
  match s with
  | EmptyString => nullable r
  | String c rest => matches (deriv c r) rest
  end.

(** [RegExp.prototype.test] without flags: some substring matches the
    body, the substring starting at the beginning under [^] and ending at
    the end under [$]. *)
Definition test (p : t) (s : string) : bool :=
  matches
    (Cat (if at_start p then Eps else Star (Chr Any))
         (Cat (body p) (if at_end p then Eps else Star (Chr Any))))
    s.

(** Text without line terminators: what [.*] matches. *)
Fixpoint single_line (s : string) : bool :=
  match s with
  | EmptyString => true
  | String c rest => negb (is_line_terminator c) && single_line rest
  end.

(** Words matched by a pattern body. *)
Inductive lang : re -> string -> Prop :=
| L_eps : lang Eps ""
| L_chr k c : accepts k c = true -> lang (Chr k) (String c "")
| L_cat a b u v : lang a u -> lang b v -> lang (Cat a b) (u ++ v)
| L_altl a b u : lang a u -> lang (Alt a b) u
| L_altr a b u : lang b u -> lang (Alt a b) u
| L_star0 a : lang (Star a) ""
| L_star1 a u v : lang a u -> lang (Star a) v -> lang (Star a) (u ++ v).

End RegExp.

(* ===================================================================== *)
(** ** The cache manager *)
(* ===================================================================== *)

Module Cache.
Section Manager.

(** Cached payloads, with [JSON.stringify] on them: the text produced, or
    [None] when the call throws or produces [undefined] (whose [length]
    access throws as well). *)
Variable T : Type.
Variable JSON_stringify : T -> option string.

(** The [Date.now()] oracle. *)
Variable clock : nat -> Z.

Record CacheEntry : Type := mkEntry {
  data : T;
  timestamp : Z;
  size : Z;
  hits : Z
}.

Record CacheOptions : Type := mkOptions {
  opt_maxSize : option Z;
  opt_defaultTTL : option Z;
  opt_cleanupInterval : option Z
}.

(** The fields of the object, and [clockReads], the number of readings of
    [Date.now()] made so far (the position in the oracle). *)
Record CacheManager : Type := mkCache {
  cache : JSMap.t CacheEntry;
  sizeUsed : Z;
  maxSize : Z;
  defaultTTL : Z;
  cleanupTimer : option Z;
  ttlByPattern : list (RegExp.t * Z);
  clockReads : nat
}.

Definition with_cache (m : JSMap.t CacheEntry) (c : CacheManager) :=
  mkCache m (sizeUsed c) (maxSize c) (defaultTTL c) (cleanupTimer c)
          (ttlByPattern c) (clockReads c).

Definition with_sizeUsed (n : Z) (c : CacheManager) :=
  mkCache (cache c) n (maxSize c) (defaultTTL c) (cleanupTimer c)
          (ttlByPattern c) (clockReads c).

Definition with_cleanupTimer (h : option Z) (c : CacheManager) :=
  mkCache (cache c) (sizeUsed c) (maxSize c) (defaultTTL c) h
          (ttlByPattern c) (clockReads c).

Definition Date_now (c : CacheManager) : Z * CacheManager :=
  (clock (clockReads c),
   mkCache (cache c) (sizeUsed c) (maxSize c) (defaultTTL c)
           (cleanupTimer c) (ttlByPattern c) (S (clockReads c))).

(** The state after [n] further readings of the clock. *)
Definition advance (n : nat) (c : CacheManager) : CacheManager :=
  mkCache (cache c) (sizeUsed c) (maxSize c) (defaultTTL c)
          (cleanupTimer c) (ttlByPattern c) (n + clockReads c).

(** *** Constructor *)

Definition re_subreddit (suffix : string) : RegExp.t :=
  RegExp.mk true
    (RegExp.Cat (RegExp.str "subreddit:")
       (RegExp.Cat (RegExp.Star (RegExp.Chr RegExp.Dot)) (RegExp.str suffix)))
    true.

Definition re_prefix (prefix : string) : RegExp.t :=
  RegExp.mk true (RegExp.str prefix) false.

Definition default_rules : list (RegExp.t * Z) :=
  [ (re_subreddit ":hot", 5 * 60 * 1000);
    (re_subreddit ":new", 2 * 60 * 1000);
    (re_subreddit ":top", 30 * 60 * 1000);
    (re_prefix "post:", 10 * 60 * 1000);
    (re_prefix "user:", 15 * 60 * 1000);
    (re_prefix "search:", 10 * 60 * 1000) ].

Definition nullish (d : Z) (o : option Z) : Z :=
  match o with Some v => v | None => d end.

(** [new CacheManager(options)]; the timer handle remembers the interval,
    and no timer is started when [cleanupInterval] is 0. *)
Definition new (options : CacheOptions) : CacheManager :=
  {| cache := JSMap.empty;
     sizeUsed := 0;
     maxSize := nullish (50 * 1024 * 1024) (opt_maxSize options);
     defaultTTL := nullish (5 * 60 * 1000) (opt_defaultTTL options);
     cleanupTimer :=
       match opt_cleanupInterval options with
       | Some 0 => None
       | o => Some (nullish 60000 o)
       end;
     ttlByPattern := default_rules;
     clockReads := 0 |}.

(** *** TTL resolver *)

Fixpoint getTTLForKey_scan (rules : list (RegExp.t * Z)) (dflt : Z)
         (key : string) : Z :=
  match rules with
  | [] => dflt
  | (pattern, ttl) :: rest =>
      if RegExp.test pattern key then ttl
      else getTTLForKey_scan rest dflt key
  end.

Definition getTTLForKey (c : CacheManager) (key : string) : Z :=
  getTTLForKey_scan (ttlByPattern c) (defaultTTL c) key.

(** *** Size estimate *)

Definition estimateSize (d : T) : Z :=
  match JSON_stringify d with
  | Some s => Z.of_nat (String.length s) * 2
  | None => 1024
  end.

(** *** delete, get, clear *)

Definition delete (key : string) (c : CacheManager) : bool * CacheManager :=
  match JSMap.get key (cache c) with
  | None => (false, c)
  | Some entry =>
      let c1 := with_sizeUsed (sizeUsed c - size entry) c in
      let '(r, m) := JSMap.delete key (cache c1) in
      (r, with_cache m c1)
  end.

Definition hit (e : CacheEntry) : CacheEntry :=
  mkEntry (data e) (timestamp e) (size e) (hits e + 1).

(** The result is the payload, or [None] for [null]. *)
Definition get (key : string) (c : CacheManager) : option T * CacheManager :=
  match JSMap.get key (cache c) with
  | None => (None, c)
  | Some entry =>
      let ttl := getTTLForKey c key in
      let '(now, c1) := Date_now c in
      if now - timestamp entry >? ttl then
        let '(_, c2) := delete key c1 in (None, c2)
      else
        (Some (data entry),
         with_cache (JSMap.set key (hit entry) (cache c1)) c1)
  end.

Definition clear (c : CacheManager) : CacheManager :=
  with_sizeUsed 0 (with_cache JSMap.empty c).

(** *** Eviction *)

Definition score (now : Z) (entry : CacheEntry) : JSNumber.number :=
  let age := now - timestamp entry in
  JSNumber.div (JSNumber.of_Z (hits entry))
               (JSNumber.div (JSNumber.of_Z age) (JSNumber.of_Z 1000)).

(** The score that the scan started in state [c] gives to the entry at
    position [i]: the clock is read once more for every entry. *)
Definition scan_score (c : CacheManager) (i : nat) (entry : CacheEntry)
  : JSNumber.number :=
  score (clock (i + clockReads c)) entry.

(** The scan of [evictLRU]: one clock reading per entry visited. *)
Fixpoint evictLRU_scan (es : list (string * CacheEntry))
         (lruKey : option string) (minScore : JSNumber.number)
         (c : CacheManager) : option string * JSNumber.number * CacheManager :=
  match es with
  | [] => (lruKey, minScore, c)
  | (key, entry) :: rest =>
      let '(now, c1) := Date_now c in
      let s := score now entry in
      if JSNumber.ltb s minScore then evictLRU_scan rest (Some key) s c1
      else evictLRU_scan rest lruKey minScore c1
  end.

(** Truthiness of a [string | null]: a non-null, non-empty string. *)
Definition truthy (k : option string) : bool :=
  match k with
  | Some s => negb (String.eqb s "")
  | None => false
  end.

(** [if (lruKey) this.delete(lruKey)]: the deletion is guarded by the
    truthiness of the selected key. *)
Definition evictLRU (c : CacheManager) : CacheManager :=
  let '(lruKey, _, c1) :=
    evictLRU_scan (JSMap.entries (cache c)) None JSNumber.Infinity c in
  match lruKey with
  | Some k => if truthy lruKey then snd (delete k c1) else c1
  | None => c1
  end.

(** *** set *)

Definition must_evict (sz : Z) (c : CacheManager) : bool :=
  (sizeUsed c + sz >? maxSize c) && (JSMap.size (cache c) >? 0).

(** The [while] loop of [set]; [None] when [fuel] iterations do not
    suffice to leave it. *)
Fixpoint evict_while (fuel : nat) (sz : Z) (c : CacheManager)
  : option CacheManager :=
  if must_evict sz c then
    match fuel with
    | O => None
    | S fuel' => evict_while fuel' sz (evictLRU c)
    end
  else Some c.

(** What [set] does once the loop is left: the old entry of the key is
    deleted, the new one is stamped, stored and counted. *)
Definition set_insert (key : string) (d : T) (sz : Z) (c1 : CacheManager)
  : CacheManager :=
  let c2 := if JSMap.has key (cache c1) then snd (delete key c1) else c1 in
  let '(now, c3) := Date_now c2 in
  let entry := mkEntry d now sz 0 in
  let c4 := with_cache (JSMap.set key entry (cache c3)) c3 in
  with_sizeUsed (sizeUsed c4 + sz) c4.

Definition set (fuel : nat) (key : string) (d : T) (_customTTL : option Z)
           (c : CacheManager) : option CacheManager :=
  let sz := estimateSize d in
  match evict_while fuel sz c with
  | None => None
  | Some c1 => Some (set_insert key d sz c1)
  end.

(** *** Periodic sweep *)

Fixpoint cleanup_collect (now : Z) (c : CacheManager)
         (es : list (string * CacheEntry)) : list string :=
  match es with
  | [] => []
  | (key, entry) :: rest =>
      let ttl := getTTLForKey c key in
      if now - timestamp entry >? ttl then key :: cleanup_collect now c rest
      else cleanup_collect now c rest
  end.

Definition cleanup (c : CacheManager) : CacheManager :=
  let '(now, c1) := Date_now c in
  let keysToDelete := cleanup_collect now c1 (JSMap.entries (cache c1)) in
  fold_left (fun acc key => snd (delete key acc)) keysToDelete c1.

Definition destroy (c : CacheManager) : CacheManager :=
  clear (with_cleanupTimer None c).

(** *** Statistics *)

Record Stats : Type := mkStats {
  stats_entries : Z;
  stats_sizeUsed : Z;
  stats_maxSize : Z;
  stats_sizeUsedMB : string;
  stats_maxSizeMB : string;
  stats_hitRate : string + Z;     (* a formatted string, or the number 0 *)
  stats_oldestEntry : option string;
  stats_mostUsed : list string
}.

(** The scan of [getOldestEntry]; [None] stands for the initial
    [Infinity], above every timestamp. *)
Fixpoint getOldestEntry_scan (es : list (string * CacheEntry))
         (oldestKey : option string) (oldestTime : option Z) : option string :=
  match es with
  | [] => oldestKey
  | (key, entry) :: rest =>
      let younger :=
        match oldestTime with
        | None => true
        | Some t => timestamp entry <? t
        end in
      if younger then getOldestEntry_scan rest (Some key) (Some (timestamp entry))
      else getOldestEntry_scan rest oldestKey oldestTime
  end.

Definition getOldestEntry (c : CacheManager) : option string * CacheManager :=
  (getOldestEntry_scan (JSMap.entries (cache c)) None None, c).

(** [Array.prototype.sort] is stable; [cmp a b <= 0] keeps [a] first. *)
Fixpoint sort_insert {A : Type} (cmp : A -> A -> Z) (x : A) (l : list A)
  : list A :=
  match l with
  | [] => [x]
  | y :: l' => if cmp x y <=? 0 then x :: y :: l' else y :: sort_insert cmp x l'
  end.

Definition sort {A : Type} (cmp : A -> A -> Z) (l : list A) : list A :=
  fold_right (sort_insert cmp) [] l.

Definition getMostUsedKeys (count : nat) (c : CacheManager)
  : list string * CacheManager :=
  let arr := JSMap.entries (cache c) in        (* Array.from: a fresh array *)
  let sorted := sort (fun a b => hits (snd b) - hits (snd a)) arr in
  (List.map fst (firstn count sorted), c).

Definition MB (n : Z) : string :=
  JSNumber.toFixed2
    (JSNumber.div (JSNumber.div (JSNumber.of_Z n) (JSNumber.of_Z 1024))
                  (JSNumber.of_Z 1024)).

Definition getStats (c : CacheManager) : Stats * CacheManager :=
  let totalHits :=
    fold_left (fun sum entry => sum + hits entry) (JSMap.values (cache c)) 0 in
  let '(oldest, c1) := getOldestEntry c in
  let '(most, c2) := getMostUsedKeys 5 c1 in
  (mkStats (JSMap.size (cache c)) (sizeUsed c) (maxSize c)
           (MB (sizeUsed c)) (MB (maxSize c))
           (if JSMap.size (cache c) >? 0
            then inl (JSNumber.toFixed2
                        (JSNumber.div (JSNumber.of_Z totalHits)
                                      (JSNumber.of_Z (JSMap.size (cache c)))))
            else inr 0)
           oldest most,
   c2).

(** *** Sequences of operations *)

Inductive Op : Type :=
| OpSet (key : string) (d : T) (customTTL : option Z)
| OpGet (key : string)
| OpDelete (key : string)
| OpClear
| OpGetStats
| OpSweep        (* the cleanup timer fires *)
| OpDestroy.

(** State after an operation; [None] when [set] does not leave its loop
    within [fuel] iterations.  The timer fires only while it is armed. *)
Definition exec (fuel : nat) (op : Op) (c : CacheManager)
  : option CacheManager :=
  match op with
  | OpSet key d customTTL => set fuel key d customTTL c
  | OpGet key => Some (snd (get key c))
  | OpDelete key => Some (snd (delete key c))
  | OpClear => Some (clear c)
  | OpGetStats => Some (snd (getStats c))
  | OpSweep =>
      match cleanupTimer c with
      | Some _ => Some (cleanup c)
      | None => Some c
      end
  | OpDestroy => Some (destroy c)
  end.

Fixpoint run (fuel : nat) (ops : list Op) (c : CacheManager)
  : option CacheManager :=
  match ops with
  | [] => Some c
  | op :: rest =>
      match exec fuel op c with
      | Some c' => run fuel rest c'
      | None => None
      end
  end.

Inductive reachable (options : CacheOptions) : CacheManager -> Prop :=
| reach_new : reachable options (new options)
| reach_exec c fuel op c' :
    reachable options c -> exec fuel op c = Some c' -> reachable options c'.

(** *** Properties of states *)

Definition total_size (m : JSMap.t CacheEntry) : Z :=
  fold_right (fun kv acc => size (snd kv) + acc) 0 m.

(** Keys are unique, sizes are not negative, and the counter is the sum
    of the resident sizes. *)
Definition accounted (c : CacheManager) : Prop :=
  NoDup (JSMap.keys (cache c)) /\
  Forall (fun kv => 0 <= size (snd kv)) (cache c) /\
  sizeUsed c = total_size (cache c).

(** The counter is within the budget, or at most one entry is resident. *)
Definition bounded (c : CacheManager) : Prop :=
  sizeUsed c <= maxSize c \/ (List.length (cache c) <= 1)%nat.

(** The last operation of [ops] was a [set] that left its oversized
    entry alone in the store. *)
Definition just_stored_oversized (ops : list Op) (c : CacheManager) : Prop :=
  exists ops' key d ttl e,
    ops = (ops' ++ [OpSet key d ttl])%list /\
    cache c = [(key, e)] /\
    maxSize c < estimateSize d.

(** [n] iterations of the body of the loop of [set]. *)
Fixpoint evict_times (n : nat) (c : CacheManager) : CacheManager :=
  match n with
  | O => c
  | S n' => evict_times n' (evictLRU c)
  end.

End Manager.

Arguments mkEntry {T}.
Arguments data {T}.
Arguments timestamp {T}.
Arguments size {T}.
Arguments hits {T}.
Arguments mkCache {T}.
Arguments cache {T}.
Arguments sizeUsed {T}.
Arguments maxSize {T}.
Arguments defaultTTL {T}.
Arguments cleanupTimer {T}.
Arguments ttlByPattern {T}.
Arguments clockReads {T}.
Arguments OpSet {T}.
Arguments OpGet {T}.
Arguments OpDelete {T}.
Arguments OpClear {T}.
Arguments OpGetStats {T}.
Arguments OpSweep {T}.
Arguments OpDestroy {T}.
Arguments with_cache {T}.
Arguments advance {T}.
Arguments with_sizeUsed {T}.
Arguments with_cleanupTimer {T}.
Arguments Date_now {T}.
Arguments new {T}.
Arguments getTTLForKey {T}.
Arguments estimateSize {T}.
Arguments delete {T}.
Arguments hit {T}.
Arguments get {T}.
Arguments clear {T}.
Arguments score {T}.
Arguments scan_score {T}.
Arguments evictLRU_scan {T}.
Arguments evictLRU {T}.
Arguments must_evict {T}.
Arguments evict_while {T}.
Arguments set_insert {T}.
Arguments set {T}.
Arguments cleanup_collect {T}.
Arguments cleanup {T}.
Arguments destroy {T}.
Arguments getOldestEntry_scan {T}.
Arguments getOldestEntry {T}.
Arguments getMostUsedKeys {T}.
Arguments getStats {T}.
Arguments exec {T}.
Arguments run {T}.
Arguments reachable {T}.
Arguments total_size {T}.
Arguments accounted {T}.
Arguments just_stored_oversized {T}.
Arguments bounded {T}.
Arguments evict_times {T}.

(** *** Key builder *)

Inductive KeyPart : Type :=
| PString (s : string)
| PNumber (z : Z)          (* an integer-valued number, see [safe_integer] *)
| PBoolean (b : bool)
| PUndefined
| PNull.

Definition present (p : KeyPart) : bool :=
match p with
| PUndefined | PNull => false
| _ => true
end.

(** The text that [join] gives to an element.  An integer below 10^21 in
  absolute value is printed in decimal digits, with [-] before a negative
  one. *)
Definition ToString (p : KeyPart) : string :=
match p with
| PString s => s
| PNumber z => NilZero.string_of_int (Z.to_int z)
| PBoolean true => "true"
| PBoolean false => "false"
| PUndefined => "undefined"
| PNull => "null"
end.

(** [Array.prototype.join]: [undefined] and [null] elements contribute the
  empty string. *)
Definition join_element (p : KeyPart) : string :=
if present p then ToString p else "".

Fixpoint join_loop (sep : string) (R : string) (k : nat) (parts : list KeyPart)
: string :=
match parts with
| [] => R
| element :: rest =>
    let R1 := if (0 <? k)%nat then R ++ sep else R in
    join_loop sep (R1 ++ join_element element) (S k) rest
end.

Definition join (sep : string) (parts : list KeyPart) : string :=
join_loop sep "" 0 parts.

Definition lower_ascii (c : ascii) : ascii :=
let n := nat_of_ascii c in
if ((65 <=? n) && (n <=? 90))%nat then ascii_of_nat (n + 32) else c.

(** [String.prototype.toLowerCase] on ASCII text, where the letters [A]
  to [Z] are the only characters it changes. *)
Fixpoint toLowerCase (s : string) : string :=
match s with
| EmptyString => EmptyString
| String c rest => String (lower_ascii c) (toLowerCase rest)
end.

Definition createKey (parts : list KeyPart) : string :=
toLowerCase (join ":" (filter present parts)).

(** *** The components that the key builder is modelled on

  Text of the ASCII range, and the integers that a JavaScript number holds
  exactly ([Number.isSafeInteger]); booleans and absent components are
  always covered.  Fractions, NaN, the infinities, larger integers and
  text with other characters are not represented. *)

Definition ascii_char (c : ascii) : bool := (nat_of_ascii c <? 128)%nat.

Fixpoint ascii_text (s : string) : bool :=
match s with
| EmptyString => true
| String c rest => ascii_char c && ascii_text rest
end.

Definition safe_integer (z : Z) : bool := Z.abs z <? 2 ^ 53.

Definition modelled (p : KeyPart) : bool :=
match p with
| PString s => ascii_text s
| PNumber z => safe_integer z
| PBoolean _ | PUndefined | PNull => true
end.

Definition in_domain (parts : list KeyPart) : bool := forallb modelled parts.

(** Text without the delimiter of the key builder. *)
Fixpoint no_colon (s : string) : bool :=
match s with
| EmptyString => true
| String c rest => negb (Ascii.eqb c ":") && no_colon rest
end.

End Cache.

(* ===================================================================== *)
(** ** Concrete caches used in the examples *)
(* ===================================================================== *)

Module Scenario.
Import Cache.

Definition dquote : string := String "034"%char "".

(** Payloads are strings free of characters that JSON escapes; their
    JSON text is the string between double quotes. *)
Definition JSON_stringify (s : string) : option string :=
  Some (dquote ++ s ++ dquote).

Fixpoint text (n : nat) : string :=
  match n with
  | O => ""
  | S n' => String "x"%char (text n')
  end.

(** A payload of estimated size 60, and one of estimated size 120. *)
Definition payload : string := text 28.
Definition big_payload : string := text 58.

(** A clock that stands still, and one that advances by a millisecond at
    every reading. *)
Definition frozen (t : Z) : nat -> Z := fun _ => t.
Definition ticking (t0 : Z) : nat -> Z := fun n => t0 + Z.of_nat n.

(** A budget of 100 bytes, no background sweep. *)
Definition options100 : CacheOptions := mkOptions (Some 100) None (Some 0).

(** At time 100000: A was stored a second ago and read ten times, B was
    stored a hundred seconds ago and never read. *)
Definition A : CacheEntry string := mkEntry payload 99000 60 10.
Definition B : CacheEntry string := mkEntry payload 0 60 0.

Definition two_entries : CacheManager string :=
  mkCache [("B", B); ("A", A)] 120 100 300000 None default_rules 0.

Definition two_entries_swapped : CacheManager string :=
  mkCache [("A", A); ("B", B)] 120 100 300000 None default_rules 0.

(** The same two entries built through the interface, under a budget of
    150 bytes that can hold both: B is stored at time 0, A at 99000 and
    read ten times, and C is stored at 100000. *)
Definition options150 : CacheOptions := mkOptions (Some 150) None (Some 0).

Definition timeline (n : nat) : Z :=
  if (n =? 0)%nat then 0
  else if (n =? 1)%nat then 99000
  else if (n <=? 11)%nat then 99500
  else 100000.

Definition session : list (Op string) :=
  ([OpSet "B" payload None; OpSet "A" payload None]
     ++ repeat (OpGet "A") 10 ++ [OpSet "C" payload None])%list.

(** An entry whose TTL of ten minutes elapsed. *)
Definition stale : CacheManager string :=
  mkCache [("post:1", mkEntry payload 0 60 3)] 60 100 300000 None
          default_rules 0.

(** At time 100000, three entries that were all read: the oldest was read
    most (50 hits in 10 s, 5 per second), the youngest least (4 hits in
    1 s, 4 per second), and the one in between has the least rate (6 hits
    in 2 s, 3 per second). *)
Definition veteran : CacheEntry string := mkEntry payload 90000 60 50.
Definition steady : CacheEntry string := mkEntry payload 98000 60 6.
Definition recent : CacheEntry string := mkEntry payload 99000 60 4.

Definition three_entries : CacheManager string :=
  mkCache [("veteran", veteran); ("steady", steady); ("recent", recent)]
          180 200 300000 None default_rules 0.

End Scenario.

(* ===================================================================== *)
(** ** Conditions on stores and clocks used in the statements *)
(* ===================================================================== *)

Module Conditions.
Import Cache.
Section Manager.
Variable T : Type.
Variable clock : nat -> Z.

(** The clock never goes back. *)
Definition monotone : Prop :=
  forall m n, (m <= n)%nat -> clock m <= clock n.

Definition timestamps (es : list (string * CacheEntry T)) : list Z :=
  List.map (fun kv => timestamp (snd kv)) es.

(** Every resident timestamp is an earlier reading of the clock. *)
Definition stamped (c : CacheManager T) : Prop :=
  Forall (fun t => exists m, (m < clockReads c)%nat /\ t = clock m)
         (timestamps (cache c)).

(** The entries are in the order of their timestamps. *)
Definition by_timestamp (es : list (string * CacheEntry T)) : Prop :=
  StronglySorted Z.le (timestamps es).

(** Both together. *)
Definition ordered (c : CacheManager T) : Prop :=
  stamped c /\ by_timestamp (cache c).

(** The entries whose key is not in [gone], in their order. *)
Definition without (gone : list string) (es : list (string * CacheEntry T))
  : list (string * CacheEntry T) :=
  filter (fun kv => negb (existsb (String.eqb (fst kv)) gone)) es.

(** Hit counters are in the range where doubles are exact. *)
Definition hits_in_range (c : CacheManager T) : Prop :=
  Forall (fun kv => 0 <= hits (snd kv) < 2 ^ 53) (cache c).

(** At its next readings, up to reading number [horizon], the clock is
    later than every resident timestamp, by less than 2^53 milliseconds. *)
Definition aged (c : CacheManager T) (horizon : nat) : Prop :=
  forall k e n, In (k, e) (cache c) -> (clockReads c <= n < horizon)%nat ->
                0 < clock n - timestamp e < 2 ^ 53.

Definition keys_nonempty (c : CacheManager T) : Prop :=
  Forall (fun kv => fst kv <> "") (cache c).

(** The key of the first entry, in insertion order, that was never read. *)
Fixpoint first_unread (es : list (string * CacheEntry T)) : option string :=
  match es with
  | [] => None
  | (k, e) :: rest => if hits e =? 0 then Some k else first_unread rest
  end.

(** The entries of a store that a sweep reading [now] keeps. *)
Definition unexpired (c : CacheManager T) (now : Z)
           (kv : string * CacheEntry T) : bool :=
  negb (now - timestamp (snd kv) >? getTTLForKey c (fst kv)).

End Manager.
Arguments stamped {T}.
Arguments ordered {T}.
Arguments timestamps {T}.
Arguments without {T}.
Arguments by_timestamp {T}.
Arguments hits_in_range {T}.
Arguments aged {T}.
Arguments keys_nonempty {T}.
Arguments first_unread {T}.
Arguments unexpired {T}.
End Conditions.

(* ===================================================================== *)
(** ** The server entry point: tool registry and cache configuration *)
(* ===================================================================== *)

(** Shallow embedding of the parts of [index.ts] that decide which tools
    are registered and how the cache is configured.  The tool handlers,
    the SDK server and the authentication manager are outside the
    embedding: a registration is recorded as the tool's name and
    description, and the TTL read from the authentication manager is a
    parameter. *)
Module Server.
Import Cache.

Record Tool : Type := mkTool {
  tool_name : string;
  tool_description : string;
  tool_enabled : bool
}.

Definition availableTools : list (string * Tool) :=
  [ ("browse_subreddit",
     mkTool "Browse subreddit"
       "Fetch posts from a subreddit sorted by your choice (hot/new/top/rising). Returns post list with content, scores, and metadata."
       true);
    ("search_reddit",
     mkTool "Search reddit"
       "Search for posts across Reddit or specific subreddits. Returns matching posts with content and metadata."
       true);
    ("get_post_details",
     mkTool "Get post details"
       "Fetch a Reddit post with its comments. Requires EITHER url OR post_id. IMPORTANT: When using post_id alone, an extra API call is made to fetch the subreddit first (2 calls total). For better efficiency, always provide the subreddit parameter when known (1 call total)."
       true);
    ("user_analysis",
     mkTool "User analysis"
       "Analyze a Reddit user's posting history, karma, and activity patterns. Returns posts, comments, and statistics."
       false);
    ("reddit_explain",
     mkTool "Reddit explain"
       "Get explanations of Reddit terms, slang, and culture. Returns definition, origin, usage, and examples."
       false) ].

Definition tool_ids : list string := List.map fst availableTools.

Record Config : Type := mkConfig {
  enabledTools : option (list string);
  debug : bool
}.

(** [availableTools[toolId]], for own keys. *)
Fixpoint lookup (toolId : string) (tools : list (string * Tool)) : option Tool :=
  match tools with
  | [] => None
  | (id, tool) :: rest => if String.eqb id toolId then Some tool else lookup toolId rest
  end.

(** [Array.prototype.includes] on strings. *)
Definition includes (l : list string) (x : string) : bool :=
  existsb (fun y => String.eqb y x) l.

(** [availableTools[toolId]?.enabled ?? false]: an unknown id (also a
    name inherited from the prototype, which has no [enabled]) gives
    [false]. *)
Definition enabled_by_default (toolId : string) : bool :=
  match lookup toolId availableTools with
  | Some tool => tool_enabled tool
  | None => false
  end.

Definition shouldRegisterTool (config : Config) (toolId : string) : bool :=
  match enabledTools config with
  | Some l =>
      if (0 <? List.length l)%nat then includes l toolId
      else enabled_by_default toolId
  | None => enabled_by_default toolId
  end.

(** What the entry point has registered: the tools given to the server,
    with their descriptions, and the [registeredTools] array. *)
Record Registration : Type := mkRegistration {
  server_tools : list (string * string);
  registeredTools : list string
}.

Definition description_of (toolId : string) : string :=
  match lookup toolId availableTools with
  | Some tool => tool_description tool
  | None => ""
  end.

Definition register (config : Config) (toolId : string) (st : Registration)
  : Registration :=
  if shouldRegisterTool config toolId then
    mkRegistration (server_tools st ++ [(toolId, description_of toolId)])%list
                   (registeredTools st ++ [toolId])%list
  else st.

Definition registration (config : Config) : Registration :=
  let st0 := mkRegistration [] [] in
  let st1 := register config "browse_subreddit" st0 in
  let st2 := register config "search_reddit" st1 in
  let st3 := register config "get_post_details" st2 in
  let st4 := register config "user_analysis" st3 in
  register config "reddit_explain" st4.

(** [process.env.REDDIT_BUDDY_NO_CACHE === 'true']; [None] when the
    variable is not set. *)
Definition disableCache (env_no_cache : option string) : bool :=
  match env_no_cache with
  | Some v => String.eqb v "true"
  | None => false
  end.

(** The options given to [new CacheManager]; [cacheTTL] is what the
    authentication manager returns. *)
Definition cacheOptions (env_no_cache : option string) (cacheTTL : Z)
  : CacheOptions :=
  mkOptions (Some (if disableCache env_no_cache then 0 else 50 * 1024 * 1024))
            (Some (if disableCache env_no_cache then 0 else cacheTTL))
            None.

End Server.

(* ===================================================================== *)
(** * Properties *)
(* ===================================================================== *)

(** ** Order on doubles *)

Module JSNumberFacts.
Import JSNumber.

Lemma pos_cont_lt m1 m2 : Pos.compare_cont Eq m1 m2 = Lt <-> (m1 < m2)%positive.
Proof. change (Pos.compare_cont Eq m1 m2) with (Pos.compare m1 m2). apply Pos.compare_lt_iff. Qed.

Lemma pos_cont_gt m1 m2 : Pos.compare_cont Eq m1 m2 = Gt <-> (m2 < m1)%positive.
Proof. change (Pos.compare_cont Eq m1 m2) with (Pos.compare m1 m2). apply Pos.compare_gt_iff. Qed.

Lemma pos_cont_eq m1 m2 : Pos.compare_cont Eq m1 m2 = Eq <-> m1 = m2.
Proof. change (Pos.compare_cont Eq m1 m2) with (Pos.compare m1 m2). apply Pos.compare_eq_iff. Qed.

Ltac cmp_cases :=
  repeat match goal with
  | |- context [Z.compare ?a ?b] =>
      let H := fresh "Hc" in destruct (Z.compare_spec a b) as [H|H|H]
  | |- context [Pos.compare_cont Eq ?a ?b] =>
      let H := fresh "Hp" in
      change (Pos.compare_cont Eq a b) with (Pos.compare a b);
      destruct (Pos.compare_spec a b) as [H|H|H]
  end.

Lemma ltb_rank x y :
  ltb x y = true <-> exists a b, rank x = Some a /\ rank y = Some b /\ lex_lt a b.
Proof.
  unfold ltb, SFltb.
  destruct x as [sx|sx| |sx mx ex], y as [sy|sy| |sy my ey];
    try destruct sx; try destruct sy; simpl;
    cmp_cases; simpl.
  all: split.
  all: try (intros H; discriminate H).
  all: try (intros (a & b & Ha & Hb & Hlt); discriminate).
  all: try (intros _; eexists; eexists;
            split; [reflexivity|split; [reflexivity|]]; simpl; subst; lia).
  all: intros (a & b & Ha & Hb & Hlt); injection Ha as <-; injection Hb as <-;
    simpl in Hlt; subst; first [reflexivity | exfalso; lia].
Qed.

Lemma leb_rank x y :
  leb x y = true <-> exists a b, rank x = Some a /\ rank y = Some b /\ lex_le a b.
Proof.
  unfold leb, SFleb, lex_le.
  destruct x as [sx|sx| |sx mx ex], y as [sy|sy| |sy my ey];
    try destruct sx; try destruct sy; simpl;
    cmp_cases; simpl.
  all: split.
  all: try (intros H; discriminate H).
  all: try (intros (a & b & Ha & Hb & Hlt); discriminate).
  all: try (intros _; eexists; eexists;
            split; [reflexivity|split; [reflexivity|]]; simpl; subst;
            first [right; reflexivity | left; lia]).
  all: intros (a & b & Ha & Hb & Hlt); injection Ha as <-; injection Hb as <-;
    simpl in Hlt; subst;
    first [reflexivity
          | exfalso; destruct Hlt as [Hlt|Hlt];
            [lia | injection Hlt; intros; lia]].
Qed.

Lemma lex_lt_trans a b c : lex_lt a b -> lex_lt b c -> lex_lt a c.
Proof.
  destruct a as [[a1 a2] a3], b as [[b1 b2] b3], c as [[c1 c2] c3].
  unfold lex_lt. lia.
Qed.

Lemma lex_lt_irrefl a : ~ lex_lt a a.
Proof. destruct a as [[a1 a2] a3]. unfold lex_lt. lia. Qed.

Lemma ltb_trans a b c : ltb a b = true -> ltb b c = true -> ltb a c = true.
Proof.
  rewrite !ltb_rank.
  intros (ra & rb & Ha & Hb & Hab) (rb' & rc & Hb' & Hc & Hbc).
  rewrite Hb in Hb'. injection Hb' as <-.
  exists ra, rc. repeat split; trivial. eapply lex_lt_trans; eassumption.
Qed.

Lemma ltb_irrefl a : ltb a a = false.
Proof.
  destruct (ltb a a) eqn:E; trivial.
  apply ltb_rank in E. destruct E as (ra & rb & Ha & Hb & Hab).
  rewrite Ha in Hb. injection Hb as <-. destruct (lex_lt_irrefl _ Hab).
Qed.

(** [c] is not below [b], which is above [a]: [c] is NaN or above [a]. *)
Lemma not_leb_below a b c :
  ltb a b = true -> ltb c b = false -> leb c a = false.
Proof.
  intros Hab Hcb. destruct (leb c a) eqn:E; trivial.
  apply leb_rank in E. destruct E as (rc & ra & Hc & Ha & Hca).
  apply ltb_rank in Hab. destruct Hab as (ra' & rb & Ha' & Hb & Hab).
  rewrite Ha in Ha'. injection Ha' as <-.
  assert (ltb c b = true) as Hx.
  { apply ltb_rank. exists rc, rb. repeat split; trivial.
    destruct Hca as [Hca| ->]; trivial. eapply lex_lt_trans; eassumption. }
  congruence.
Qed.

Lemma ltb_not_leb a b : ltb a b = true -> leb b a = false.
Proof.
  intros H. eapply not_leb_below; [eassumption | apply ltb_irrefl].
Qed.

Lemma ltb_leb a b : ltb a b = true -> leb a b = true.
Proof.
  rewrite ltb_rank, leb_rank. intros (ra & rb & Ha & Hb & Hab).
  exists ra, rb. repeat split; trivial. left; trivial.
Qed.

Lemma not_leb_not_ltb a b : leb a b = false -> ltb a b = false.
Proof.
  intros H. destruct (ltb a b) eqn:E; trivial.
  apply ltb_leb in E. congruence.
Qed.

End JSNumberFacts.

(** ** Doubles computed from integers in the safe range *)

Module DoubleFacts.
Import JSNumber.

Lemma digits2_size p : digits2_pos p = Pos.size p.
Proof. induction p; simpl; congruence. Qed.

Lemma digits_bounds p :
  2 ^ (Zpos (digits2_pos p) - 1) <= Zpos p < 2 ^ Zpos (digits2_pos p).
Proof.
  rewrite digits2_size.
  pose proof (Pos.size_gt p) as Hgt. pose proof (Pos.size_le p) as Hle.
  apply Pos2Z.pos_lt_pos in Hgt. apply Pos2Z.pos_le_pos in Hle.
  rewrite Pos2Z.inj_pow in Hgt, Hle. change (Z.pos p~0) with (2 * Z.pos p) in Hle.
  split; trivial.
  assert (2 ^ Zpos (Pos.size p) = 2 * 2 ^ (Zpos (Pos.size p) - 1)) as E.
  { rewrite <- Z.pow_succ_r by lia. f_equal. lia. }
  lia.
Qed.

Lemma digits_unique p d :
  2 ^ (d - 1) <= Zpos p < 2 ^ d -> Zpos (digits2_pos p) = d.
Proof.
  intros [Hlo Hhi]. pose proof (digits_bounds p) as [Blo Bhi].
  assert (0 < d) as Hd.
  { destruct (Z_lt_le_dec 0 d); trivial.
    assert (2 ^ d <= 2 ^ 0)
      by (destruct (Z.eq_dec d 0);
          [subst; lia | rewrite Z.pow_neg_r by lia; simpl; lia]).
    simpl in *. lia. }
  destruct (Z.lt_trichotomy (Zpos (digits2_pos p)) d) as [H|[H|H]]; trivial;
    exfalso.
  - assert (2 ^ Zpos (digits2_pos p) <= 2 ^ (d - 1))
      by (apply Z.pow_le_mono_r; lia). lia.
  - assert (2 ^ d <= 2 ^ (Zpos (digits2_pos p) - 1))
      by (apply Z.pow_le_mono_r; lia). lia.
Qed.

Lemma digits_shift p k :
  digits2_pos (Pos.iter xO p k) = (digits2_pos p + k)%positive.
Proof.
  revert p. induction k using Pos.peano_ind; intros p.
  - simpl. lia.
  - rewrite Pos.iter_succ. simpl. rewrite IHk. lia.
Qed.

Lemma fexp_normal x : -1021 <= x -> fexp prec emax x = x - 53.
Proof. intros H. unfold fexp, emin, prec, emax. lia. Qed.

(** One call of [shr_fexp] on a significand of 53 or 54 bits. *)
Lemma shr_fexp_norm p e l :
  (digits2_pos p = 53 \/ digits2_pos p = 54)%positive ->
  -1074 <= e ->
  exists mrs p',
    shr_fexp prec emax (Zpos p) e l = (mrs, e + (Zpos (digits2_pos p) - 53)) /\
    shr_m mrs = Zpos p' /\ digits2_pos p' = 53%positive.
Proof.
  intros Hd He. unfold shr_fexp. cbn [Zdigits2].
  rewrite fexp_normal by (destruct Hd as [-> | ->]; lia).
  destruct Hd as [Hd | Hd]; rewrite Hd.
  - replace (53 + e - 53 - e) with 0 by lia. cbn [shr].
    exists (shr_record_of_loc (Zpos p) l), p.
    repeat split; trivial.
    + f_equal. lia.
    + destruct l as [|[| |]]; reflexivity.
  - replace (54 + e - 53 - e) with 1 by lia. cbn [shr iter_pos].
    assert (exists p', shr_m (shr_1 (shr_record_of_loc (Zpos p) l)) = Zpos p' /\
                       digits2_pos p' = 53%positive) as (p' & Hm & Hp').
    { destruct p as [q|q|]; simpl in Hd; try discriminate;
        exists q; (split; [destruct l as [|[| |]]; reflexivity | lia]). }
    exists (shr_1 (shr_record_of_loc (Zpos p) l)), p'.
    repeat split; trivial.
Qed.

Lemma round_nearest_even_digits p l :
  digits2_pos p = 53%positive ->
  exists p', round_nearest_even (Zpos p) l = Zpos p' /\
             (digits2_pos p' = 53 \/ digits2_pos p' = 54)%positive.
Proof.
  intros Hd.
  assert (exists p', Zpos p + 1 = Zpos p' /\
             (digits2_pos p' = 53 \/ digits2_pos p' = 54)%positive) as Hsucc.
  { exists (Pos.succ p). split; [lia|].
    pose proof (digits_bounds p) as [Hlo Hhi]. rewrite Hd in Hlo, Hhi.
    destruct (Z.eq_dec (Zpos p + 1) (2 ^ 53)) as [E|E].
    - right. apply Pos2Z.inj. apply digits_unique.
      rewrite Pos2Z.inj_succ. unfold Z.succ. rewrite E. simpl. lia.
    - left. apply Pos2Z.inj. apply digits_unique.
      rewrite Pos2Z.inj_succ. simpl in *. lia. }
  destruct l as [|[| |]]; unfold round_nearest_even.
  - exists p. auto.
  - destruct (Z.even (Zpos p)); [exists p; auto | exact Hsucc].
  - exists p. auto.
  - exact Hsucc.
Qed.

(** Rounding a significand of 53 or 54 bits in the normal range gives a
    finite double with a significand of 53 bits. *)
Lemma binary_round_aux_normal s p e l :
  (digits2_pos p = 53 \/ digits2_pos p = 54)%positive ->
  -1074 <= e <= 968 ->
  exists m e',
    binary_round_aux prec emax s (Zpos p) e l = S754_finite s m e' /\
    digits2_pos m = 53%positive /\ e <= e' <= e + 2.
Proof.
  intros Hd He. unfold binary_round_aux.
  destruct (shr_fexp_norm p e l Hd) as (mrs1 & p1 & -> & Hm1 & Hd1); [lia|].
  rewrite Hm1.
  destruct (round_nearest_even_digits p1 (loc_of_shr_record mrs1) Hd1)
    as (p2 & -> & Hd2).
  destruct (shr_fexp_norm p2 (e + (Zpos (digits2_pos p) - 53)) loc_Exact Hd2)
    as (mrs2 & p3 & -> & Hm2 & Hd3); [destruct Hd as [-> | ->]; lia|].
  rewrite Hm2.
  assert ((e + (Zpos (digits2_pos p) - 53) + (Zpos (digits2_pos p2) - 53)
           <=? emax - prec) = true) as ->.
  { apply Z.leb_le. unfold emax, prec.
    destruct Hd as [-> | ->], Hd2 as [-> | ->]; lia. }
  eexists _, _. split; [reflexivity|]. split; trivial.
  destruct Hd as [-> | ->], Hd2 as [-> | ->]; lia.
Qed.

(** The double of a positive integer below 2^53. *)
Lemma binary_round_int s p :
  Zpos p < 2 ^ 53 ->
  exists m e, binary_round prec emax s p 0 = S754_finite s m e /\
              digits2_pos m = 53%positive /\ -52 <= e <= 2.
Proof.
  intros Hp. unfold binary_round.
  pose proof (digits_bounds p) as [Hlo Hhi].
  assert (Zpos (digits2_pos p) <= 53) as Hd.
  { destruct (Z_le_gt_dec (Zpos (digits2_pos p)) 53); trivial.
    assert (2 ^ 53 <= 2 ^ (Zpos (digits2_pos p) - 1))
      by (apply Z.pow_le_mono_r; lia). lia. }
  rewrite Z.add_0_r, fexp_normal by lia.
  assert (exists mz,
             shl_align p 0 (Zpos (digits2_pos p) - 53)
             = (mz, Zpos (digits2_pos p) - 53) /\
             digits2_pos mz = 53%positive) as (mz & -> & Hmz).
  { unfold shl_align. rewrite Z.sub_0_r.
    destruct (Zpos (digits2_pos p) - 53) as [|d|d] eqn:E; try lia.
    - exists p. split; trivial. lia.
    - exists (Pos.iter xO p d). split; trivial.
      rewrite digits_shift. lia. }
  destruct (binary_round_aux_normal s mz (Zpos (digits2_pos p) - 53) loc_Exact)
    as (m & e & -> & Hm & He); [now left | lia |].
  exists m, e. repeat split; trivial; lia.
Qed.

Lemma of_Z_nonzero z :
  z <> 0 -> Z.abs z < 2 ^ 53 ->
  exists m e, of_Z z = S754_finite (z <? 0) m e /\
              digits2_pos m = 53%positive /\ -52 <= e <= 2.
Proof.
  intros Hz Hb. unfold of_Z, binary_normalize.
  destruct z as [|p|p]; [congruence | |]; apply binary_round_int; lia.
Qed.

Lemma of_Z_0 : of_Z 0 = S754_zero false.
Proof. reflexivity. Qed.

Lemma div_core_normal m1 e1 m2 e2 :
  digits2_pos m1 = 53%positive -> digits2_pos m2 = 53%positive ->
  -900 <= e1 - e2 <= 900 ->
  exists q l,
    SFdiv_core_binary prec emax (Zpos m1) e1 (Zpos m2) e2
      = (Zpos q, e1 - e2 - 53, l) /\
    (digits2_pos q = 53 \/ digits2_pos q = 54)%positive.
Proof.
  intros H1 H2 He. unfold SFdiv_core_binary. cbn [Zdigits2].
  rewrite H1, H2.
  replace (53 + e1 - (53 + e2)) with (e1 - e2) by lia.
  rewrite fexp_normal by lia.
  rewrite Z.min_l by lia.
  replace (e1 - e2 - (e1 - e2 - 53)) with 53 by lia.
  cbv zeta. 
  pose proof (digits_bounds m1) as [L1 U1]. pose proof (digits_bounds m2) as [L2 U2].
  rewrite H1 in L1, U1. rewrite H2 in L2, U2.
  change (2 ^ (53 - 1)) with (2 ^ 52) in *.
  pose proof (Z_div_mod (Z.shiftl (Zpos m1) 53) (Zpos m2) ltac:(lia)) as Hdm.
  destruct (Z.div_eucl (Z.shiftl (Zpos m1) 53) (Zpos m2)) as [q r].
  destruct Hdm as [Hq Hr]. rewrite Z.shiftl_mul_pow2 in Hq by lia.
  assert (2 ^ 52 <= q < 2 ^ 54) as Hqb.
  { assert (2 ^ 53 = 2 * 2 ^ 52) as E53 by reflexivity.
    assert (2 ^ 54 = 4 * 2 ^ 52) as E54 by reflexivity.
    rewrite E53 in U1, U2, Hq. rewrite E54.
    assert (0 < 2 ^ 52) as Hpos by reflexivity.
    remember (2 ^ 52) as P eqn:EP. clear EP E53 E54.
    split; nia. }
  destruct q as [|q|q]; try (simpl in Hqb; lia).
  exists q, (new_location (Z.pos m2) r). split; trivial.
  destruct (Z_lt_le_dec (Zpos q) (2 ^ 53)).
  - left. apply Pos2Z.inj. apply digits_unique. simpl in *. lia.
  - right. apply Pos2Z.inj. apply digits_unique. simpl in *. lia.
Qed.

Lemma div_normal s1 m1 e1 s2 m2 e2 :
  digits2_pos m1 = 53%positive -> digits2_pos m2 = 53%positive ->
  -900 <= e1 - e2 <= 900 ->
  exists m e,
    div (S754_finite s1 m1 e1) (S754_finite s2 m2 e2)
      = S754_finite (xorb s1 s2) m e /\
    digits2_pos m = 53%positive /\ e1 - e2 - 53 <= e <= e1 - e2 - 51.
Proof.
  intros H1 H2 He. unfold div, SFdiv.
  destruct (div_core_normal m1 e1 m2 e2 H1 H2 He) as (q & l & -> & Hq).
  destruct (binary_round_aux_normal (xorb s1 s2) q (e1 - e2 - 53) l Hq)
    as (m & e & -> & Hm & Hb); [lia|].
  exists m, e. repeat split; trivial; lia.
Qed.

End DoubleFacts.

(** ** The insertion-ordered map *)

Module JSMapFacts.
Section WithValue.
Context {V : Type}.
Implicit Types (m : JSMap.t V) (k : string) (v : V).

Lemma get_set_same k v m : JSMap.get k (JSMap.set k v m) = Some v.
Proof.
  induction m as [|[k' v'] m IH]; simpl.
  - now rewrite String.eqb_refl.
  - destruct (String.eqb k' k) eqn:E; simpl; rewrite E; trivial.
Qed.

Lemma get_set_other k k' v m :
  k' <> k -> JSMap.get k' (JSMap.set k v m) = JSMap.get k' m.
Proof.
  intros Hne. induction m as [|[k0 v0] m IH]; simpl.
  - destruct (String.eqb_spec k k'); congruence.
  - destruct (String.eqb_spec k0 k); simpl.
    + subst. destruct (String.eqb_spec k k'); congruence.
    + destruct (String.eqb k0 k'); trivial.
Qed.

Lemma get_none_notin k m : JSMap.get k m = None <-> ~ In k (JSMap.keys m).
Proof.
  induction m as [|[k' v'] m IH]; simpl.
  - tauto.
  - destruct (String.eqb_spec k' k).
    + split; [discriminate | intros H; exfalso; apply H; now left].
    + rewrite IH. tauto.
Qed.

Lemma get_some_in k v m : JSMap.get k m = Some v -> In (k, v) m.
Proof.
  induction m as [|[k' v'] m IH]; simpl; [discriminate|].
  destruct (String.eqb_spec k' k).
  - intros [= <-]. subst. now left.
  - intros H. right. auto.
Qed.

Lemma has_false_get k m : JSMap.has k m = false <-> JSMap.get k m = None.
Proof. unfold JSMap.has. destruct (JSMap.get k m); split; congruence. Qed.

Lemma get_remove_same k m : JSMap.get k (JSMap.remove k m) = None.
Proof.
  induction m as [|[k' v'] m IH]; simpl; trivial.
  destruct (String.eqb k' k) eqn:E; simpl; trivial. now rewrite E.
Qed.

Lemma get_remove_other k k' m :
  k' <> k -> JSMap.get k' (JSMap.remove k m) = JSMap.get k' m.
Proof.
  intros Hne. induction m as [|[k0 v0] m IH]; simpl; trivial.
  destruct (String.eqb_spec k0 k); simpl.
  - subst. destruct (String.eqb_spec k k'); congruence.
  - now rewrite IH.
Qed.

Lemma remove_absent k m : JSMap.get k m = None -> JSMap.remove k m = m.
Proof.
  induction m as [|[k' v'] m IH]; simpl; trivial.
  destruct (String.eqb k' k); simpl; [discriminate|].
  intros H. now rewrite IH.
Qed.

Lemma in_keys_remove k k' m :
  In k' (JSMap.keys (JSMap.remove k m)) <-> In k' (JSMap.keys m) /\ k' <> k.
Proof.
  induction m as [|[k0 v0] m IH]; simpl; [tauto|].
  destruct (String.eqb_spec k0 k); simpl; rewrite IH; intuition congruence.
Qed.

Lemma NoDup_remove k m :
  NoDup (JSMap.keys m) -> NoDup (JSMap.keys (JSMap.remove k m)).
Proof.
  induction m as [|[k0 v0] m IH]; simpl; intros H; trivial.
  inversion H as [|? ? Hn Hd]; subst.
  destruct (String.eqb_spec k0 k); simpl; auto.
  constructor; auto. rewrite in_keys_remove. tauto.
Qed.

Lemma length_remove k m :
  (List.length (JSMap.remove k m) <= List.length m)%nat.
Proof. apply filter_length_le. Qed.

Lemma set_absent k v m :
  JSMap.get k m = None -> JSMap.set k v m = (m ++ [(k, v)])%list.
Proof.
  induction m as [|[k0 v0] m IH]; simpl; trivial.
  destruct (String.eqb k0 k); [discriminate|].
  intros H. now rewrite IH.
Qed.

Lemma keys_set_present k v v0 m :
  JSMap.get k m = Some v0 -> JSMap.keys (JSMap.set k v m) = JSMap.keys m.
Proof.
  induction m as [|[k0 v1] m IH]; simpl; [discriminate|].
  destruct (String.eqb k0 k); simpl; trivial.
  intros H. f_equal. auto.
Qed.

Lemma NoDup_set k v m :
  NoDup (JSMap.keys m) -> NoDup (JSMap.keys (JSMap.set k v m)).
Proof.
  intros H. destruct (JSMap.get k m) eqn:E.
  - erewrite keys_set_present; eauto.
  - rewrite set_absent by trivial. unfold JSMap.keys.
    rewrite map_app. simpl.
    apply get_none_notin in E.
    apply NoDup_app.
    + exact H.
    + constructor; [intros []|constructor].
    + intros a Ha [<-|[]]. contradiction.
Qed.

End WithValue.
End JSMapFacts.

(** ** The cache manager *)

Module CacheFacts.
Import Cache.

Section Manager.
Variable T : Type.
Variable JSON_stringify : T -> option string.
Variable clock : nat -> Z.

Implicit Types (c : CacheManager T) (m : JSMap.t (CacheEntry T))
         (e entry : CacheEntry T) (key k : string).

(** *** Sums of sizes *)

Lemma total_size_remove k e m :
  NoDup (JSMap.keys m) -> JSMap.get k m = Some e ->
  total_size (JSMap.remove k m) = total_size m - size e.
Proof.
  induction m as [|[k0 e0] m IH]; simpl; [discriminate|].
  intros Hnd Hget. inversion Hnd as [|? ? Hn Hd]; subst.
  destruct (String.eqb_spec k0 k); simpl.
  - injection Hget as <-. subst.
    rewrite JSMapFacts.remove_absent by (now apply JSMapFacts.get_none_notin).
    lia.
  - rewrite IH by trivial. lia.
Qed.

Lemma total_size_set_present k e e0 m :
  JSMap.get k m = Some e0 ->
  total_size (JSMap.set k e m) = total_size m - size e0 + size e.
Proof.
  induction m as [|[k0 e1] m IH]; simpl; [discriminate|].
  destruct (String.eqb k0 k); simpl.
  - intros [= <-]. lia.
  - intros H. rewrite IH by trivial. lia.
Qed.

Lemma total_size_set_absent k e m :
  JSMap.get k m = None -> total_size (JSMap.set k e m) = total_size m + size e.
Proof.
  induction m as [|[k0 e1] m IH]; simpl; [intros; lia|].
  destruct (String.eqb k0 k); simpl; [discriminate|].
  intros H. rewrite IH by trivial. lia.
Qed.

Lemma total_size_nonneg m :
  Forall (fun kv => 0 <= size (snd kv)) m -> 0 <= total_size m.
Proof. induction 1; simpl; lia. Qed.

Lemma Forall_set (P : string * CacheEntry T -> Prop) k e m :
  Forall P m -> P (k, e) -> Forall P (JSMap.set k e m).
Proof.
  intros H Hk. induction H as [|[k0 e0] m Hx Hm IH]; simpl.
  - constructor; trivial.
  - destruct (String.eqb_spec k0 k); constructor; subst; trivial.
Qed.

Lemma Forall_remove (P : string * CacheEntry T -> Prop) k m :
  Forall P m -> Forall P (JSMap.remove k m).
Proof.
  unfold JSMap.remove. rewrite !Forall_forall. intros H x Hx.
  apply filter_In in Hx. apply H, Hx.
Qed.

Lemma estimateSize_nonneg d : 0 <= estimateSize JSON_stringify d.
Proof. unfold estimateSize. destruct (JSON_stringify d); lia. Qed.

(** *** What [delete] does *)

Lemma delete_absent key c :
  JSMap.get key (cache c) = None -> delete key c = (false, c).
Proof. unfold delete. now intros ->. Qed.

Lemma delete_present key e c :
  JSMap.get key (cache c) = Some e ->
  delete key c =
    (true,
     with_cache (JSMap.remove key (cache c))
                (with_sizeUsed (sizeUsed c - size e) c)).
Proof.
  intros H. unfold delete, JSMap.delete, JSMap.has. rewrite H. simpl.
  now rewrite H.
Qed.

Lemma delete_fields key c :
  let c' := snd (delete key c) in
  maxSize c' = maxSize c /\ defaultTTL c' = defaultTTL c /\
  cleanupTimer c' = cleanupTimer c /\ ttlByPattern c' = ttlByPattern c /\
  clockReads c' = clockReads c /\
  cache c' = JSMap.remove key (cache c).
Proof.
  destruct (JSMap.get key (cache c)) as [e|] eqn:E.
  - rewrite (delete_present _ _ _ E). simpl. repeat split.
  - rewrite (delete_absent _ _ E). simpl. repeat split.
    symmetry. now apply JSMapFacts.remove_absent.
Qed.

Lemma accounted_delete key c : accounted c -> accounted (snd (delete key c)).
Proof.
  intros (Hnd & Hpos & Hsum).
  destruct (JSMap.get key (cache c)) as [e|] eqn:E.
  - rewrite (delete_present _ _ _ E). simpl. repeat split; simpl.
    + now apply JSMapFacts.NoDup_remove.
    + now apply Forall_remove.
    + rewrite (total_size_remove _ _ _ Hnd E). lia.
  - rewrite (delete_absent _ _ E). simpl. repeat split; trivial.
Qed.

(** *** Clock readings *)

Lemma Date_now_eq c : Date_now clock c = (clock (clockReads c), advance 1 c).
Proof. reflexivity. Qed.

Lemma advance_advance n p c : advance n (advance p c) = advance (n + p) c.
Proof. unfold advance; simpl. f_equal. lia. Qed.

Lemma advance_0 c : advance 0 c = c.
Proof. now destruct c. Qed.

Lemma accounted_advance n c : accounted c -> accounted (advance n c).
Proof. now intros H. Qed.

(** *** What [get] does *)

Lemma get_absent key c :
  JSMap.get key (cache c) = None -> get clock key c = (None, c).
Proof. unfold get. now intros ->. Qed.

Lemma get_expired key e c :
  JSMap.get key (cache c) = Some e ->
  clock (clockReads c) - timestamp e > getTTLForKey c key ->
  get clock key c = (None, snd (delete key (advance 1 c))).
Proof.
  intros H Hexp. unfold get. rewrite H, Date_now_eq.
  apply Z.gtb_gt in Hexp. rewrite Hexp.
  now destruct (delete key (advance 1 c)).
Qed.

Lemma get_fresh key e c :
  JSMap.get key (cache c) = Some e ->
  clock (clockReads c) - timestamp e <= getTTLForKey c key ->
  get clock key c =
    (Some (data e),
     with_cache (JSMap.set key (hit e) (cache c)) (advance 1 c)).
Proof.
  intros H Hexp. unfold get. rewrite H, Date_now_eq.
  destruct (Z.gtb_spec (clock (clockReads c) - timestamp e) (getTTLForKey c key));
    [lia | reflexivity].
Qed.

Lemma accounted_hit key e c :
  accounted c -> JSMap.get key (cache c) = Some e ->
  accounted (with_cache (JSMap.set key (hit e) (cache c)) c).
Proof.
  intros (Hnd & Hpos & Hsum) H. repeat split; simpl.
  - now apply JSMapFacts.NoDup_set.
  - apply Forall_set; trivial. simpl.
    apply JSMapFacts.get_some_in in H.
    rewrite Forall_forall in Hpos. apply (Hpos _ H).
  - rewrite (total_size_set_present _ _ _ _ H). simpl. lia.
Qed.

Lemma accounted_get key c : accounted c -> accounted (snd (get clock key c)).
Proof.
  intros Hc. destruct (JSMap.get key (cache c)) as [e|] eqn:E.
  - destruct (Z.gtb_spec (clock (clockReads c) - timestamp e) (getTTLForKey c key)).
    + rewrite (get_expired _ _ _ E) by lia. simpl.
      apply accounted_delete. now apply accounted_advance.
    + rewrite (get_fresh _ _ _ E) by lia. simpl.
      now apply (accounted_hit key e (advance 1 c)).
  - now rewrite (get_absent _ _ E).
Qed.

(** *** What the eviction scan does *)

Lemma evictLRU_scan_cons k e es lk ms c :
  evictLRU_scan clock ((k, e) :: es) lk ms c =
    if JSNumber.ltb (score (clock (clockReads c)) e) ms
    then evictLRU_scan clock es (Some k) (score (clock (clockReads c)) e)
                       (advance 1 c)
    else evictLRU_scan clock es lk ms (advance 1 c).
Proof. reflexivity. Qed.

Lemma evictLRU_scan_state es lk ms c :
  snd (evictLRU_scan clock es lk ms c) = advance (List.length es) c.
Proof.
  revert lk ms c. induction es as [|[k e] es IH]; intros lk ms c.
  - simpl. now rewrite advance_0.
  - rewrite evictLRU_scan_cons.
    destruct (JSNumber.ltb _ ms); rewrite IH, advance_advance; simpl;
      f_equal; lia.
Qed.

(** [evictLRU] deletes at most one key, after one reading per entry. *)
Lemma evictLRU_cases c :
  let c1 := advance (List.length (cache c)) c in
  evictLRU clock c = c1 \/
  exists k, k <> "" /\
    fst (fst (evictLRU_scan clock (cache c) None JSNumber.Infinity c)) = Some k /\
    evictLRU clock c = snd (delete k c1).
Proof.
  simpl. unfold evictLRU, JSMap.entries.
  pose proof (evictLRU_scan_state (cache c) None JSNumber.Infinity c) as Hs.
  destruct (evictLRU_scan clock (cache c) None JSNumber.Infinity c)
    as [[lk ms] c1]. simpl in Hs. subst c1.
  destruct lk as [k|]; [|now left].
  unfold truthy. destruct (String.eqb_spec k ""); simpl; [now left|].
  right. exists k. repeat split; trivial.
Qed.

Lemma accounted_evictLRU c : accounted c -> accounted (evictLRU clock c).
Proof.
  intros Hc. destruct (evictLRU_cases c) as [-> | (k & _ & _ & ->)].
  - now apply accounted_advance.
  - apply accounted_delete. now apply accounted_advance.
Qed.

Lemma evictLRU_fields c :
  let c' := evictLRU clock c in
  maxSize c' = maxSize c /\ defaultTTL c' = defaultTTL c /\
  cleanupTimer c' = cleanupTimer c /\ ttlByPattern c' = ttlByPattern c /\
  clockReads c' = (List.length (cache c) + clockReads c)%nat.
Proof.
  simpl. destruct (evictLRU_cases c) as [-> | (k & _ & _ & ->)].
  - repeat split.
  - destruct (delete_fields k (advance (List.length (cache c)) c))
      as (-> & -> & -> & -> & -> & _). repeat split.
Qed.

Lemma accounted_evict_times n c : accounted c -> accounted (evict_times clock n c).
Proof.
  revert c. induction n as [|n IH]; intros c Hc; simpl; trivial.
  apply IH. now apply accounted_evictLRU.
Qed.

(** The loop of [set], when it is left, has run its body some number of
    times and stopped at the first state that needs no eviction. *)
Lemma evict_while_spec fuel sz c c1 :
  evict_while clock fuel sz c = Some c1 ->
  exists n, (n <= fuel)%nat /\ c1 = evict_times clock n c /\
            must_evict sz c1 = false /\
            forall i, (i < n)%nat -> must_evict sz (evict_times clock i c) = true.
Proof.
  revert c. induction fuel as [|fuel IH]; intros c; simpl.
  - destruct (must_evict sz c) eqn:E; [discriminate|].
    intros [= <-]. exists 0%nat. repeat split; trivial. intros i Hi; lia.
  - destruct (must_evict sz c) eqn:E.
    + intros H. destruct (IH _ H) as (n & Hn & -> & Hstop & Hrun).
      exists (S n). repeat split; trivial; [lia|].
      intros [|i] Hi; simpl; trivial. apply Hrun. lia.
    + intros [= <-]. exists 0%nat. repeat split; trivial; [lia|]. intros i Hi; lia.
Qed.

Lemma accounted_evict_while fuel sz c c1 :
  accounted c -> evict_while clock fuel sz c = Some c1 -> accounted c1.
Proof.
  intros Hc H. destruct (evict_while_spec _ _ _ _ H) as (n & _ & -> & _).
  now apply accounted_evict_times.
Qed.

(** *** What [set] does after its loop *)

Lemma set_insert_eq key d sz c1 :
  let c2 := snd (delete key c1) in
  set_insert clock key d sz c1 =
    with_sizeUsed (sizeUsed c2 + sz)
      (with_cache
         (cache c2 ++ [(key, mkEntry d (clock (clockReads c1)) sz 0)])%list
         (advance 1 c2)).
Proof.
  simpl. unfold set_insert, JSMap.has.
  destruct (JSMap.get key (cache c1)) as [e|] eqn:E.
  - rewrite (delete_present _ _ _ E). simpl.
    rewrite JSMapFacts.set_absent by apply JSMapFacts.get_remove_same.
    reflexivity.
  - rewrite (delete_absent _ _ E). simpl.
    rewrite JSMapFacts.set_absent by trivial. reflexivity.
Qed.

Lemma accounted_set_insert key d sz c1 :
  0 <= sz -> accounted c1 -> accounted (set_insert clock key d sz c1).
Proof.
  intros Hsz Hc. rewrite set_insert_eq.
  pose proof (accounted_delete key c1 Hc) as (Hnd & Hpos & Hsum).
  destruct (delete_fields key c1) as (_ & _ & _ & _ & _ & Hcache).
  set (c2 := snd (delete key c1)) in *.
  assert (JSMap.get key (cache c2) = None) as Habs
    by (rewrite Hcache; apply JSMapFacts.get_remove_same).
  rewrite <- (JSMapFacts.set_absent key (mkEntry d (clock (clockReads c1)) sz 0)
                (cache c2) Habs).
  repeat split; simpl.
  - now apply JSMapFacts.NoDup_set.
  - now apply Forall_set.
  - rewrite total_size_set_absent by trivial. simpl. lia.
Qed.

Lemma accounted_set fuel key d ttl c c' :
  accounted c -> set JSON_stringify clock fuel key d ttl c = Some c' ->
  accounted c'.
Proof.
  unfold set. intros Hc.
  destruct (evict_while clock fuel (estimateSize JSON_stringify d) c)
    as [c1|] eqn:E; [|discriminate].
  intros [= <-]. apply accounted_set_insert.
  - apply estimateSize_nonneg.
  - eapply accounted_evict_while; eassumption.
Qed.

(** *** clear, the sweep, statistics, destroy *)

Lemma accounted_clear c : accounted (clear c).
Proof. repeat split; simpl; constructor. Qed.

Lemma accounted_delete_all keys c :
  accounted c ->
  accounted (fold_left (fun acc key => snd (delete key acc)) keys c).
Proof.
  revert c. induction keys as [|k keys IH]; intros c Hc; simpl; trivial.
  apply IH. now apply accounted_delete.
Qed.

Lemma accounted_cleanup c : accounted c -> accounted (cleanup clock c).
Proof.
  intros Hc. unfold cleanup. rewrite Date_now_eq.
  apply accounted_delete_all. now apply accounted_advance.
Qed.

Lemma getStats_state c : snd (getStats c) = c.
Proof. reflexivity. Qed.

Lemma accounted_new options : accounted (@new T options).
Proof. repeat split; simpl; constructor. Qed.

Lemma accounted_exec fuel op c c' :
  accounted c -> exec JSON_stringify clock fuel op c = Some c' -> accounted c'.
Proof.
  intros Hc. destruct op; simpl.
  - now apply accounted_set.
  - intros [= <-]. now apply accounted_get.
  - intros [= <-]. now apply accounted_delete.
  - intros [= <-]. apply accounted_clear.
  - now intros [= <-].
  - destruct (cleanupTimer c); intros [= <-]; trivial.
    now apply accounted_cleanup.
  - intros [= <-]. apply accounted_clear.
Qed.

Lemma accounted_reachable options c :
  reachable JSON_stringify clock options c -> accounted c.
Proof.
  induction 1 as [|c fuel op c' _ IH Hex].
  - apply accounted_new.
  - eapply accounted_exec; eassumption.
Qed.

(** *** The byte budget *)

Lemma size_of_resident key e c :
  accounted c -> JSMap.get key (cache c) = Some e -> 0 <= size e.
Proof.
  intros (_ & Hpos & _) H. apply JSMapFacts.get_some_in in H.
  rewrite Forall_forall in Hpos. apply (Hpos _ H).
Qed.

Lemma bounded_delete key c :
  accounted c -> bounded c -> bounded (snd (delete key c)).
Proof.
  intros Hc Hb. destruct (JSMap.get key (cache c)) as [e|] eqn:E.
  - rewrite (delete_present _ _ _ E). simpl.
    pose proof (size_of_resident _ _ _ Hc E).
    pose proof (JSMapFacts.length_remove key (cache c)).
    destruct Hb as [Hb|Hb]; [left|right]; simpl; lia.
  - now rewrite (delete_absent _ _ E).
Qed.

Lemma length_set_present key e e0 m :
  JSMap.get key m = Some e0 ->
  List.length (JSMap.set key e m) = List.length m.
Proof.
  intros H. rewrite <- (length_map fst (JSMap.set key e m)).
  change (List.map fst (JSMap.set key e m)) with (JSMap.keys (JSMap.set key e m)).
  rewrite (JSMapFacts.keys_set_present _ _ _ _ H).
  apply length_map.
Qed.

Lemma bounded_get key c :
  accounted c -> bounded c -> bounded (snd (get clock key c)).
Proof.
  intros Hc Hb. destruct (JSMap.get key (cache c)) as [e|] eqn:E.
  - destruct (Z.gtb_spec (clock (clockReads c) - timestamp e) (getTTLForKey c key)).
    + rewrite (get_expired _ _ _ E) by lia. simpl.
      now apply bounded_delete.
    + rewrite (get_fresh _ _ _ E) by lia. unfold bounded. simpl.
      rewrite (length_set_present _ _ _ _ E). exact Hb.
  - now rewrite (get_absent _ _ E).
Qed.

Lemma must_evict_false sz c :
  must_evict sz c = false ->
  sizeUsed c + sz <= maxSize c \/ cache c = [].
Proof.
  unfold must_evict, JSMap.size. intros H.
  apply andb_false_iff in H. destruct H as [H|H].
  - left. destruct (Z.gtb_spec (sizeUsed c + sz) (maxSize c)); [discriminate|lia].
  - right. destruct (cache c); trivial. simpl in H.
    destruct (Z.gtb_spec (Z.of_nat (S (List.length t))) 0); [discriminate|lia].
Qed.

Lemma sizeUsed_delete_le key c :
  accounted c -> sizeUsed (snd (delete key c)) <= sizeUsed c.
Proof.
  intros Hc. destruct (JSMap.get key (cache c)) as [e|] eqn:E.
  - rewrite (delete_present _ _ _ E). simpl.
    pose proof (size_of_resident _ _ _ Hc E). lia.
  - rewrite (delete_absent _ _ E). simpl. lia.
Qed.

(** After the loop, the new entry fits or is alone in the store. *)
Lemma set_insert_fits_or_alone key d sz c1 :
  accounted c1 -> must_evict sz c1 = false ->
  let c' := set_insert clock key d sz c1 in
  sizeUsed c' <= maxSize c' \/
  (cache c' = [(key, mkEntry d (clock (clockReads c1)) sz 0)] /\
   sizeUsed c' = sz /\ maxSize c' < sz).
Proof.
  intros Hc Hstop. cbv zeta. rewrite set_insert_eq.
  destruct (delete_fields key c1) as (Hmax & _ & _ & _ & _ & Hcache).
  pose proof (sizeUsed_delete_le key c1 Hc) as Hle.
  destruct (must_evict_false _ _ Hstop) as [Hfit|Hempty].
  - left. simpl. rewrite Hmax. lia.
  - destruct Hc as (_ & _ & Hsum).
    rewrite (delete_absent key c1) in * by (now rewrite Hempty).
    simpl. rewrite Hempty. rewrite Hempty in Hsum. simpl in Hsum.
    destruct (Z_le_gt_dec (sizeUsed c1 + sz) (maxSize c1)); [now left|].
    right. repeat split; lia.
Qed.

Lemma set_fits_or_alone fuel key d ttl c c' :
  accounted c -> set JSON_stringify clock fuel key d ttl c = Some c' ->
  sizeUsed c' <= maxSize c' \/
  (exists e, cache c' = [(key, e)] /\ data e = d /\
             size e = estimateSize JSON_stringify d /\
             sizeUsed c' = size e /\ maxSize c' < size e).
Proof.
  unfold set. intros Hc.
  destruct (evict_while clock fuel (estimateSize JSON_stringify d) c)
    as [c1|] eqn:E; [|discriminate].
  intros [= <-].
  destruct (evict_while_spec _ _ _ _ E) as (n & _ & Hc1 & Hstop & _).
  assert (accounted c1) as Hacc by (eapply accounted_evict_while; eassumption).
  destruct (set_insert_fits_or_alone key d _ c1 Hacc Hstop) as [H|(H1 & H2 & H3)].
  - now left.
  - right. eexists. split; [exact H1|]. simpl. repeat split; trivial.
Qed.

Lemma bounded_set fuel key d ttl c c' :
  accounted c -> set JSON_stringify clock fuel key d ttl c = Some c' ->
  bounded c'.
Proof.
  intros Hc H.
  destruct (set_fits_or_alone _ _ _ _ _ _ Hc H) as [Hfit|(e & Hcache & _)].
  - now left.
  - right. rewrite Hcache. simpl. lia.
Qed.

Lemma bounded_delete_all keys c :
  accounted c -> bounded c ->
  bounded (fold_left (fun acc key => snd (delete key acc)) keys c).
Proof.
  revert c. induction keys as [|k keys IH]; intros c Hc Hb; simpl; trivial.
  apply IH; [now apply accounted_delete | now apply bounded_delete].
Qed.

Lemma bounded_exec fuel op c c' :
  accounted c -> bounded c ->
  exec JSON_stringify clock fuel op c = Some c' -> bounded c'.
Proof.
  intros Hc Hb. destruct op; simpl.
  - now apply bounded_set.
  - intros [= <-]. now apply bounded_get.
  - intros [= <-]. now apply bounded_delete.
  - intros [= <-]. right. simpl. lia.
  - now intros [= <-].
  - destruct (cleanupTimer c); intros [= <-]; trivial.
    unfold cleanup. rewrite Date_now_eq. now apply bounded_delete_all.
  - intros [= <-]. right. simpl. lia.
Qed.

Lemma bounded_reachable options c :
  reachable JSON_stringify clock options c -> bounded c.
Proof.
  induction 1 as [|c fuel op c' Hr IH Hex].
  - right. simpl. lia.
  - eapply bounded_exec; try eassumption.
    eapply accounted_reachable; eassumption.
Qed.

(** *** The victim of an eviction *)

Lemma scan_score_advance c j e :
  scan_score clock (advance 1 c) j e = scan_score clock c (S j) e.
Proof. unfold scan_score. simpl. do 2 f_equal. lia. Qed.

Lemma scan_score_0 c e :
  scan_score clock c 0 e = score (clock (clockReads c)) e.
Proof. reflexivity. Qed.

(** Outcome of a scan entered with candidate [lk] and minimum [ms]:
    either nothing scored below [ms], or the candidate is the first entry
    of least score. *)
Lemma evictLRU_scan_spec es lk ms c :
  let r := fst (evictLRU_scan clock es lk ms c) in
  (r = (lk, ms) /\
   forall j k e, nth_error es j = Some (k, e) ->
                 JSNumber.ltb (scan_score clock c j e) ms = false)
  \/
  (exists i k e,
      nth_error es i = Some (k, e) /\
      r = (Some k, scan_score clock c i e) /\
      JSNumber.ltb (scan_score clock c i e) ms = true /\
      (forall j kj ej, nth_error es j = Some (kj, ej) ->
         JSNumber.ltb (scan_score clock c j ej) (scan_score clock c i e) = false) /\
      (forall j kj ej, (j < i)%nat -> nth_error es j = Some (kj, ej) ->
         JSNumber.leb (scan_score clock c j ej) (scan_score clock c i e) = false)).
Proof.
  revert lk ms c. induction es as [|[k0 e0] es IH]; intros lk ms c; cbv zeta.
  - left. split; trivial. intros [|j] k e H; discriminate H.
  - rewrite evictLRU_scan_cons. rewrite <- scan_score_0.
    set (s0 := scan_score clock c 0 e0).
    destruct (JSNumber.ltb s0 ms) eqn:E0.
    + destruct (IH (Some k0) s0 (advance 1 c))
        as [(Hr & Hall) | (i & k & e & Hi & Hr & Hlt & Hall & Hbefore)].
      * right. exists 0%nat, k0, e0. fold s0. repeat split; trivial.
        -- intros [|j] kj ej Hj; simpl in Hj.
           ++ injection Hj as <- <-. apply JSNumberFacts.ltb_irrefl.
           ++ rewrite <- scan_score_advance. eapply Hall; eassumption.
        -- intros j kj ej Hj; lia.
      * rewrite scan_score_advance in Hr, Hlt.
        right. exists (S i), k, e. repeat split; trivial.
        -- eapply JSNumberFacts.ltb_trans; eassumption.
        -- intros [|j] kj ej Hj; simpl in Hj.
           ++ injection Hj as <- <-. fold s0.
              apply JSNumberFacts.not_leb_not_ltb.
              now apply JSNumberFacts.ltb_not_leb.
           ++ rewrite <- !scan_score_advance. eapply Hall; eassumption.
        -- intros [|j] kj ej Hlt' Hj; simpl in Hj.
           ++ injection Hj as <- <-. fold s0.
              now apply JSNumberFacts.ltb_not_leb.
           ++ rewrite <- !scan_score_advance.
              eapply Hbefore; [|eassumption]. lia.
    + destruct (IH lk ms (advance 1 c))
        as [(Hr & Hall) | (i & k & e & Hi & Hr & Hlt & Hall & Hbefore)].
      * left. split; trivial.
        intros [|j] kj ej Hj; simpl in Hj.
        -- now injection Hj as <- <-.
        -- rewrite <- scan_score_advance. eapply Hall; eassumption.
      * rewrite scan_score_advance in Hr, Hlt.
        assert (JSNumber.leb s0 (scan_score clock c (S i) e) = false) as H0
          by (eapply JSNumberFacts.not_leb_below; eassumption).
        right. exists (S i), k, e. repeat split; trivial.
        -- intros [|j] kj ej Hj; simpl in Hj.
           ++ injection Hj as <- <-. fold s0.
              now apply JSNumberFacts.not_leb_not_ltb.
           ++ rewrite <- !scan_score_advance. eapply Hall; eassumption.
        -- intros [|j] kj ej Hlt' Hj; simpl in Hj.
           ++ now injection Hj as <- <-.
           ++ rewrite <- !scan_score_advance.
              eapply Hbefore; [|eassumption]. lia.
Qed.

Lemma get_nth_error i k e m :
  NoDup (JSMap.keys m) -> nth_error m i = Some (k, e) -> JSMap.get k m = Some e.
Proof.
  revert i. induction m as [|[k0 e0] m IH]; intros [|i] Hnd H; simpl in *;
    try discriminate.
  - injection H as -> ->. now rewrite String.eqb_refl.
  - inversion Hnd as [|? ? Hn Hd]; subst.
    destruct (String.eqb_spec k0 k).
    + subst. exfalso. apply Hn.
      apply nth_error_In in H. change k with (fst (k, e)). now apply in_map.
    + eauto.
Qed.

(** *** Runs *)

Lemma run_reachable options fuel ops c c' :
  reachable JSON_stringify clock options c ->
  run JSON_stringify clock fuel ops c = Some c' ->
  reachable JSON_stringify clock options c'.
Proof.
  revert c. induction ops as [|op ops IH]; intros c Hc; simpl.
  - now intros [= <-].
  - destruct (exec JSON_stringify clock fuel op c) as [c1|] eqn:E; [|discriminate].
    apply IH. econstructor; eassumption.
Qed.

(** *** The loop of [set] *)

Lemma evict_while_done fuel sz c :
  must_evict sz c = false -> evict_while clock fuel sz c = Some c.
Proof. intros H. destruct fuel; simpl; now rewrite H. Qed.

Lemma set_without_eviction fuel key d ttl c :
  must_evict (estimateSize JSON_stringify d) c = false ->
  set JSON_stringify clock fuel key d ttl c =
    Some (set_insert clock key d (estimateSize JSON_stringify d) c).
Proof. intros H. unfold set. now rewrite evict_while_done. Qed.

(** An entry stored under the empty key is never deleted by [evictLRU]:
    the selected key is tested for truthiness. *)
Lemma evictLRU_empty_key e c :
  cache c = [("", e)] -> evictLRU clock c = advance 1 c.
Proof.
  intros H. unfold evictLRU, JSMap.entries. rewrite H.
  rewrite evictLRU_scan_cons. simpl.
  now destruct (JSNumber.ltb _ JSNumber.Infinity).
Qed.

Lemma evict_while_empty_key fuel sz e c :
  cache c = [("", e)] -> sizeUsed c + sz > maxSize c ->
  evict_while clock fuel sz c = None.
Proof.
  revert c. induction fuel as [|fuel IH]; intros c Hc Hbig;
    assert (must_evict sz c = true) as Hm
      by (unfold must_evict, JSMap.size; rewrite Hc; simpl;
          apply andb_true_iff; split; [apply Z.gtb_gt; lia | reflexivity]);
    simpl; rewrite Hm; trivial.
  rewrite (evictLRU_empty_key e c Hc). now apply IH.
Qed.

(** *** The victim of [evictLRU] *)

Lemma evictLRU_victim c :
  NoDup (JSMap.keys (cache c)) ->
  cache (evictLRU clock c) <> cache c ->
  exists i k e,
    nth_error (cache c) i = Some (k, e) /\
    cache (evictLRU clock c) = JSMap.remove k (cache c) /\
    sizeUsed (evictLRU clock c) = sizeUsed c - size e /\
    (forall j kj ej, nth_error (cache c) j = Some (kj, ej) ->
       JSNumber.ltb (scan_score clock c j ej) (scan_score clock c i e) = false) /\
    (forall j kj ej, (j < i)%nat -> nth_error (cache c) j = Some (kj, ej) ->
       JSNumber.leb (scan_score clock c j ej) (scan_score clock c i e) = false).
Proof.
  intros Hnd Hneq.
  destruct (evictLRU_cases c) as [Hsame | (k & Hk & Hscan & Hdel)].
  - exfalso. apply Hneq. now rewrite Hsame.
  - destruct (evictLRU_scan_spec (cache c) None JSNumber.Infinity c)
      as [(Hr & _) | (i & k' & e & Hi & Hr & _ & Hall & Hbefore)];
      cbv zeta in Hr; rewrite Hr in Hscan; simpl in Hscan; [discriminate|].
    injection Hscan as ->.
    pose proof (get_nth_error _ _ _ _ Hnd Hi) as Hget.
    exists i, k, e. rewrite Hdel.
    rewrite (delete_present k e (advance (List.length (cache c)) c) Hget).
    simpl. repeat split; trivial.
Qed.

(** *** The TTL resolver *)

Lemma getTTLForKey_scan_first_match rules dflt key :
  (exists before p after,
      rules = (before ++ (p, getTTLForKey_scan rules dflt key) :: after)%list /\
      RegExp.test p key = true /\
      Forall (fun rule => RegExp.test (fst rule) key = false) before)
  \/
  (Forall (fun rule => RegExp.test (fst rule) key = false) rules /\
   getTTLForKey_scan rules dflt key = dflt).
Proof.
  induction rules as [|[p ttl] rules IH]; simpl.
  - right. split; [constructor | reflexivity].
  - destruct (RegExp.test p key) eqn:E.
    + left. exists [], p, rules. repeat split; trivial.
    + destruct IH as [(before & q & after & Hr & Hq & Hb) | (Hall & Hd)].
      * left. exists ((p, ttl) :: before), q, after. repeat split; trivial.
        -- simpl. now rewrite <- Hr.
        -- constructor; trivial.
      * right. split; trivial. constructor; trivial.
Qed.

(** *** The sweep *)

Lemma cleanup_collect_In now c es key :
  In key (cleanup_collect now c es) <->
  exists e, In (key, e) es /\ now - timestamp e > getTTLForKey c key.
Proof.
  induction es as [|[k e] es IH]; simpl.
  - split; [intros [] | intros (e & [] & _)].
  - destruct (Z.gtb_spec (now - timestamp e) (getTTLForKey c k)); simpl;
      rewrite IH; split.
    + intros [<- | (e' & Hin & Hexp)]; [exists e | exists e']; split; auto; lia.
    + intros (e' & [[= <- <-] | Hin] & Hexp); [now left | right; eauto].
    + intros (e' & Hin & Hexp). eauto.
    + intros (e' & [[= <- <-] | Hin] & Hexp); [lia | eauto].
Qed.

(** *** The entry stored by [set] *)

Lemma set_insert_resident key d sz c1 :
  let c' := set_insert clock key d sz c1 in
  JSMap.get key (cache c') = Some (mkEntry d (clock (clockReads c1)) sz 0) /\
  clockReads c' = S (clockReads c1).
Proof.
  cbv zeta. rewrite set_insert_eq.
  destruct (delete_fields key c1) as (_ & _ & _ & _ & Hreads & Hcache).
  simpl. rewrite Hreads. split; trivial.
  rewrite <- JSMapFacts.set_absent
    by (rewrite Hcache; apply JSMapFacts.get_remove_same).
  apply JSMapFacts.get_set_same.
Qed.

Lemma set_insert_fields key d sz c1 :
  let c' := set_insert clock key d sz c1 in
  maxSize c' = maxSize c1 /\ defaultTTL c' = defaultTTL c1 /\
  ttlByPattern c' = ttlByPattern c1.
Proof.
  cbv zeta. rewrite set_insert_eq.
  destruct (delete_fields key c1) as (H1 & H2 & _ & H3 & _ & _).
  simpl. now rewrite H1, H2, H3.
Qed.

(** *** What the sweep leaves *)

Lemma delete_all_cache keys c :
  cache (fold_left (fun acc key => snd (delete key acc)) keys c) =
  fold_left (fun m key => JSMap.remove key m) keys (cache c).
Proof.
  revert c. induction keys as [|k keys IH]; intros c; simpl; trivial.
  rewrite IH. f_equal. apply (delete_fields k c).
Qed.

Lemma remove_all_filter keys m :
  fold_left (fun m key => JSMap.remove key m) keys m =
  filter (fun kv => negb (existsb (String.eqb (fst kv)) keys)) m.
Proof.
  revert m. induction keys as [|k keys IH]; intros m; simpl.
  - induction m as [|kv m IHm]; simpl; congruence.
  - rewrite IH. unfold JSMap.remove.
    induction m as [|kv m IHm]; simpl; trivial.
    destruct (String.eqb (fst kv) k); simpl; rewrite IHm; trivial.
Qed.

Lemma resident_unique k e e' m :
  NoDup (JSMap.keys m) -> In (k, e) m -> In (k, e') m -> e = e'.
Proof.
  intros Hnd H H'.
  apply In_nth_error in H. destruct H as (i & Hi).
  apply In_nth_error in H'. destruct H' as (j & Hj).
  pose proof (get_nth_error _ _ _ _ Hnd Hi) as G.
  pose proof (get_nth_error _ _ _ _ Hnd Hj) as G'.
  congruence.
Qed.

Lemma cleanup_cache c :
  NoDup (JSMap.keys (cache c)) ->
  cache (cleanup clock c) =
  filter (fun kv => negb (clock (clockReads c) - timestamp (snd kv)
                            >? getTTLForKey c (fst kv)))
         (cache c).
Proof.
  intros Hnd. unfold cleanup. rewrite Date_now_eq.
  rewrite delete_all_cache, remove_all_filter. simpl.
  apply filter_ext_in. intros [k e] Hin. simpl. f_equal.
  apply eq_true_iff_eq. rewrite existsb_exists. split.
  - intros (k' & Hk' & Heq). apply String.eqb_eq in Heq. subst k'.
    apply cleanup_collect_In in Hk'. destruct Hk' as (e' & Hin' & Hexp).
    rewrite (resident_unique _ _ _ _ Hnd Hin Hin').
    apply Z.gtb_gt. exact Hexp.
  - intros Hexp. exists k. split; [|apply String.eqb_refl].
    apply cleanup_collect_In. exists e. split; trivial.
    apply Z.gtb_gt in Hexp. exact Hexp.
Qed.

(** *** The timer *)

Lemma set_insert_timer key d sz c1 :
  cleanupTimer (set_insert clock key d sz c1) = cleanupTimer c1.
Proof.
  rewrite set_insert_eq.
  destruct (delete_fields key c1) as (_ & _ & H & _). simpl. exact H.
Qed.

Lemma evict_times_timer n c :
  cleanupTimer (evict_times clock n c) = cleanupTimer c.
Proof.
  revert c. induction n as [|n IH]; intros c; simpl; trivial.
  rewrite IH. apply (evictLRU_fields c).
Qed.

Lemma delete_all_timer keys c :
  cleanupTimer (fold_left (fun acc key => snd (delete key acc)) keys c) =
  cleanupTimer c.
Proof.
  revert c. induction keys as [|k keys IH]; intros c; simpl; trivial.
  rewrite IH. apply (delete_fields k c).
Qed.

Lemma exec_timer_off fuel op c c' :
  cleanupTimer c = None ->
  exec JSON_stringify clock fuel op c = Some c' -> cleanupTimer c' = None.
Proof.
  intros Hoff. destruct op; simpl.
  - unfold set.
    destruct (evict_while clock fuel (estimateSize JSON_stringify d) c)
      as [c1|] eqn:E; [|discriminate].
    intros [= <-]. rewrite set_insert_timer.
    destruct (evict_while_spec _ _ _ _ E) as (n & _ & -> & _).
    now rewrite evict_times_timer.
  - intros [= <-]. destruct (JSMap.get key (cache c)) as [e|] eqn:E.
    + destruct (Z.gtb_spec (clock (clockReads c) - timestamp e) (getTTLForKey c key)).
      * rewrite (get_expired _ _ _ E) by lia. simpl.
        destruct (delete_fields key (advance 1 c)) as (_ & _ & Ht & _).
        now rewrite Ht.
      * now rewrite (get_fresh _ _ _ E) by lia.
    + now rewrite (get_absent _ _ E).
  - intros [= <-]. destruct (delete_fields key c) as (_ & _ & Ht & _).
    now rewrite Ht.
  - now intros [= <-].
  - now intros [= <-].
  - rewrite Hoff. now intros [= <-].
  - now intros [= <-].
Qed.

(** *** Positions in a store with distinct keys *)

Lemma position_unique i j k e e' m :
  NoDup (JSMap.keys m) ->
  nth_error m i = Some (k, e) -> nth_error m j = Some (k, e') -> i = j.
Proof.
  intros Hnd Hi Hj.
  assert (nth_error (JSMap.keys m) i = Some k) as Ki
    by (unfold JSMap.keys; now rewrite nth_error_map, Hi).
  assert (nth_error (JSMap.keys m) j = Some k) as Kj
    by (unfold JSMap.keys; now rewrite nth_error_map, Hj).
  rewrite NoDup_nth_error in Hnd. apply Hnd; [|congruence].
  apply nth_error_Some. congruence.
Qed.

Lemma length_remove_resident i k e m :
  NoDup (JSMap.keys m) -> nth_error m i = Some (k, e) ->
  S (List.length (JSMap.remove k m)) = List.length m.
Proof.
  revert i. induction m as [|[k0 e0] m IH]; intros [|i] Hnd H; simpl in *;
    try discriminate; inversion Hnd as [|? ? Hn Hd]; subst.
  - injection H as -> ->. rewrite String.eqb_refl. simpl.
    now rewrite JSMapFacts.remove_absent by (now apply JSMapFacts.get_none_notin).
  - destruct (String.eqb_spec k0 k); simpl.
    + subst. exfalso. apply Hn. apply nth_error_In in H.
      change k with (fst (k, e)). now apply in_map.
    + f_equal. eauto.
Qed.

Lemma score_of_new_unread now e :
  hits e = 0 -> now = timestamp e -> score now e = JSNumber.NaN.
Proof. intros Hh ->. unfold score. now rewrite Hh, Z.sub_diag. Qed.

(** *** Statistics *)

(** Outcome of the scan of [getOldestEntry] entered with candidate [ok]
    and oldest time [ot]. *)
Lemma getOldestEntry_scan_spec es ok ot :
  let r := getOldestEntry_scan es ok ot in
  (r = ok /\
   forall j kj ej, nth_error es j = Some (kj, ej) ->
                   exists t, ot = Some t /\ t <= timestamp ej)
  \/
  (exists i k e,
      nth_error es i = Some (k, e) /\ r = Some k /\
      (forall t, ot = Some t -> timestamp e < t) /\
      (forall j kj ej, nth_error es j = Some (kj, ej) ->
                       timestamp e <= timestamp ej) /\
      (forall j kj ej, (j < i)%nat -> nth_error es j = Some (kj, ej) ->
                       timestamp e < timestamp ej)).
Proof.
  revert ok ot. induction es as [|[k0 e0] es IH]; intros ok ot; cbv zeta.
  - left. split; trivial. intros [|j] kj ej H; discriminate H.
  - cbn [getOldestEntry_scan].
    assert ((match ot with None => true | Some t => timestamp e0 <? t end) = true
            /\ (forall t, ot = Some t -> timestamp e0 < t)
            \/ (match ot with None => true | Some t => timestamp e0 <? t end) = false
               /\ exists t, ot = Some t /\ t <= timestamp e0) as [(-> & Hy) | (-> & t & -> & Ht)].
    { destruct ot as [t|].
      - destruct (Z.ltb_spec (timestamp e0) t).
        + left. split; trivial. now intros t' [= <-].
        + right. split; trivial. now exists t.
      - left. split; trivial. discriminate. }
    + destruct (IH (Some k0) (Some (timestamp e0)))
        as [(Hr & Hall) | (i & k & e & Hi & Hr & Hlt & Hall & Hbefore)].
      * right. exists 0%nat, k0, e0. repeat split; trivial.
        -- intros [|j] kj ej Hj; simpl in Hj.
           ++ injection Hj as <- <-. lia.
           ++ destruct (Hall _ _ _ Hj) as (t & [= <-] & Ht). exact Ht.
        -- intros j kj ej Hj; lia.
      * pose proof (Hlt _ eq_refl) as Hlt0.
        right. exists (S i), k, e. repeat split; trivial.
        -- intros t Ht. specialize (Hy _ Ht). lia.
        -- intros [|j] kj ej Hj; simpl in Hj.
           ++ injection Hj as <- <-. lia.
           ++ eapply Hall; eassumption.
        -- intros [|j] kj ej Hj' Hj; simpl in Hj.
           ++ now injection Hj as <- <-.
           ++ eapply Hbefore; [|eassumption]. lia.
    + destruct (IH ok (Some t))
        as [(Hr & Hall) | (i & k & e & Hi & Hr & Hlt & Hall & Hbefore)].
      * left. split; trivial.
        intros [|j] kj ej Hj; simpl in Hj.
        -- injection Hj as <- <-. now exists t.
        -- eapply Hall; eassumption.
      * pose proof (Hlt _ eq_refl) as Hlt0.
        right. exists (S i), k, e. repeat split; trivial.
        -- intros [|j] kj ej Hj; simpl in Hj.
           ++ injection Hj as <- <-. lia.
           ++ eapply Hall; eassumption.
        -- intros [|j] kj ej Hj' Hj; simpl in Hj.
           ++ injection Hj as <- <-. lia.
           ++ eapply Hbefore; [|eassumption]. lia.
Qed.

Lemma sort_insert_perm {A : Type} (cmp : A -> A -> Z) x l :
  Permutation (sort_insert cmp x l) (x :: l).
Proof.
  induction l as [|y l IH]; simpl; [reflexivity|].
  destruct (cmp x y <=? 0); [reflexivity|].
  rewrite IH. apply perm_swap.
Qed.

Lemma sort_perm {A : Type} (cmp : A -> A -> Z) l : Permutation (sort cmp l) l.
Proof.
  induction l as [|x l IH]; simpl; [reflexivity|].
  unfold sort in *. simpl. rewrite sort_insert_perm. now constructor.
Qed.

Lemma sort_insert_sorted {A : Type} (f : A -> Z) x l :
  StronglySorted (fun a b => f b <= f a) l ->
  StronglySorted (fun a b => f b <= f a) (sort_insert (fun a b => f b - f a) x l).
Proof.
  induction 1 as [|y l Hs IH Hy]; simpl.
  - constructor; constructor.
  - destruct (Z.leb_spec (f y - f x) 0).
    + constructor; [now constructor|].
      constructor; [lia|].
      rewrite Forall_forall in *. intros z Hz. specialize (Hy z Hz). lia.
    + constructor; trivial.
      rewrite Forall_forall in *. intros z Hz.
      apply (Permutation_in _ (sort_insert_perm _ x l)) in Hz.
      destruct Hz as [<- | Hz]; [lia | auto].
Qed.

Lemma sort_sorted {A : Type} (f : A -> Z) l :
  StronglySorted (fun a b => f b <= f a) (sort (fun a b => f b - f a) l).
Proof.
  induction l as [|x l IH]; simpl; [constructor|].
  now apply sort_insert_sorted.
Qed.

(** *** Scores of entries of non-zero age *)

(** With an age other than 0 and numbers in the safe range, the score is
    an ordinary double: a zero for an entry never read, a finite non-zero
    double otherwise, with the sign of the age. *)
Lemma score_ordinary now e :
  now - timestamp e <> 0 -> Z.abs (now - timestamp e) < 2 ^ 53 ->
  0 <= hits e < 2 ^ 53 ->
  (hits e = 0 /\ score now e = S754_zero (now - timestamp e <? 0)) \/
  (0 < hits e /\
   exists sig ex, score now e = S754_finite (now - timestamp e <? 0) sig ex).
Proof.
  intros Hage Hrange Hhits. unfold score.
  destruct (DoubleFacts.of_Z_nonzero _ Hage Hrange) as (ma & ea & -> & Hma & Hea).
  change (JSNumber.of_Z 1000) with (S754_finite false 8796093022208000 (-43)).
  destruct (DoubleFacts.div_normal (now - timestamp e <? 0) ma ea
              false 8796093022208000 (-43) Hma eq_refl)
    as (my & ey & -> & Hmy & Hey); [lia|].
  rewrite xorb_false_r.
  destruct (Z.eq_dec (hits e) 0) as [H0|H0].
  - left. split; trivial. rewrite H0. reflexivity.
  - right. split; [lia|].
    destruct (DoubleFacts.of_Z_nonzero (hits e) H0) as (mh & eh & -> & Hmh & Heh);
      [lia|].
    replace (hits e <? 0) with false by (symmetry; apply Z.ltb_ge; lia).
    destruct (DoubleFacts.div_normal false mh eh (now - timestamp e <? 0) my ey
                Hmh Hmy)
      as (sig & ex & -> & _ & _); [lia|].
    exists sig, ex. reflexivity.
Qed.

Lemma score_below_Infinity now e :
  now - timestamp e <> 0 -> Z.abs (now - timestamp e) < 2 ^ 53 ->
  0 <= hits e < 2 ^ 53 ->
  JSNumber.ltb (score now e) JSNumber.Infinity = true.
Proof.
  intros Hage Hrange Hhits.
  destruct (score_ordinary now e Hage Hrange Hhits)
    as [(_ & ->) | (_ & sig & ex & ->)]; reflexivity.
Qed.

(** *** Eviction when every entry has aged *)

Lemma evictLRU_selected c k :
  fst (fst (evictLRU_scan clock (cache c) None JSNumber.Infinity c)) = Some k ->
  k <> "" ->
  evictLRU clock c = snd (delete k (advance (List.length (cache c)) c)).
Proof.
  intros Hsel Hk. unfold evictLRU, JSMap.entries.
  pose proof (evictLRU_scan_state (cache c) None JSNumber.Infinity c) as Hs.
  destruct (evictLRU_scan clock (cache c) None JSNumber.Infinity c)
    as [[lk ms] c1]. simpl in Hs, Hsel. subst c1 lk.
  unfold truthy. destruct (String.eqb_spec k ""); [contradiction | reflexivity].
Qed.

Lemma aged_score c horizon j k e :
  Conditions.hits_in_range c -> Conditions.aged clock c horizon ->
  (List.length (cache c) + clockReads c <= horizon)%nat ->
  nth_error (cache c) j = Some (k, e) ->
  (hits e = 0 /\ scan_score clock c j e = S754_zero false) \/
  (0 < hits e /\ exists sig ex, scan_score clock c j e = S754_finite false sig ex).
Proof.
  intros Hh Ha Hz Hj.
  assert (In (k, e) (cache c)) as Hin by (eapply nth_error_In; eassumption).
  assert (j < List.length (cache c))%nat as Hlt
    by (apply nth_error_Some; congruence).
  pose proof (Ha k e (j + clockReads c)%nat Hin ltac:(lia)) as Hage.
  unfold Conditions.hits_in_range in Hh. rewrite Forall_forall in Hh.
  pose proof (Hh _ Hin) as Hhits. simpl in Hhits.
  unfold scan_score.
  destruct (score_ordinary (clock (j + clockReads c)) e) as [H|H];
    try lia.
  - left. replace (clock (j + clockReads c) - timestamp e <? 0) with false in H
      by (symmetry; apply Z.ltb_ge; lia). exact H.
  - right. replace (clock (j + clockReads c) - timestamp e <? 0) with false in H
      by (symmetry; apply Z.ltb_ge; lia). exact H.
Qed.

(** On a non-empty store whose entries have aged, the scan selects the
    first entry of least score. *)
Lemma aged_scan_selects c horizon :
  cache c <> [] ->
  Conditions.hits_in_range c -> Conditions.aged clock c horizon ->
  (List.length (cache c) + clockReads c <= horizon)%nat ->
  exists i k e,
    nth_error (cache c) i = Some (k, e) /\
    fst (fst (evictLRU_scan clock (cache c) None JSNumber.Infinity c)) = Some k /\
    (forall j kj ej, nth_error (cache c) j = Some (kj, ej) ->
       JSNumber.ltb (scan_score clock c j ej) (scan_score clock c i e) = false) /\
    (forall j kj ej, (j < i)%nat -> nth_error (cache c) j = Some (kj, ej) ->
       JSNumber.leb (scan_score clock c j ej) (scan_score clock c i e) = false).
Proof.
  intros Hne Hh Ha Hz.
  destruct (evictLRU_scan_spec (cache c) None JSNumber.Infinity c)
    as [(_ & Hall) | (i & k & e & Hi & Hr & _ & Hall & Hbefore)].
  - exfalso. destruct (cache c) as [|[k0 e0] rest] eqn:Ec; [congruence|].
    specialize (Hall 0%nat k0 e0 eq_refl).
    rewrite <- Ec in *.
    assert (nth_error (cache c) 0 = Some (k0, e0)) as H0 by (now rewrite Ec).
    destruct (aged_score c horizon 0 k0 e0 Hh Ha Hz H0)
      as [(_ & E) | (_ & sig & ex & E)]; rewrite E in Hall; discriminate Hall.
  - exists i, k, e. cbv zeta in Hr. rewrite Hr. repeat split; trivial.
Qed.

Lemma first_unread_spec (es : list (string * CacheEntry T)) k :
  Conditions.first_unread es = Some k ->
  exists j e, nth_error es j = Some (k, e) /\ hits e = 0 /\
              forall j' k' e', (j' < j)%nat -> nth_error es j' = Some (k', e') ->
                               hits e' <> 0.
Proof.
  induction es as [|[k0 e0] es IH]; simpl; [discriminate|].
  destruct (Z.eqb_spec (hits e0) 0) as [H0|H0].
  - intros [= <-]. exists 0%nat, e0. repeat split; trivial. intros j' k' e' Hj; lia.
  - intros H. destruct (IH H) as (j & e & Hj & He & Hbefore).
    exists (S j), e. repeat split; trivial.
    intros [|j'] k' e' Hlt Hn; simpl in Hn.
    + now injection Hn as <- <-.
    + eapply Hbefore; [|eassumption]. lia.
Qed.

Lemma evictLRU_first_unread c horizon k :
  NoDup (JSMap.keys (cache c)) ->
  Conditions.hits_in_range c -> Conditions.aged clock c horizon ->
  (List.length (cache c) + clockReads c <= horizon)%nat ->
  Conditions.first_unread (cache c) = Some k ->
  fst (fst (evictLRU_scan clock (cache c) None JSNumber.Infinity c)) = Some k.
Proof.
  intros Hnd Hh Ha Hz Hfirst.
  destruct (first_unread_spec _ _ Hfirst) as (j0 & e0 & Hj0 & Hhits0 & Hread).
  assert (cache c <> []) as Hne by (intros E; rewrite E in Hj0; destruct j0; discriminate).
  destruct (aged_scan_selects c horizon Hne Hh Ha Hz)
    as (i & kv & ev & Hi & Hsel & Hall & Hbefore).
  rewrite Hsel. f_equal.
  destruct (aged_score c horizon j0 k e0 Hh Ha Hz Hj0) as [(_ & S0) | (Hpos & _)];
    [|lia].
  pose proof (Hall _ _ _ Hj0) as Hnot. rewrite S0 in Hnot.
  destruct (aged_score c horizon i kv ev Hh Ha Hz Hi)
    as [(Hhv & Sv) | (_ & sig & ex & Sv)];
    rewrite Sv in Hnot; [|discriminate Hnot].
  destruct (Nat.lt_trichotomy i j0) as [Hlt | [Heq | Hgt]].
  - exfalso. now apply (Hread _ _ _ Hlt Hi).
  - subst i. congruence.
  - exfalso. pose proof (Hbefore _ _ _ Hgt Hj0) as Hb.
    rewrite S0, Sv in Hb. discriminate Hb.
Qed.

(** The loop of [set] on a store whose keys are not empty and whose
    entries have aged: every iteration removes one entry, so as many
    iterations as there are entries suffice. *)
Lemma evict_while_terminates n sz c :
  List.length (cache c) = n ->
  NoDup (JSMap.keys (cache c)) ->
  Conditions.keys_nonempty c -> Conditions.hits_in_range c ->
  Conditions.aged clock c (clockReads c + n * n) ->
  exists c', evict_while clock n sz c = Some c'.
Proof.
  revert c. induction n as [|n IH]; intros c Hlen Hnd Hkeys Hh Ha.
  - exists c. apply evict_while_done. unfold must_evict, JSMap.size.
    rewrite Hlen. apply andb_false_r.
  - cbn [evict_while]. destruct (must_evict sz c) eqn:Em; [|eauto].
    assert (cache c <> []) as Hne by (intros E; rewrite E in Hlen; discriminate).
    destruct (aged_scan_selects c (clockReads c + S n * S n) Hne Hh Ha)
      as (i & k & e & Hi & Hsel & _); [lia|].
    assert (In (k, e) (cache c)) as Hin by (eapply nth_error_In; eassumption).
    assert (k <> "") as Hk.
    { unfold Conditions.keys_nonempty in Hkeys. rewrite Forall_forall in Hkeys.
      apply (Hkeys _ Hin). }
    pose proof (evictLRU_selected c k Hsel Hk) as He.
    destruct (delete_fields k (advance (List.length (cache c)) c))
      as (_ & _ & _ & _ & Hreads & Hcache).
    rewrite <- He in Hreads, Hcache. simpl in Hreads, Hcache.
    apply IH.
    + rewrite Hcache.
      pose proof (length_remove_resident i k e (cache c) Hnd Hi). lia.
    + rewrite Hcache. now apply JSMapFacts.NoDup_remove.
    + unfold Conditions.keys_nonempty. rewrite Hcache. now apply Forall_remove.
    + unfold Conditions.hits_in_range. rewrite Hcache. now apply Forall_remove.
    + intros k' e' m Hin' Hm. rewrite Hcache in Hin'. rewrite Hreads in Hm.
      apply filter_In in Hin'. destruct Hin' as [Hin' _].
      apply (Ha k' e' m Hin'). rewrite Hlen in Hm. lia.
Qed.

(** *** The configuration is never written *)

Lemma evict_times_fields n c :
  let c' := evict_times clock n c in
  maxSize c' = maxSize c /\ defaultTTL c' = defaultTTL c /\
  ttlByPattern c' = ttlByPattern c.
Proof.
  revert c. induction n as [|n IH]; intros c; simpl; [repeat split|].
  destruct (IH (evictLRU clock c)) as (-> & -> & ->).
  destruct (evictLRU_fields c) as (-> & -> & _ & -> & _). repeat split.
Qed.

Lemma delete_all_fields keys c :
  let c' := fold_left (fun acc key => snd (delete key acc)) keys c in
  maxSize c' = maxSize c /\ defaultTTL c' = defaultTTL c /\
  ttlByPattern c' = ttlByPattern c /\ clockReads c' = clockReads c.
Proof.
  revert c. induction keys as [|k keys IH]; intros c; simpl; [repeat split|].
  destruct (IH (snd (delete k c))) as (-> & -> & -> & ->).
  destruct (delete_fields k c) as (-> & -> & _ & -> & -> & _). repeat split.
Qed.

Lemma exec_fields fuel op c c' :
  exec JSON_stringify clock fuel op c = Some c' ->
  maxSize c' = maxSize c /\ defaultTTL c' = defaultTTL c /\
  ttlByPattern c' = ttlByPattern c.
Proof.
  destruct op; simpl.
  - unfold set.
    destruct (evict_while clock fuel (estimateSize JSON_stringify d) c)
      as [c1|] eqn:E; [|discriminate].
    intros [= <-].
    destruct (set_insert_fields key d (estimateSize JSON_stringify d) c1)
      as (-> & -> & ->).
    destruct (evict_while_spec _ _ _ _ E) as (n & _ & -> & _).
    apply evict_times_fields.
  - intros [= <-]. destruct (JSMap.get key (cache c)) as [e|] eqn:E.
    + destruct (Z.gtb_spec (clock (clockReads c) - timestamp e) (getTTLForKey c key)).
      * rewrite (get_expired _ _ _ E) by lia. simpl.
        destruct (delete_fields key (advance 1 c)) as (-> & -> & _ & -> & _).
        repeat split.
      * rewrite (get_fresh _ _ _ E) by lia. repeat split.
    + rewrite (get_absent _ _ E). repeat split.
  - intros [= <-]. destruct (delete_fields key c) as (-> & -> & _ & -> & _).
    repeat split.
  - intros [= <-]. repeat split.
  - intros [= <-]. repeat split.
  - destruct (cleanupTimer c); intros [= <-]; [|repeat split].
    unfold cleanup. rewrite Date_now_eq.
    destruct (delete_all_fields
                (cleanup_collect (clock (clockReads c)) (advance 1 c)
                                 (JSMap.entries (cache (advance 1 c))))
                (advance 1 c)) as (-> & -> & -> & _).
    repeat split.
  - intros [= <-]. repeat split.
Qed.

(** *** What [set] leaves of the former store *)

Lemma without_nil (es : list (string * CacheEntry T)) :
  Conditions.without [] es = es.
Proof.
  unfold Conditions.without. induction es as [|kv es IH]; trivial.
  cbn [filter existsb negb]. now f_equal.
Qed.

Lemma without_cons k gone (es : list (string * CacheEntry T)) :
  Conditions.without gone (JSMap.remove k es) = Conditions.without (k :: gone) es.
Proof.
  unfold Conditions.without, JSMap.remove.
  induction es as [|kv es IH]; simpl; trivial.
  destruct (String.eqb (fst kv) k); simpl; rewrite IH; trivial.
Qed.

Lemma remove_without k gone (es : list (string * CacheEntry T)) :
  JSMap.remove k (Conditions.without gone es) = Conditions.without (k :: gone) es.
Proof.
  unfold Conditions.without, JSMap.remove.
  induction es as [|kv es IH]; simpl; trivial.
  destruct (String.eqb (fst kv) k) eqn:E; simpl.
  - destruct (existsb (String.eqb (fst kv)) gone); simpl; trivial.
    now rewrite E.
  - destruct (existsb (String.eqb (fst kv)) gone); simpl; trivial.
    rewrite E. simpl. now f_equal.
Qed.

Lemma evict_times_cache n c :
  exists gone, cache (evict_times clock n c) = Conditions.without gone (cache c).
Proof.
  revert c. induction n as [|n IH]; intros c; simpl.
  - exists []. now rewrite without_nil.
  - destruct (IH (evictLRU clock c)) as (gone & ->).
    destruct (evictLRU_cases c) as [-> | (k & _ & _ & ->)].
    + now exists gone.
    + destruct (delete_fields k (advance (List.length (cache c)) c))
        as (_ & _ & _ & _ & _ & ->). simpl.
      exists (k :: gone). apply without_cons.
Qed.

Lemma set_cache fuel key d ttl c c' :
  set JSON_stringify clock fuel key d ttl c = Some c' ->
  exists gone,
    cache c' =
      (Conditions.without (key :: gone) (cache c)
       ++ [(key, mkEntry d (clock (pred (clockReads c')))
                         (estimateSize JSON_stringify d) 0)])%list.
Proof.
  unfold set.
  destruct (evict_while clock fuel (estimateSize JSON_stringify d) c)
    as [c1|] eqn:E; [|discriminate].
  intros [= <-].
  destruct (evict_while_spec _ _ _ _ E) as (n & _ & Hc1 & _).
  destruct (evict_times_cache n c) as (gone & Hgone). rewrite <- Hc1 in Hgone.
  destruct (set_insert_resident key d (estimateSize JSON_stringify d) c1)
    as (_ & ->).
  rewrite set_insert_eq. simpl.
  destruct (delete_fields key c1) as (_ & _ & _ & _ & _ & ->).
  exists gone. now rewrite Hgone, remove_without.
Qed.

(** *** Insertion order and timestamps *)


Lemma Forall_timestamps_filter (P : Z -> Prop) f (es : list (string * CacheEntry T)) :
  Forall P (Conditions.timestamps es) ->
  Forall P (Conditions.timestamps (filter f es)).
Proof.
  induction es as [|kv es IH]; simpl; intros H; trivial.
  inversion H; subst. destruct (f kv); simpl; auto.
Qed.

Lemma by_timestamp_filter f (es : list (string * CacheEntry T)) :
  Conditions.by_timestamp es -> Conditions.by_timestamp (filter f es).
Proof.
  unfold Conditions.by_timestamp.
  induction es as [|kv es IH]; simpl; intros H; trivial.
  inversion H; subst. destruct (f kv); simpl; auto.
  constructor; auto. now apply Forall_timestamps_filter.
Qed.

Lemma timestamps_set_hit key e m :
  JSMap.get key m = Some e ->
  Conditions.timestamps (JSMap.set key (hit e) m) = Conditions.timestamps m.
Proof.
  induction m as [|[k0 e0] m IH]; simpl; [discriminate|].
  destruct (String.eqb k0 key); simpl.
  - now intros [= <-].
  - intros H. now rewrite IH.
Qed.

Lemma sorted_snoc l x :
  StronglySorted Z.le l -> Forall (fun t => t <= x) l ->
  StronglySorted Z.le (l ++ [x]).
Proof.
  induction 1 as [|t l Hs IH Ht]; simpl; intros Hx.
  - repeat constructor.
  - inversion Hx; subst. constructor; auto.
    apply Forall_app. split; trivial. now constructor.
Qed.

Lemma stamped_weaken c c' :
  (clockReads c <= clockReads c')%nat ->
  Forall (fun t => exists r, (r < clockReads c)%nat /\ t = clock r)
         (Conditions.timestamps (cache c')) ->
  Conditions.stamped clock c'.
Proof.
  intros Hle H. unfold Conditions.stamped. rewrite Forall_forall in *.
  intros t Ht. destruct (H t Ht) as (r & Hr & ->). exists r. split; [lia | trivial].
Qed.

Lemma ordered_advance n c : Conditions.ordered clock c -> Conditions.ordered clock (advance n c).
Proof.
  intros (Hs & Ho). split; trivial.
  apply (stamped_weaken c); [simpl; lia | exact Hs].
Qed.

Lemma ordered_delete key c : Conditions.ordered clock c -> Conditions.ordered clock (snd (delete key c)).
Proof.
  intros (Hs & Ho).
  destruct (delete_fields key c) as (_ & _ & _ & _ & Hr & Hc).
  split.
  - apply (stamped_weaken c); [lia|]. rewrite Hc.
    now apply Forall_timestamps_filter.
  - rewrite Hc. now apply by_timestamp_filter.
Qed.

Lemma ordered_get key c : Conditions.ordered clock c -> Conditions.ordered clock (snd (get clock key c)).
Proof.
  intros Hc. destruct (JSMap.get key (cache c)) as [e|] eqn:E.
  - destruct (Z.gtb_spec (clock (clockReads c) - timestamp e) (getTTLForKey c key)).
    + rewrite (get_expired _ _ _ E) by lia. simpl.
      apply ordered_delete. now apply ordered_advance.
    + rewrite (get_fresh _ _ _ E) by lia. simpl.
      destruct Hc as (Hs & Ho). split.
      * apply (stamped_weaken c); [simpl; lia|]. simpl.
        now rewrite (timestamps_set_hit _ _ _ E).
      * unfold Conditions.by_timestamp. simpl.
        now rewrite (timestamps_set_hit _ _ _ E).
  - now rewrite (get_absent _ _ E).
Qed.

Lemma ordered_evictLRU c : Conditions.ordered clock c -> Conditions.ordered clock (evictLRU clock c).
Proof.
  intros Hc. destruct (evictLRU_cases c) as [-> | (k & _ & _ & ->)].
  - now apply ordered_advance.
  - apply ordered_delete. now apply ordered_advance.
Qed.

Lemma ordered_evict_times n c : Conditions.ordered clock c -> Conditions.ordered clock (evict_times clock n c).
Proof.
  revert c. induction n as [|n IH]; intros c Hc; simpl; trivial.
  apply IH. now apply ordered_evictLRU.
Qed.

Lemma ordered_set_insert key d sz c1 :
  Conditions.monotone clock -> Conditions.ordered clock c1 ->
  Conditions.ordered clock (set_insert clock key d sz c1).
Proof.
  intros Hmono Hc. rewrite set_insert_eq.
  pose proof (ordered_delete key c1 Hc) as (Hs & Ho).
  destruct (delete_fields key c1) as (_ & _ & _ & _ & Hr & _).
  set (c2 := snd (delete key c1)) in *.
  unfold Conditions.stamped in Hs.
  split.
  - unfold Conditions.stamped, Conditions.timestamps. simpl.
    rewrite map_app. apply Forall_app. split.
    + rewrite Forall_forall in *. intros t Ht.
      destruct (Hs t Ht) as (r & Hm & ->). exists r. split; [lia | trivial].
    + constructor; [|constructor]. simpl. exists (clockReads c1). split; [lia | trivial].
  - unfold Conditions.by_timestamp, Conditions.timestamps. simpl.
    rewrite map_app. apply sorted_snoc; [exact Ho|].
    rewrite Forall_forall in *. intros t Ht.
    destruct (Hs t Ht) as (r & Hm & ->). simpl. apply Hmono. lia.
Qed.

Lemma ordered_delete_all keys c :
  Conditions.ordered clock c -> Conditions.ordered clock (fold_left (fun acc key => snd (delete key acc)) keys c).
Proof.
  revert c. induction keys as [|k keys IH]; intros c Hc; simpl; trivial.
  apply IH. now apply ordered_delete.
Qed.

Lemma ordered_clear c : Conditions.ordered clock (clear c).
Proof. split; constructor. Qed.

Lemma ordered_exec fuel op c c' :
  Conditions.monotone clock -> Conditions.ordered clock c ->
  exec JSON_stringify clock fuel op c = Some c' -> Conditions.ordered clock c'.
Proof.
  intros Hmono Hc. destruct op; simpl.
  - unfold set.
    destruct (evict_while clock fuel (estimateSize JSON_stringify d) c)
      as [c1|] eqn:E; [|discriminate].
    intros [= <-]. apply ordered_set_insert; trivial.
    destruct (evict_while_spec _ _ _ _ E) as (n & _ & -> & _).
    now apply ordered_evict_times.
  - intros [= <-]. now apply ordered_get.
  - intros [= <-]. now apply ordered_delete.
  - intros [= <-]. apply ordered_clear.
  - now intros [= <-].
  - destruct (cleanupTimer c); intros [= <-]; trivial.
    unfold cleanup. rewrite Date_now_eq.
    apply ordered_delete_all. now apply ordered_advance.
  - intros [= <-]. apply ordered_clear.
Qed.

Lemma ordered_run fuel ops c c' :
  Conditions.monotone clock -> Conditions.ordered clock c ->
  run JSON_stringify clock fuel ops c = Some c' -> Conditions.ordered clock c'.
Proof.
  intros Hmono. revert c. induction ops as [|op ops IH]; intros c Hc; simpl.
  - now intros [= <-].
  - destruct (exec JSON_stringify clock fuel op c) as [c1|] eqn:E; [|discriminate].
    apply IH. eapply ordered_exec; eassumption.
Qed.

Lemma oldest_is_first c :
  Conditions.by_timestamp (cache c) ->
  fst (getOldestEntry c) = option_map fst (hd_error (cache c)).
Proof.
  intros Ho. unfold getOldestEntry, JSMap.entries. simpl.
  destruct (getOldestEntry_scan_spec (cache c) None None)
    as [(Hr & Hall) | (i & k & e & Hi & Hr & _ & _ & Hbefore)].
  - cbv zeta in Hr. rewrite Hr.
    destruct (cache c) as [|[k e] rest]; trivial.
    destruct (Hall 0%nat k e eq_refl) as (t & Ht & _). discriminate Ht.
  - cbv zeta in Hr. rewrite Hr.
    destruct (cache c) as [|[k0 e0] rest] eqn:Ec; [destruct i; discriminate Hi|].
    simpl. destruct i as [|i].
    + simpl in Hi. now injection Hi as <- _.
    + exfalso. pose proof (Hbefore 0%nat k0 e0 ltac:(lia) eq_refl) as Hlt.
      unfold Conditions.by_timestamp, Conditions.timestamps in Ho. simpl in Ho.
      inversion Ho as [|? ? _ Hall0]; subst.
      rewrite Forall_forall in Hall0.
      assert (timestamp e0 <= timestamp e).
      { apply Hall0. simpl in Hi. apply nth_error_In in Hi.
        change (timestamp e) with ((fun kv : string * CacheEntry T => timestamp (snd kv)) (k, e)).
        now apply in_map. }
      lia.
Qed.

(** *** Properties of entries kept by every operation *)

Section EntriesInvariant.
Variable P : CacheEntry T -> Prop.
Hypothesis P_hit : forall e, P e -> P (hit e).
Hypothesis P_new : forall d t, P (mkEntry d t (estimateSize JSON_stringify d) 0).

Lemma entries_delete key c :
  Forall (fun kv => P (snd kv)) (cache c) ->
  Forall (fun kv => P (snd kv)) (cache (snd (delete key c))).
Proof.
  intros H. destruct (delete_fields key c) as (_ & _ & _ & _ & _ & ->).
  now apply Forall_remove.
Qed.

Lemma entries_delete_all keys c :
  Forall (fun kv => P (snd kv)) (cache c) ->
  Forall (fun kv => P (snd kv))
         (cache (fold_left (fun acc key => snd (delete key acc)) keys c)).
Proof.
  revert c. induction keys as [|k keys IH]; intros c H; simpl; trivial.
  apply IH. now apply entries_delete.
Qed.

Lemma entries_evict_times n c :
  Forall (fun kv => P (snd kv)) (cache c) ->
  Forall (fun kv => P (snd kv)) (cache (evict_times clock n c)).
Proof.
  intros H. destruct (evict_times_cache n c) as (gone & ->).
  unfold Conditions.without. rewrite Forall_forall in *.
  intros x Hx. apply filter_In in Hx. apply H, Hx.
Qed.

Lemma entries_exec fuel op c c' :
  Forall (fun kv => P (snd kv)) (cache c) ->
  exec JSON_stringify clock fuel op c = Some c' ->
  Forall (fun kv => P (snd kv)) (cache c').
Proof.
  intros H. destruct op; simpl.
  - intros Hset. destruct (set_cache _ _ _ _ _ _ Hset) as (gone & ->).
    apply Forall_app. split.
    + unfold Conditions.without. rewrite Forall_forall in *.
      intros x Hx. apply filter_In in Hx. apply H, Hx.
    + constructor; [apply P_new | constructor].
  - intros [= <-]. destruct (JSMap.get key (cache c)) as [e|] eqn:E.
    + destruct (Z.gtb_spec (clock (clockReads c) - timestamp e) (getTTLForKey c key)).
      * rewrite (get_expired _ _ _ E) by lia. simpl.
        now apply (entries_delete key (advance 1 c)).
      * rewrite (get_fresh _ _ _ E) by lia. simpl.
        apply Forall_set; trivial. simpl. apply P_hit.
        apply JSMapFacts.get_some_in in E. rewrite Forall_forall in H.
        apply (H _ E).
    + now rewrite (get_absent _ _ E).
  - intros [= <-]. now apply entries_delete.
  - intros [= <-]. constructor.
  - now intros [= <-].
  - destruct (cleanupTimer c); intros [= <-]; trivial.
    unfold cleanup. rewrite Date_now_eq.
    now apply (entries_delete_all _ (advance 1 c)).
  - intros [= <-]. constructor.
Qed.

Lemma entries_run fuel ops c c' :
  Forall (fun kv => P (snd kv)) (cache c) ->
  run JSON_stringify clock fuel ops c = Some c' ->
  Forall (fun kv => P (snd kv)) (cache c').
Proof.
  revert c. induction ops as [|op ops IH]; intros c H; simpl.
  - now intros [= <-].
  - destruct (exec JSON_stringify clock fuel op c) as [c1|] eqn:E; [|discriminate].
    apply IH. eapply entries_exec; eassumption.
Qed.

End EntriesInvariant.

Lemma run_fields fuel ops c c' :
  run JSON_stringify clock fuel ops c = Some c' ->
  maxSize c' = maxSize c /\ defaultTTL c' = defaultTTL c /\
  ttlByPattern c' = ttlByPattern c.
Proof.
  revert c. induction ops as [|op ops IH]; intros c; simpl.
  - intros [= <-]. repeat split.
  - destruct (exec JSON_stringify clock fuel op c) as [c1|] eqn:E; [|discriminate].
    intros H. destruct (IH _ H) as (-> & -> & ->). eapply exec_fields; eassumption.
Qed.

Lemma getTTLForKey_scan_nonneg rules dflt key :
  Forall (fun rule => 0 <= snd rule) rules -> 0 <= dflt ->
  0 <= getTTLForKey_scan rules dflt key.
Proof.
  induction 1 as [|[p ttl] rules Hr _ IH]; simpl; intros Hd; trivial.
  destruct (RegExp.test p key); auto.
Qed.

(** *** The sweep, again *)

Lemma cleanup_fields c :
  let c' := cleanup clock c in
  maxSize c' = maxSize c /\ defaultTTL c' = defaultTTL c /\
  ttlByPattern c' = ttlByPattern c /\ clockReads c' = S (clockReads c).
Proof.
  cbv zeta. unfold cleanup. rewrite Date_now_eq.
  destruct (delete_all_fields
              (cleanup_collect (clock (clockReads c)) (advance 1 c)
                               (JSMap.entries (cache (advance 1 c))))
              (advance 1 c)) as (-> & -> & -> & ->).
  repeat split.
Qed.

Lemma filter_idem {A : Type} (f : A -> bool) l :
  filter f (filter f l) = filter f l.
Proof.
  induction l as [|x l IH]; simpl; trivial.
  destruct (f x) eqn:E; simpl; rewrite ?E, IH; trivial.
Qed.

(** *** Operations that do not grow the store *)

Lemma delete_shrinks key c :
  accounted c ->
  sizeUsed (snd (delete key c)) <= sizeUsed c /\
  incl (JSMap.keys (cache (snd (delete key c)))) (JSMap.keys (cache c)).
Proof.
  intros Hc. split; [now apply sizeUsed_delete_le|].
  destruct (delete_fields key c) as (_ & _ & _ & _ & _ & ->).
  intros k Hk. now apply JSMapFacts.in_keys_remove in Hk.
Qed.

Lemma delete_all_shrinks keys c :
  accounted c ->
  sizeUsed (fold_left (fun acc key => snd (delete key acc)) keys c) <= sizeUsed c /\
  incl (JSMap.keys (cache (fold_left (fun acc key => snd (delete key acc)) keys c)))
       (JSMap.keys (cache c)).
Proof.
  revert c. induction keys as [|k keys IH]; intros c Hc; simpl.
  - split; [lia | apply incl_refl].
  - destruct (delete_shrinks k c Hc) as (H1 & H2).
    destruct (IH _ (accounted_delete k c Hc)) as (H3 & H4).
    split; [lia | eapply incl_tran; eassumption].
Qed.

Lemma total_size_pos m :
  Forall (fun kv => 0 < size (snd kv)) m -> m <> [] -> 0 < total_size m.
Proof.
  intros H Hne. destruct H as [|kv m Hkv Hm]; [congruence|].
  simpl. assert (0 <= total_size m); [|lia].
  apply total_size_nonneg. rewrite Forall_forall in *.
  intros x Hx. specialize (Hm x Hx). lia.
Qed.

(** *** A [get] after a [set] *)

Lemma set_then_get fuel key d ttl c c' :
  set JSON_stringify clock fuel key d ttl c = Some c' ->
  clock (clockReads c') - clock (pred (clockReads c')) <= getTTLForKey c' key ->
  fst (get clock key c') = Some d.
Proof.
  unfold set.
  destruct (evict_while clock fuel (estimateSize JSON_stringify d) c) as [c1|];
    [|discriminate].
  intros [= <-] Hfresh.
  destruct (set_insert_resident key d (estimateSize JSON_stringify d) c1)
    as (Hget & Hreads).
  rewrite Hreads in Hfresh. cbn [pred] in Hfresh.
  rewrite (get_fresh _ _ _ Hget); [reflexivity|].
  cbn [timestamp]. rewrite Hreads. exact Hfresh.
Qed.

End Manager.
End CacheFacts.

(** ** Regular expressions: the matcher accepts the words of the pattern *)

Module RegExpFacts.
Import RegExp.

Lemma append_nil_r (s : string) : s ++ "" = s.
Proof. induction s as [|c s IH]; simpl; congruence. Qed.

Lemma append_assoc (s t u : string) : (s ++ t) ++ u = s ++ (t ++ u).
Proof. induction s as [|c s IH]; simpl; congruence. Qed.

Lemma append_eq_nil (s t : string) : s ++ t = "" -> s = "" /\ t = "".
Proof. destruct s; simpl; [auto | discriminate]. Qed.

Lemma lang_cat_inv a b s :
  lang (Cat a b) s -> exists u v, s = u ++ v /\ lang a u /\ lang b v.
Proof. inversion 1; subst. eauto. Qed.

Lemma nullable_lang r : nullable r = true <-> lang r "".
Proof.
  induction r as [| |k|a IHa b IHb|a IHa b IHb|a IHa]; simpl.
  - split; [discriminate | inversion 1].
  - split; [constructor | trivial].
  - split; [discriminate | inversion 1].
  - rewrite andb_true_iff, IHa, IHb. split.
    + intros [Ha Hb]. change "" with ("" ++ ""). now constructor.
    + intros H. apply lang_cat_inv in H. destruct H as (u & v & Heq & Hu & Hv).
      symmetry in Heq. apply append_eq_nil in Heq. destruct Heq; subst.
      now split.
  - rewrite orb_true_iff, IHa, IHb. split.
    + intros [H|H]; [now apply L_altl | now apply L_altr].
    + intros H. inversion H; subst; auto.
  - split; [constructor | trivial].
Qed.

(** A non-empty word of an iteration starts with a non-empty word of
    the iterated pattern. *)
Lemma star_cons a c s :
  lang (Star a) (String c s) ->
  exists u v, s = u ++ v /\ lang a (String c u) /\ lang (Star a) v.
Proof.
  intros H. remember (Star a) as r eqn:Er. remember (String c s) as w eqn:Ew.
  induction H as [| | | | | |a' u v Hu _ Hv IHv]; try discriminate.
  injection Er as ->.
  destruct u as [|c' u]; simpl in Ew.
  - now apply IHv.
  - injection Ew as -> <-. exists u, v. now repeat split.
Qed.

Lemma deriv_lang c r s : lang (deriv c r) s <-> lang r (String c s).
Proof.
  revert s. induction r as [| |k|a IHa b IHb|a IHa b IHb|a IHa]; intros s; simpl.
  - split; inversion 1.
  - split; inversion 1.
  - destruct (accepts k c) eqn:E; split; intros H; inversion H; subst.
    + now constructor.
    + constructor.
    + congruence.
  - assert (lang (Cat (deriv c a) b) s <-> exists u v, s = u ++ v /\
              lang a (String c u) /\ lang b v) as Hcat.
    { split.
      - intros H. apply lang_cat_inv in H.
        destruct H as (u & v & -> & Hu & Hv).
        exists u, v. rewrite <- IHa. now repeat split.
      - intros (u & v & -> & Hu & Hv). constructor; trivial. now apply IHa. }
    assert (lang (Cat a b) (String c s) <->
            (exists u v, s = u ++ v /\ lang a (String c u) /\ lang b v) \/
            (lang a "" /\ lang b (String c s))) as Hsplit.
    { split.
      - intros H. apply lang_cat_inv in H.
        destruct H as (u & v & Heq & Hu & Hv).
        destruct u as [|c' u]; simpl in Heq.
        + right. subst. now split.
        + injection Heq as -> ->. left. exists u, v. now repeat split.
      - intros [(u & v & -> & Hu & Hv) | (Ha & Hb)].
        + change (String c (u ++ v)) with (String c u ++ v). now constructor.
        + change (String c s) with ("" ++ String c s). now constructor. }
    rewrite Hsplit. destruct (nullable a) eqn:En.
    + split.
      * intros H. inversion H; subst.
        -- left. now apply Hcat.
        -- right. split; [now apply nullable_lang | now apply IHb].
      * intros [H | (Ha & Hb)].
        -- apply L_altl. now apply Hcat.
        -- apply L_altr. now apply IHb.
    + rewrite Hcat. split; [now left|].
      intros [H | (Ha & _)]; trivial.
      apply nullable_lang in Ha. congruence.
  - split; intros H; inversion H; subst.
    + apply L_altl. now apply IHa.
    + apply L_altr. now apply IHb.
    + apply L_altl. now apply IHa.
    + apply L_altr. now apply IHb.
  - split.
    + intros H. apply lang_cat_inv in H.
      destruct H as (u & v & -> & Hu & Hv).
      change (String c (u ++ v)) with (String c u ++ v).
      constructor; trivial. now apply IHa.
    + intros H. apply star_cons in H. destruct H as (u & v & -> & Hu & Hv).
      constructor; trivial. now apply IHa.
Qed.

Theorem matches_lang r s : matches r s = true <-> lang r s.
Proof.
  revert r. induction s as [|c s IH]; intros r; simpl.
  - apply nullable_lang.
  - rewrite IH. apply deriv_lang.
Qed.

(** *** The patterns of the rule table *)

Lemma lang_str p s : lang (str p) s <-> s = p.
Proof.
  revert s. induction p as [|c p IH]; intros s; simpl.
  - split; [inversion 1; trivial | intros ->; constructor].
  - split.
    + intros H. apply lang_cat_inv in H. destruct H as (u & v & -> & Hu & Hv).
      apply IH in Hv. subst v. inversion Hu as [|k c' Hc| | | | |]; subst.
      simpl in Hc. apply Ascii.eqb_eq in Hc. now subst.
    + intros ->. change (String c p) with (String c "" ++ p).
      constructor; [|now apply IH]. constructor. apply Ascii.eqb_refl.
Qed.

Lemma lang_any s : lang (Star (Chr Any)) s.
Proof.
  induction s as [|c s IH]; [constructor|].
  change (String c s) with (String c "" ++ s). constructor; trivial.
  now constructor.
Qed.

Lemma lang_dots s : lang (Star (Chr Dot)) s <-> single_line s = true.
Proof.
  induction s as [|c s IH]; simpl.
  - split; [trivial | constructor].
  - rewrite andb_true_iff, <- IH. split.
    + intros H. apply star_cons in H. destruct H as (u & v & -> & Hu & Hv).
      inversion Hu as [|k c' Hc| | | | |]; subst. now split.
    + intros [Hc Hs]. change (String c s) with (String c "" ++ s).
      constructor; trivial. now constructor.
Qed.

Lemma lang_eps_l r s : lang (Cat Eps r) s <-> lang r s.
Proof.
  split.
  - intros H. apply lang_cat_inv in H. destruct H as (u & v & -> & Hu & Hv).
    inversion Hu; subst. exact Hv.
  - intros H. change s with ("" ++ s). constructor; [constructor | trivial].
Qed.

Lemma lang_eps_r r s : lang (Cat r Eps) s <-> lang r s.
Proof.
  split.
  - intros H. apply lang_cat_inv in H. destruct H as (u & v & -> & Hu & Hv).
    inversion Hv; subst. now rewrite append_nil_r.
  - intros H. rewrite <- (append_nil_r s). constructor; [trivial | constructor].
Qed.

(** [/^prefix/] accepts the keys that start with the prefix. *)
Lemma test_prefix p key :
  test (Cache.re_prefix p) key = true <-> exists rest, key = p ++ rest.
Proof.
  unfold test, Cache.re_prefix. simpl. rewrite matches_lang, lang_eps_l. split.
  - intros H. apply lang_cat_inv in H. destruct H as (u & v & -> & Hu & _).
    apply lang_str in Hu. subst. now exists v.
  - intros (rest & ->). constructor; [now apply lang_str | apply lang_any].
Qed.

(** [/^subreddit:.*suffix$/] accepts ["subreddit:"], a single line of
    text, and the suffix. *)
Lemma test_subreddit suffix key :
  test (Cache.re_subreddit suffix) key = true <->
  exists name, key = "subreddit:" ++ name ++ suffix /\ single_line name = true.
Proof.
  unfold test, Cache.re_subreddit.
  cbn [at_start at_end body]. rewrite matches_lang, lang_eps_l, lang_eps_r. split.
  - intros H. apply lang_cat_inv in H. destruct H as (u & v & -> & Hu & Hv).
    apply lang_str in Hu. subst u.
    apply lang_cat_inv in Hv. destruct Hv as (name & w & -> & Hn & Hw).
    apply lang_str in Hw. subst w. apply lang_dots in Hn. now exists name.
  - intros (name & -> & Hn). constructor; [now apply lang_str|].
    constructor; [now apply lang_dots | now apply lang_str].
Qed.

End RegExpFacts.

(** ** The key builder *)

Module KeyFacts.
Import Cache.

Lemma join_loop_concat sep parts R k :
  join_loop sep R k parts =
    match parts with
    | [] => R
    | _ => R ++ (if (0 <? k)%nat then sep else "") ++
           String.concat sep (List.map join_element parts)
    end.
Proof.
  revert R k. induction parts as [|p rest IH]; intros R k; trivial.
  cbn [join_loop]. rewrite IH. destruct rest as [|q rest].
  - destruct k; simpl; rewrite ?RegExpFacts.append_assoc; reflexivity.
  - destruct k; simpl; rewrite ?RegExpFacts.append_assoc; reflexivity.
Qed.

Lemma join_concat sep parts :
  join sep parts = String.concat sep (List.map join_element parts).
Proof.
  unfold join. rewrite join_loop_concat. now destruct parts.
Qed.

Lemma map_join_element_present parts :
  List.map join_element (filter present parts) =
  List.map ToString (filter present parts).
Proof.
  induction parts as [|p parts IH]; simpl; trivial.
  destruct (present p) eqn:E; simpl; trivial.
  unfold join_element at 1. rewrite E. now f_equal.
Qed.

End KeyFacts.

(** ** The key builder, continued *)

Module KeyBuilderFacts.
Import Cache.

Lemma lower_ascii_idem c : lower_ascii (lower_ascii c) = lower_ascii c.
Proof. destruct c as [[] [] [] [] [] [] [] []]; reflexivity. Qed.

Lemma toLowerCase_idem s : toLowerCase (toLowerCase s) = toLowerCase s.
Proof.
  induction s as [|c s IH]; simpl; trivial.
  now rewrite lower_ascii_idem, IH.
Qed.

Lemma toLowerCase_app a b :
  toLowerCase (a ++ b) = toLowerCase a ++ toLowerCase b.
Proof. induction a as [|c a IH]; simpl; congruence. Qed.

Lemma concat_app sep (l1 l2 : list string) :
  l1 <> [] -> l2 <> [] ->
  String.concat sep (l1 ++ l2) = String.concat sep l1 ++ sep ++ String.concat sep l2.
Proof.
  intros H1 H2. induction l1 as [|x l1 IH]; [congruence|].
  destruct l1 as [|y l1].
  - simpl. destruct l2; [congruence | reflexivity].
  - change ((x :: y :: l1) ++ l2)%list with (x :: (y :: l1) ++ l2)%list.
    cbn [String.concat app]. cbn [String.concat app] in IH.
    rewrite IH by discriminate.
    now rewrite !RegExpFacts.append_assoc.
Qed.

Lemma createKey_concat parts :
  createKey parts =
  toLowerCase (String.concat ":" (List.map ToString (filter present parts))).
Proof.
  unfold createKey.
  now rewrite KeyFacts.join_concat, KeyFacts.map_join_element_present.
Qed.

Lemma createKey_app ps qs :
  filter present ps <> [] -> filter present qs <> [] ->
  createKey (ps ++ qs) = createKey ps ++ ":" ++ createKey qs.
Proof.
  intros Hp Hq. rewrite !createKey_concat, filter_app, map_app.
  rewrite concat_app.
  - now rewrite !toLowerCase_app.
  - destruct (filter present ps); [congruence | discriminate].
  - destruct (filter present qs); [congruence | discriminate].
Qed.

Lemma createKey_app_absent ps qs :
  filter present qs = [] -> createKey (ps ++ qs) = createKey ps.
Proof.
  intros Hq. rewrite !createKey_concat, filter_app, Hq. now rewrite app_nil_r.
Qed.

Lemma toLowerCase_concat sep l :
  toLowerCase (String.concat sep l) =
  String.concat (toLowerCase sep) (List.map toLowerCase l).
Proof.
  induction l as [|x l IH]; trivial.
  destruct l as [|y l]; [reflexivity|].
  cbn [String.concat List.map]. cbn [String.concat List.map] in IH.
  now rewrite !toLowerCase_app, IH.
Qed.

(** *** Time-to-live of the keys of a namespace *)

Lemma subreddit_rule_rejects suffix key c rest :
  key = String c rest -> c <> "s"%char ->
  RegExp.test (re_subreddit suffix) key = false.
Proof.
  intros -> Hc.
  destruct (RegExp.test (re_subreddit suffix) (String c rest)) eqn:E; trivial.
  apply RegExpFacts.test_subreddit in E. destruct E as (name & E & _).
  simpl in E. injection E as E _. congruence.
Qed.

Lemma prefix_rule_rejects p0 prefix key c rest :
  key = String c rest -> c <> p0 ->
  RegExp.test (re_prefix (String p0 prefix)) key = false.
Proof.
  intros -> Hc.
  destruct (RegExp.test (re_prefix (String p0 prefix)) (String c rest)) eqn:E;
    trivial.
  apply RegExpFacts.test_prefix in E. destruct E as (tail & E).
  simpl in E. injection E as E _. congruence.
Qed.

Lemma ttl_of_namespace (T : Type) (options : CacheOptions) rest :
  getTTLForKey (@new T options) ("post:" ++ rest) = 600000 /\
  getTTLForKey (@new T options) ("user:" ++ rest) = 900000 /\
  getTTLForKey (@new T options) ("search:" ++ rest) = 600000.
Proof.
  unfold getTTLForKey.
  cbn [ttlByPattern new default_rules getTTLForKey_scan].
  repeat split.
  - rewrite !(subreddit_rule_rejects _ ("post:" ++ rest) "p" ("ost:" ++ rest))
      by (reflexivity || discriminate).
    assert (RegExp.test (re_prefix "post:") ("post:" ++ rest) = true) as ->
      by (apply RegExpFacts.test_prefix; now exists rest).
    reflexivity.
  - rewrite !(subreddit_rule_rejects _ ("user:" ++ rest) "u" ("ser:" ++ rest))
      by (reflexivity || discriminate).
    rewrite (prefix_rule_rejects "p" "ost:" ("user:" ++ rest) "u" ("ser:" ++ rest))
      by (reflexivity || discriminate).
    assert (RegExp.test (re_prefix "user:") ("user:" ++ rest) = true) as ->
      by (apply RegExpFacts.test_prefix; now exists rest).
    reflexivity.
  - assert (forall suffix,
               RegExp.test (re_subreddit suffix) ("search:" ++ rest) = false) as Hs.
    { intros suffix.
      destruct (RegExp.test (re_subreddit suffix) ("search:" ++ rest)) eqn:E; trivial.
      apply RegExpFacts.test_subreddit in E. destruct E as (name & E & _).
      discriminate E. }
    rewrite !Hs.
    rewrite (prefix_rule_rejects "p" "ost:" ("search:" ++ rest) "s" ("earch:" ++ rest))
      by (reflexivity || discriminate).
    rewrite (prefix_rule_rejects "u" "ser:" ("search:" ++ rest) "s" ("earch:" ++ rest))
      by (reflexivity || discriminate).
    assert (RegExp.test (re_prefix "search:") ("search:" ++ rest) = true) as ->
      by (apply RegExpFacts.test_prefix; now exists rest).
    reflexivity.
Qed.

Lemma length_append a b :
  String.length (a ++ b) = (String.length a + String.length b)%nat.
Proof. induction a as [|c a IH]; simpl; congruence. Qed.

Lemma append_suffix_inj a b s1 s2 :
  String.length s1 = String.length s2 -> a ++ s1 = b ++ s2 -> a = b /\ s1 = s2.
Proof.
  intros Hlen. revert b. induction a as [|c a IH]; intros [|d b] H; simpl in H.
  - now split.
  - exfalso. apply (f_equal String.length) in H. simpl in H.
    rewrite length_append in H. lia.
  - exfalso. apply (f_equal String.length) in H. simpl in H.
    rewrite length_append in H. lia.
  - injection H as -> H. destruct (IH _ H) as (-> & ->). now split.
Qed.

Lemma subreddit_rule_other_suffix suffix other name :
  String.length suffix = String.length other -> suffix <> other ->
  RegExp.test (re_subreddit suffix) ("subreddit:" ++ name ++ other) = false.
Proof.
  intros Hlen Hne.
  destruct (RegExp.test (re_subreddit suffix) ("subreddit:" ++ name ++ other))
    eqn:E; trivial.
  apply RegExpFacts.test_subreddit in E. destruct E as (name' & E & _).
  simpl in E. injection E as E.
  apply append_suffix_inj in E; [|congruence].
  destruct E as (_ & E). congruence.
Qed.

Lemma ttl_of_subreddit (T : Type) (options : CacheOptions) name :
  RegExp.single_line name = true ->
  getTTLForKey (@new T options) ("subreddit:" ++ name ++ ":hot") = 300000 /\
  getTTLForKey (@new T options) ("subreddit:" ++ name ++ ":new") = 120000 /\
  getTTLForKey (@new T options) ("subreddit:" ++ name ++ ":top") = 1800000.
Proof.
  intros Hname. unfold getTTLForKey.
  cbn [ttlByPattern new default_rules getTTLForKey_scan].
  assert (forall suffix,
             RegExp.test (re_subreddit suffix) ("subreddit:" ++ name ++ suffix) = true)
    as Hyes by (intros suffix; apply RegExpFacts.test_subreddit; now exists name).
  repeat split.
  - now rewrite Hyes.
  - rewrite (subreddit_rule_other_suffix ":hot" ":new") by (reflexivity || discriminate).
    now rewrite Hyes.
  - rewrite (subreddit_rule_other_suffix ":hot" ":top") by (reflexivity || discriminate).
    rewrite (subreddit_rule_other_suffix ":new" ":top") by (reflexivity || discriminate).
    now rewrite Hyes.
Qed.

Lemma is_line_terminator_lower c :
  RegExp.is_line_terminator (lower_ascii c) = RegExp.is_line_terminator c.
Proof. destruct c as [[] [] [] [] [] [] [] []]; reflexivity. Qed.

Lemma single_line_lower s :
  RegExp.single_line (toLowerCase s) = RegExp.single_line s.
Proof.
  induction s as [|c s IH]; simpl; trivial.
  now rewrite is_line_terminator_lower, IH.
Qed.

(** *** What the text of a component and the lower case are *)

Lemma lower_ascii_code c :
  nat_of_ascii (lower_ascii c) =
  (if (65 <=? nat_of_ascii c) && (nat_of_ascii c <=? 90)
   then nat_of_ascii c + 32 else nat_of_ascii c)%nat.
Proof. destruct c as [[] [] [] [] [] [] [] []]; reflexivity. Qed.

Lemma toLowerCase_length s : String.length (toLowerCase s) = String.length s.
Proof. induction s as [|c s IH]; simpl; congruence. Qed.

Lemma toLowerCase_get s i c :
  String.get i s = Some c -> String.get i (toLowerCase s) = Some (lower_ascii c).
Proof.
  revert i. induction s as [|c0 s IH]; intros [|i]; simpl; try discriminate.
  - now intros [= ->].
  - apply IH.
Qed.

Lemma ToString_number z :
  exists d, NilZero.int_of_string (ToString (PNumber z)) = Some d /\
            Z.of_int d = z /\ norm d = d.
Proof.
  exists (Z.to_int z). split; [|split].
  - cbn [ToString]. apply NilZero.isi.
    + destruct z; simpl; try discriminate.
      intros [= H]. now apply DecimalPos.Unsigned.to_uint_nonnil in H.
    + destruct z; simpl; try discriminate.
      intros [= H]. now apply DecimalPos.Unsigned.to_uint_nonnil in H.
  - apply DecimalZ.of_to.
  - rewrite <- (DecimalZ.to_of (Z.to_int z)). now rewrite DecimalZ.of_to.
Qed.

(** Texts without [":"] are equal when they are followed by [":"] in one
    and the same text. *)
Lemma colon_split x y r r' :
  no_colon x = true -> no_colon y = true ->
  x ++ ":" ++ r = y ++ ":" ++ r' -> x = y.
Proof.
  revert y. induction x as [|c x IH]; intros [|d y]; simpl; trivial.
  - intros _ Hy [= <- _]. apply andb_true_iff in Hy. destruct Hy as [Hy _].
    discriminate Hy.
  - intros Hx _ [= -> _]. apply andb_true_iff in Hx. destruct Hx as [Hx _].
    discriminate Hx.
  - intros Hx Hy [= -> H]. apply andb_true_iff in Hx, Hy.
    f_equal. eapply IH; [apply Hx | apply Hy | exact H].
Qed.

Lemma lower_ascii_colon c :
  Ascii.eqb (lower_ascii c) ":" = Ascii.eqb c ":".
Proof. destruct c as [[] [] [] [] [] [] [] []]; reflexivity. Qed.

Lemma no_colon_lower s : no_colon (toLowerCase s) = no_colon s.
Proof.
  induction s as [|c s IH]; simpl; trivial.
  now rewrite lower_ascii_colon, IH.
Qed.

Lemma createKey_pair_inj a b :
  no_colon a = true -> no_colon b = true ->
  createKey [PString a; PString b] = createKey [PString b; PString a] ->
  toLowerCase a = toLowerCase b.
Proof.
  intros Ha Hb. rewrite !KeyBuilderFacts.createKey_concat.
  cbn [filter present List.map ToString String.concat].
  rewrite !KeyBuilderFacts.toLowerCase_app. cbn [toLowerCase].
  change (String (lower_ascii ":") "") with ":".
  apply colon_split; now rewrite no_colon_lower.
Qed.

End KeyBuilderFacts.

(** ** The server entry point *)

Module ServerFacts.
Import Server.

Lemma includes_In l x : includes l x = true <-> In x l.
Proof.
  unfold includes. rewrite existsb_exists. split.
  - intros (y & Hy & E). apply String.eqb_eq in E. now subst.
  - intros H. exists x. split; trivial. apply String.eqb_refl.
Qed.

Lemma registration_filter config :
  registeredTools (registration config) =
    filter (shouldRegisterTool config) tool_ids /\
  List.map fst (server_tools (registration config)) =
    registeredTools (registration config).
Proof.
  unfold registration, register, tool_ids. cbn [availableTools List.map fst filter].
  destruct (shouldRegisterTool config "browse_subreddit");
    destruct (shouldRegisterTool config "search_reddit");
    destruct (shouldRegisterTool config "get_post_details");
    destruct (shouldRegisterTool config "user_analysis");
    destruct (shouldRegisterTool config "reddit_explain");
    split; reflexivity.
Qed.

Lemma shouldRegisterTool_listed config l t :
  enabledTools config = Some l -> l <> [] ->
  shouldRegisterTool config t = includes l t.
Proof.
  intros E Hl. unfold shouldRegisterTool. rewrite E.
  destruct l; [congruence | reflexivity].
Qed.

Lemma shouldRegisterTool_default config t :
  enabledTools config = None \/ enabledTools config = Some [] ->
  shouldRegisterTool config t = enabled_by_default t.
Proof. intros [E|E]; unfold shouldRegisterTool; now rewrite E. Qed.

End ServerFacts.

(* ===================================================================== *)
(** * The specification's claims *)
(* ===================================================================== *)

Import Cache.

(** C1. Size accounting: after every sequence of operations run on a fresh
    cache ([set], [get], [delete], [clear], and also [getStats], sweeps of
    the cleanup timer and [destroy]), [sizeUsed] is the sum of the [size]
    fields of the resident entries, and it is not negative. *)
Theorem sizeUsed_is_sum_of_resident_sizes :
  forall (T : Type) (JSON_stringify : T -> option string) (clock : nat -> Z)
         (options : CacheOptions) (fuel : nat) (ops : list (Op T))
         (c : CacheManager T),
    run JSON_stringify clock fuel ops (new options) = Some c ->
    sizeUsed c = total_size (cache c) /\ 0 <= sizeUsed c.
Proof.
  intros T js clock options fuel ops c Hrun.
  assert (accounted c) as (Hnd & Hpos & Hsum).
  { eapply CacheFacts.accounted_reachable.
    eapply CacheFacts.run_reachable; [constructor | exact Hrun]. }
  split; trivial. rewrite Hsum. now apply CacheFacts.total_size_nonneg.
Qed.

Lemma sizeUsed_is_sum_of_resident_sizes_witness :
  exists c,
    run Scenario.JSON_stringify (Scenario.ticking 1000) 5
        [OpSet "a" Scenario.payload None; OpGet "a";
         OpSet "b" Scenario.payload None; OpGet "b"; OpDelete "zz"; OpSweep;
         OpSet "c" Scenario.big_payload None]
        (new Scenario.options100) = Some c /\
    List.map fst (cache c) = ["c"] /\
    sizeUsed c = total_size (cache c) /\ 0 <= sizeUsed c.
Proof.
  eexists. split; [vm_compute; reflexivity|].
  split; [reflexivity|].
  apply (sizeUsed_is_sum_of_resident_sizes string Scenario.JSON_stringify
           (Scenario.ticking 1000) Scenario.options100 5
           [OpSet "a" Scenario.payload None; OpGet "a";
            OpSet "b" Scenario.payload None; OpGet "b"; OpDelete "zz"; OpSweep;
            OpSet "c" Scenario.big_payload None]).
  vm_compute; reflexivity.
Defined.

(** C2, as the code has it. After every sequence of operations run on a
    fresh cache, [sizeUsed] is at most [maxSize], unless the store holds
    exactly one entry whose size alone exceeds [maxSize] (or is empty under
    a negative [maxSize]); the overshoot lasts as long as that entry stays,
    not only right after the [set] that stored it.  Right after a [set],
    an overshoot means that the new entry is alone in the store and that
    its estimated size exceeds [maxSize]. *)
Theorem sizeUsed_exceeds_maxSize_only_for_a_lone_entry :
  forall (T : Type) (JSON_stringify : T -> option string) (clock : nat -> Z)
         (options : CacheOptions) (fuel : nat) (ops : list (Op T))
         (c : CacheManager T),
    run JSON_stringify clock fuel ops (new options) = Some c ->
    (sizeUsed c <= maxSize c \/
     (exists k e, cache c = [(k, e)] /\ sizeUsed c = size e /\ maxSize c < size e) \/
     (cache c = [] /\ sizeUsed c = 0 /\ maxSize c < 0))
    /\
    (forall fuel' key d ttl c',
        set JSON_stringify clock fuel' key d ttl c = Some c' ->
        sizeUsed c' <= maxSize c' \/
        (exists e, cache c' = [(key, e)] /\ data e = d /\
                   size e = estimateSize JSON_stringify d /\
                   sizeUsed c' = size e /\ maxSize c' < size e)).
Proof.
  intros T js clock options fuel ops c Hrun.
  assert (reachable js clock options c) as Hreach
    by (eapply CacheFacts.run_reachable; [constructor | exact Hrun]).
  pose proof (CacheFacts.accounted_reachable _ _ _ _ _ Hreach) as Hacc.
  pose proof (CacheFacts.bounded_reachable _ _ _ _ _ Hreach) as Hb.
  split.
  - destruct Hb as [Hb|Hb]; [now left|].
    destruct (Z_le_gt_dec (sizeUsed c) (maxSize c)) as [Hle|Hgt]; [now left|].
    right. destruct Hacc as (_ & _ & Hsum).
    destruct (cache c) as [|[k e] [|x m]] eqn:Ec; simpl in Hb, Hsum.
    + right. repeat split; trivial. lia.
    + left. exists k, e. repeat split; lia.
    + lia.
  - intros fuel' key d ttl c' Hset.
    eapply CacheFacts.set_fits_or_alone; eassumption.
Qed.

Lemma sizeUsed_exceeds_maxSize_only_for_a_lone_entry_witness :
  exists c,
    run Scenario.JSON_stringify (Scenario.ticking 1000) 5
        [OpSet "a" Scenario.payload None; OpSet "b" Scenario.big_payload None;
         OpGet "b"]
        (new Scenario.options100) = Some c /\
    sizeUsed c = 120 /\ maxSize c = 100 /\
    (sizeUsed c <= maxSize c \/
     (exists k e, cache c = [(k, e)] /\ sizeUsed c = size e /\ maxSize c < size e) \/
     (cache c = [] /\ sizeUsed c = 0 /\ maxSize c < 0)).
Proof.
  eexists. split; [vm_compute; reflexivity|].
  split; [reflexivity|]. split; [reflexivity|].
  apply (sizeUsed_exceeds_maxSize_only_for_a_lone_entry string
           Scenario.JSON_stringify (Scenario.ticking 1000) Scenario.options100 5
           [OpSet "a" Scenario.payload None; OpSet "b" Scenario.big_payload None;
            OpGet "b"]).
  vm_compute; reflexivity.
Defined.

(** C2, as stated, fails: with a budget of 100 bytes, a [set] of an entry
    of 120 bytes followed by a [get] of it leaves [sizeUsed] at 120, and
    the last operation is not a [set]. *)
Lemma overshoot_outlives_the_set :
  exists ops c,
    run Scenario.JSON_stringify (Scenario.frozen 1000) 0 ops
        (new Scenario.options100) = Some c /\
    ~ (sizeUsed c <= maxSize c \/ just_stored_oversized Scenario.JSON_stringify ops c).
Proof.
  exists [OpSet "a" Scenario.big_payload None; OpGet "a"].
  eexists. split; [vm_compute; reflexivity|].
  intros [Hle | (ops' & key & d & ttl & e & Hops & _)].
  - vm_compute in Hle. now apply Hle.
  - apply (app_inj_tail [OpSet "a" Scenario.big_payload None] ops') in Hops.
    destruct Hops as [_ Hlast]. discriminate Hlast.
Qed.

(** C3 does not hold of the code. Whatever the clock reads and however
    many iterations are allowed, a [set] that needs room never leaves its
    loop while the only resident entry is stored under the empty key:
    [evictLRU] selects that entry and then skips the deletion, because the
    selected key is tested for truthiness and the empty string is falsy.
    Here the budget is 100 bytes and both payloads take 60 bytes. *)
Theorem set_loops_forever_on_the_empty_key :
  forall (clock : nat -> Z) (fuel : nat),
    run Scenario.JSON_stringify clock fuel
        [OpSet "" Scenario.payload None; OpSet "c" Scenario.payload None]
        (new Scenario.options100) = None.
Proof.
  intros clock fuel. unfold run, exec.
  rewrite CacheFacts.set_without_eviction by reflexivity.
  unfold set.
  erewrite CacheFacts.evict_while_empty_key; [reflexivity | reflexivity |].
  vm_compute. reflexivity.
Qed.

(** C4. When [evictLRU] removes an entry of a store with distinct keys, the
    entry removed is the one at some position [i] of the insertion order.
    With the score of an entry being [hits / ((now - timestamp) / 1000)] in
    double arithmetic, [now] being the clock reading that the scan makes
    for that entry, the score of the victim is below +infinity, no resident
    entry has a score below the victim's, and no entry inserted before the
    victim has a score below or equal to it.  With a budget of 100 bytes, A
    (60 bytes, 10 hits, 1 s old) and B (60 bytes, no hit, 100 s old), a
    [set] of C (60 bytes) evicts B first, then A, and ends with C alone;
    under a budget of 150 bytes, which can hold A and B together, the same
    [set] evicts B and keeps A.  The score is the rate, neither the hit
    count nor the age: of three entries with 50 hits in 10 s, 6 hits in 2 s
    and 4 hits in 1 s, whose scores are 5, 3 and 4, the second is evicted,
    which has neither the fewest hits nor the greatest age. *)
Theorem evictLRU_removes_first_entry_of_least_score :
  (forall (T : Type) (clock : nat -> Z) (c : CacheManager T),
      let hits_per_second (j : nat) (x : CacheEntry T) :=
        JSNumber.div (JSNumber.of_Z (hits x))
          (JSNumber.div (JSNumber.of_Z (clock (j + clockReads c)%nat - timestamp x))
                        (JSNumber.of_Z 1000)) in
      NoDup (JSMap.keys (cache c)) ->
      cache (evictLRU clock c) <> cache c ->
      exists i k e,
        nth_error (cache c) i = Some (k, e) /\
        cache (evictLRU clock c) = JSMap.remove k (cache c) /\
        sizeUsed (evictLRU clock c) = sizeUsed c - size e /\
        JSNumber.ltb (hits_per_second i e) JSNumber.Infinity = true /\
        (forall j kj ej, nth_error (cache c) j = Some (kj, ej) ->
           JSNumber.ltb (hits_per_second j ej) (hits_per_second i e) = false) /\
        (forall j kj ej, (j < i)%nat -> nth_error (cache c) j = Some (kj, ej) ->
           JSNumber.leb (hits_per_second j ej) (hits_per_second i e) = false))
  /\
  (let now := Scenario.frozen 100000 in
   cache (evict_times now 1 Scenario.two_entries) = [("A", Scenario.A)] /\
   cache (evict_times now 1 Scenario.two_entries_swapped) = [("A", Scenario.A)] /\
   cache (evict_times now 2 Scenario.two_entries) = [] /\
   option_map (fun c => (cache c, sizeUsed c))
     (set Scenario.JSON_stringify now 2 "C" Scenario.payload None
          Scenario.two_entries)
   = Some ([("C", mkEntry Scenario.payload 100000 60 0)], 60) /\
   option_map (fun c => (cache c, sizeUsed c))
     (run Scenario.JSON_stringify Scenario.timeline 2 Scenario.session
          (new Scenario.options150))
   = Some ([("A", Scenario.A); ("C", mkEntry Scenario.payload 100000 60 0)], 120))
  /\
  (let now := Scenario.frozen 100000 in
   score 100000 Scenario.veteran = JSNumber.of_Z 5 /\
   score 100000 Scenario.steady = JSNumber.of_Z 3 /\
   score 100000 Scenario.recent = JSNumber.of_Z 4 /\
   cache (evictLRU now Scenario.three_entries)
   = [("veteran", Scenario.veteran); ("recent", Scenario.recent)]).
Proof.
  split; [|split].
  - intros T clock c hps Hnd Hneq.
    destruct (CacheFacts.evictLRU_cases T clock c) as [Hsame | (k & Hk & Hscan & Hdel)].
    + exfalso. apply Hneq. now rewrite Hsame.
    + destruct (CacheFacts.evictLRU_scan_spec T clock (cache c) None JSNumber.Infinity c)
        as [(Hr & _) | (i & k' & e & Hi & Hr & Hlt & Hall & Hbefore)];
        cbv zeta in Hr; rewrite Hr in Hscan; simpl in Hscan; [discriminate|].
      injection Hscan as ->.
      pose proof (CacheFacts.get_nth_error T _ _ _ _ Hnd Hi) as Hget.
      exists i, k, e. rewrite Hdel.
      rewrite (CacheFacts.delete_present T k e (advance (List.length (cache c)) c) Hget).
      simpl. repeat split; trivial.
  - vm_compute. repeat split; reflexivity.
  - vm_compute. repeat split; reflexivity.
Qed.

Lemma evictLRU_removes_first_entry_of_least_score_witness :
  exists i k e,
    nth_error (cache Scenario.three_entries) i = Some (k, e) /\
    cache (evictLRU (Scenario.frozen 100000) Scenario.three_entries) =
      JSMap.remove k (cache Scenario.three_entries) /\
    sizeUsed (evictLRU (Scenario.frozen 100000) Scenario.three_entries) =
      sizeUsed Scenario.three_entries - size e /\
    JSNumber.ltb
      (JSNumber.div (JSNumber.of_Z (hits e))
         (JSNumber.div (JSNumber.of_Z (100000 - timestamp e)) (JSNumber.of_Z 1000)))
      JSNumber.Infinity = true /\
    (forall j kj ej, nth_error (cache Scenario.three_entries) j = Some (kj, ej) ->
       JSNumber.ltb
         (JSNumber.div (JSNumber.of_Z (hits ej))
            (JSNumber.div (JSNumber.of_Z (100000 - timestamp ej)) (JSNumber.of_Z 1000)))
         (JSNumber.div (JSNumber.of_Z (hits e))
            (JSNumber.div (JSNumber.of_Z (100000 - timestamp e)) (JSNumber.of_Z 1000)))
       = false) /\
    (forall j kj ej, (j < i)%nat ->
       nth_error (cache Scenario.three_entries) j = Some (kj, ej) ->
       JSNumber.leb
         (JSNumber.div (JSNumber.of_Z (hits ej))
            (JSNumber.div (JSNumber.of_Z (100000 - timestamp ej)) (JSNumber.of_Z 1000)))
         (JSNumber.div (JSNumber.of_Z (hits e))
            (JSNumber.div (JSNumber.of_Z (100000 - timestamp e)) (JSNumber.of_Z 1000)))
       = false).
Proof.
  apply (proj1 evictLRU_removes_first_entry_of_least_score string
               (Scenario.frozen 100000) Scenario.three_entries).
  - simpl. repeat constructor; simpl; intuition discriminate.
  - vm_compute. discriminate.
Defined.

(** C5. The TTL resolver returns the TTL of the first rule of the table,
    in its declared order, whose pattern accepts the key, and the default
    TTL when no pattern accepts it.  With the table of the constructor,
    ["subreddit:<one line of text>:hot"] resolves to 5 minutes and every
    key starting with ["post:"] to 10 minutes; in particular
    ["subreddit:foo:hot"] gives 300000 ms, ["post:123"] gives 600000 ms,
    and ["comments:1"], which no pattern accepts, the default TTL. *)
Theorem getTTLForKey_returns_first_matching_rule :
  (forall (T : Type) (c : CacheManager T) (key : string),
      (exists before p after,
          ttlByPattern c = (before ++ (p, getTTLForKey c key) :: after)%list /\
          RegExp.test p key = true /\
          Forall (fun rule => RegExp.test (fst rule) key = false) before)
      \/
      (Forall (fun rule => RegExp.test (fst rule) key = false) (ttlByPattern c) /\
       getTTLForKey c key = defaultTTL c))
  /\
  (forall (T : Type) (options : CacheOptions),
      (forall name, RegExp.single_line name = true ->
         getTTLForKey (@new T options) ("subreddit:" ++ name ++ ":hot") = 300000) /\
      (forall rest, getTTLForKey (@new T options) ("post:" ++ rest) = 600000) /\
      getTTLForKey (@new T options) "subreddit:foo:hot" = 300000 /\
      getTTLForKey (@new T options) "post:123" = 600000 /\
      getTTLForKey (@new T options) "comments:1" = defaultTTL (@new T options)).
Proof.
  split.
  - intros T c key. apply CacheFacts.getTTLForKey_scan_first_match.
  - intros T options. repeat split.
    + intros name Hname. unfold getTTLForKey.
      cbn [ttlByPattern new default_rules getTTLForKey_scan].
      assert (RegExp.test (re_subreddit ":hot") ("subreddit:" ++ name ++ ":hot") = true)
        as -> by (apply RegExpFacts.test_subreddit; now exists name).
      reflexivity.
    + intros rest. unfold getTTLForKey.
      cbn [ttlByPattern new default_rules getTTLForKey_scan].
      assert (forall suffix,
                 RegExp.test (re_subreddit suffix) ("post:" ++ rest) = false) as Hno.
      { intros suffix.
        destruct (RegExp.test (re_subreddit suffix) ("post:" ++ rest)) eqn:E; trivial.
        apply RegExpFacts.test_subreddit in E. destruct E as (name & E & _).
        discriminate E. }
      rewrite !Hno.
      assert (RegExp.test (re_prefix "post:") ("post:" ++ rest) = true)
        as -> by (apply RegExpFacts.test_prefix; now exists rest).
      reflexivity.
Qed.

(** C6 does not hold of the code at every state.  With a budget of 100
    bytes, once an entry of 60 bytes is stored under the empty key (a first
    [set], which completes whatever the clock reads), a [set] of any key
    with a value of 60 bytes never leaves its loop, whatever the clock
    reads and however many iterations are allowed: no state follows in
    which [get] could return the value.  The defect is that of C3: the
    key selected by [evictLRU] is tested for truthiness, and the empty
    string is falsy. *)
Theorem set_then_get_gives_nothing_behind_the_empty_key :
  forall (clock : nat -> Z) (fuel : nat) (key : string),
    exists c0,
      run Scenario.JSON_stringify clock fuel
          [OpSet "" Scenario.payload None] (new Scenario.options100) = Some c0 /\
      reachable Scenario.JSON_stringify clock Scenario.options100 c0 /\
      set Scenario.JSON_stringify clock fuel key Scenario.payload None c0 = None /\
      run Scenario.JSON_stringify clock fuel
          [OpSet key Scenario.payload None; OpGet key] c0 = None.
Proof.
  intros clock fuel key.
  assert (Hset : set Scenario.JSON_stringify clock fuel "" Scenario.payload None
                     (new Scenario.options100)
                 = Some (set_insert clock "" Scenario.payload 60 (new Scenario.options100))).
  { now rewrite CacheFacts.set_without_eviction by reflexivity. }
  exists (set_insert clock "" Scenario.payload 60 (new Scenario.options100)).
  assert (Hnone : set Scenario.JSON_stringify clock fuel key Scenario.payload None
                    (set_insert clock "" Scenario.payload 60 (new Scenario.options100))
                  = None).
  { unfold set.
    erewrite CacheFacts.evict_while_empty_key; [reflexivity | reflexivity |].
    vm_compute. reflexivity. }
  repeat split.
  - cbn [run exec]. now rewrite Hset.
  - eapply reach_exec with (op := OpSet "" Scenario.payload None) (fuel := fuel);
      [constructor | exact Hset].
  - exact Hnone.
  - cbn [run exec]. now rewrite Hnone.
Qed.

(** C7. A [get] of an entry whose resolved TTL has elapsed returns nothing
    and deletes the entry, subtracting its size from [sizeUsed], so that a
    [delete] of the same key then returns [false]; and a [delete] of an
    absent key returns [false] and leaves the whole state unchanged. *)
Theorem expired_get_purges_and_absent_delete_is_inert :
  forall (T : Type) (clock : nat -> Z) (c : CacheManager T) (key : string),
    (forall e,
        JSMap.get key (cache c) = Some e ->
        clock (clockReads c) - timestamp e > getTTLForKey c key ->
        fst (get clock key c) = None /\
        JSMap.has key (cache (snd (get clock key c))) = false /\
        sizeUsed (snd (get clock key c)) = sizeUsed c - size e /\
        delete key (snd (get clock key c)) = (false, snd (get clock key c)))
    /\
    (JSMap.get key (cache c) = None -> delete key c = (false, c)).
Proof.
  intros T clock c key. split.
  - intros e Hget Hexp.
    rewrite (CacheFacts.get_expired _ _ _ _ _ Hget Hexp). simpl.
    rewrite (CacheFacts.delete_present _ key e (advance 1 c) Hget). simpl.
    assert (JSMap.get key (JSMap.remove key (cache c)) = None) as Habs
      by apply JSMapFacts.get_remove_same.
    repeat split.
    + now apply JSMapFacts.has_false_get.
    + now apply CacheFacts.delete_absent.
  - apply CacheFacts.delete_absent.
Qed.

Lemma expired_get_purges_and_absent_delete_is_inert_witness :
  fst (get (Scenario.frozen 700000) "post:1" Scenario.stale) = None /\
  JSMap.has "post:1"
    (cache (snd (get (Scenario.frozen 700000) "post:1" Scenario.stale))) = false /\
  sizeUsed (snd (get (Scenario.frozen 700000) "post:1" Scenario.stale)) =
    sizeUsed Scenario.stale - 60 /\
  delete "post:1" (snd (get (Scenario.frozen 700000) "post:1" Scenario.stale)) =
    (false, snd (get (Scenario.frozen 700000) "post:1" Scenario.stale)).
Proof.
  apply (proj1 (expired_get_purges_and_absent_delete_is_inert string
                  (Scenario.frozen 700000) Scenario.stale "post:1")
               (mkEntry Scenario.payload 0 60 3)).
  - reflexivity.
  - vm_compute. reflexivity.
Defined.

(** C8. The [customTTL] argument of [set] changes nothing: the outcome is
    the same for any two values of it, given or not.  Expiry is decided
    from the key alone: a [get] of a resident entry misses exactly when the
    time since its timestamp exceeds the TTL that the resolver gives for
    its key, and the sweep collects exactly the keys of the entries for
    which this holds. *)
Theorem customTTL_has_no_effect :
  forall (T : Type) (JSON_stringify : T -> option string) (clock : nat -> Z)
         (fuel : nat) (key : string) (d : T) (t1 t2 : option Z)
         (c : CacheManager T),
    set JSON_stringify clock fuel key d t1 c =
      set JSON_stringify clock fuel key d t2 c
    /\
    (forall e, JSMap.get key (cache c) = Some e ->
       (fst (get clock key c) = None <->
        clock (clockReads c) - timestamp e > getTTLForKey c key))
    /\
    (forall now k,
        In k (cleanup_collect now c (JSMap.entries (cache c))) <->
        exists e, In (k, e) (cache c) /\ now - timestamp e > getTTLForKey c k).
Proof.
  intros T js clock fuel key d t1 t2 c. split; [reflexivity|]. split.
  - intros e Hget.
    destruct (Z_le_gt_dec (clock (clockReads c) - timestamp e) (getTTLForKey c key))
      as [Hle|Hgt].
    + rewrite (CacheFacts.get_fresh _ _ _ _ _ Hget Hle). simpl.
      split; [discriminate | lia].
    + rewrite (CacheFacts.get_expired _ _ _ _ _ Hget Hgt). simpl.
      split; trivial.
  - intros now k. apply CacheFacts.cleanup_collect_In.
Qed.

(** C9. On components of the modelled domain (ASCII text, safe integers,
    booleans, [undefined], [null]), [createKey] drops the absent components
    ([undefined], and [null] as well), joins the text of the others with
    [":"] in the order given and puts the result in lower case; an absent
    component anywhere in the sequence changes nothing.  The text of a
    string is the string, that of a boolean is its name, that of an integer
    is its decimal numeral (the text that reads back as the integer, in
    normal form); the lower case of a text has the same length and, at every
    position, the letter 32 codes above for [A] to [Z] and the same
    character otherwise.  [createKey("user", "abc", undefined, "Profile")]
    is ["user:abc:profile"].  The order of the components matters: two
    texts without [":"] that differ in lower case give different keys in
    the two orders. *)
Theorem createKey_drops_joins_lowercases :
  (forall parts,
      in_domain parts = true ->
      createKey parts =
      toLowerCase (String.concat ":" (List.map ToString (filter present parts))))
  /\
  (forall before after,
      in_domain before = true -> in_domain after = true ->
      createKey (before ++ PUndefined :: after)%list = createKey (before ++ after)%list /\
      createKey (before ++ PNull :: after)%list = createKey (before ++ after)%list)
  /\
  ((forall p, present p = false <-> p = PUndefined \/ p = PNull) /\
   (forall s, ToString (PString s) = s) /\
   ToString (PBoolean true) = "true" /\
   ToString (PBoolean false) = "false" /\
   (forall z, safe_integer z = true ->
      exists d, NilZero.int_of_string (ToString (PNumber z)) = Some d /\
                Z.of_int d = z /\ norm d = d))
  /\
  (forall s, ascii_text s = true ->
      String.length (toLowerCase s) = String.length s /\
      forall i c, String.get i s = Some c ->
        exists c', String.get i (toLowerCase s) = Some c' /\
                   nat_of_ascii c' =
                   (if (65 <=? nat_of_ascii c) && (nat_of_ascii c <=? 90)
                    then nat_of_ascii c + 32 else nat_of_ascii c)%nat)
  /\
  (createKey [PString "user"; PString "abc"; PUndefined; PString "Profile"]
     = "user:abc:profile" /\
   createKey [PString "Post"; PNumber 42; PNull; PBoolean true; PNumber (-7);
              PNumber 0; PBoolean false]
     = "post:42:true:-7:0:false" /\
   createKey [PString "ABCDEFGHIJKLMNOPQRSTUVWXYZ@[`{ az09"]
     = "abcdefghijklmnopqrstuvwxyz@[`{ az09")
  /\
  (forall a b,
      ascii_text a = true -> ascii_text b = true ->
      no_colon a = true -> no_colon b = true ->
      toLowerCase a <> toLowerCase b ->
      createKey [PString a; PString b] <> createKey [PString b; PString a]).
Proof.
  split; [|split; [|split; [|split; [|split]]]].
  - intros parts _. unfold createKey.
    now rewrite KeyFacts.join_concat, KeyFacts.map_join_element_present.
  - intros before after _ _. unfold createKey.
    now rewrite !filter_app.
  - repeat split.
    + destruct p; simpl; intros H; try discriminate H; tauto.
    + intros [-> | ->]; reflexivity.
    + intros z _. apply KeyBuilderFacts.ToString_number.
  - intros s _. split; [apply KeyBuilderFacts.toLowerCase_length|].
    intros i c Hc. exists (lower_ascii c).
    split; [now apply KeyBuilderFacts.toLowerCase_get|].
    apply KeyBuilderFacts.lower_ascii_code.
  - repeat split.
  - intros a b _ _ Ha Hb Hne Heq. apply Hne.
    now apply KeyBuilderFacts.createKey_pair_inj.
Qed.

Lemma createKey_drops_joins_lowercases_witness :
  createKey [PString "Subreddit"; PUndefined; PString "AskReddit"; PNumber 25]
  = toLowerCase (String.concat ":"
      (List.map ToString
         (filter present
            [PString "Subreddit"; PUndefined; PString "AskReddit"; PNumber 25])))
  /\
  createKey [PString "user"; PString "abc"] <> createKey [PString "abc"; PString "user"].
Proof.
  split.
  - apply (proj1 createKey_drops_joins_lowercases
             [PString "Subreddit"; PUndefined; PString "AskReddit"; PNumber 25]).
    reflexivity.
  - apply (proj2 (proj2 (proj2 (proj2 (proj2 createKey_drops_joins_lowercases))))
             "user" "abc"); try reflexivity. discriminate.
Defined.

(** C10. [getStats] is read-only: the state after the call is the state
    before it (the keys, every entry with its data, timestamp, size and
    hits, [sizeUsed], and the position in the clock), whatever the entries'
    ages; a run made of [getStats] calls alone ends in the state it started
    from.  An entry whose TTL has elapsed stays in the store through
    [getStats], while [get] of its key and the sweep delete it. *)
Theorem getStats_leaves_the_state_unchanged :
  (forall (T : Type) (JSON_stringify : T -> option string) (clock : nat -> Z)
          (c : CacheManager T),
      snd (getStats c) = c /\
      (forall fuel n,
          run JSON_stringify clock fuel (repeat OpGetStats n) c = Some c))
  /\
  (let now := Scenario.frozen 700000 in
   cache (snd (getStats Scenario.stale)) = cache Scenario.stale /\
   cache (snd (get now "post:1" Scenario.stale)) = [] /\
   cache (cleanup now Scenario.stale) = []).
Proof.
  split.
  - intros T js clock c. split; [reflexivity|].
    intros fuel n. induction n as [|n IH]; simpl; trivial.
  - vm_compute. repeat split; reflexivity.
Qed.

(* ===================================================================== *)
(** * Further properties of the code *)
(* ===================================================================== *)

(** X1. After [clear] the store is empty and [sizeUsed] is 0, and
    [getStats] reports no entry, no byte used, a hit rate of 0, no oldest
    entry and no most-used key. *)
Theorem clear_empties_the_cache :
  forall (T : Type) (c : CacheManager T),
    cache (clear c) = [] /\ sizeUsed (clear c) = 0 /\
    stats_entries (fst (getStats (clear c))) = 0 /\
    stats_sizeUsed (fst (getStats (clear c))) = 0 /\
    stats_sizeUsedMB (fst (getStats (clear c))) = "0.00" /\
    stats_hitRate (fst (getStats (clear c))) = inr 0 /\
    stats_oldestEntry (fst (getStats (clear c))) = None /\
    stats_mostUsed (fst (getStats (clear c))) = [].
Proof. intros T c. repeat split. Qed.

(** X2. A sweep keeps, in their order, exactly the entries whose age at
    the reading of the clock does not exceed the TTL resolved for their
    key, and keeps the size accounting exact. *)
Theorem sweep_removes_exactly_the_expired_entries :
  forall (T : Type) (clock : nat -> Z) (c : CacheManager T),
    accounted c ->
    cache (cleanup clock c) =
      filter (fun kv => negb (clock (clockReads c) - timestamp (snd kv)
                                >? getTTLForKey c (fst kv)))
             (cache c)
    /\ accounted (cleanup clock c).
Proof.
  intros T clock c Hc. split.
  - apply CacheFacts.cleanup_cache. apply Hc.
  - now apply CacheFacts.accounted_cleanup.
Qed.

Lemma sweep_removes_exactly_the_expired_entries_witness :
  cache (cleanup (Scenario.frozen 700000) Scenario.stale) =
    filter (fun kv => negb (Scenario.frozen 700000 (clockReads Scenario.stale)
                              - timestamp (snd kv)
                              >? getTTLForKey Scenario.stale (fst kv)))
           (cache Scenario.stale)
  /\ accounted (cleanup (Scenario.frozen 700000) Scenario.stale).
Proof.
  apply (sweep_removes_exactly_the_expired_entries string
           (Scenario.frozen 700000) Scenario.stale).
  repeat split; simpl.
  - repeat constructor. simpl. tauto.
  - repeat constructor. simpl. lia.
Defined.

(** X3. An entry that has no hit and whose age is 0 at its reading of the
    clock gets the score NaN (0/0) and is not the victim: it is still
    resident after [evictLRU]. *)
Theorem unread_entry_of_age_zero_is_not_evicted :
  forall (T : Type) (clock : nat -> Z) (c : CacheManager T)
         (i : nat) (k : string) (e : CacheEntry T),
    NoDup (JSMap.keys (cache c)) ->
    nth_error (cache c) i = Some (k, e) ->
    hits e = 0 ->
    clock (i + clockReads c)%nat = timestamp e ->
    scan_score clock c i e = JSNumber.NaN /\
    JSMap.get k (cache (evictLRU clock c)) = Some e.
Proof.
  intros T clock c i k e Hnd Hi Hhits Hage.
  assert (scan_score clock c i e = JSNumber.NaN) as Hnan
    by (now apply CacheFacts.score_of_new_unread).
  split; trivial.
  pose proof (CacheFacts.get_nth_error _ _ _ _ _ Hnd Hi) as Hget.
  destruct (CacheFacts.evictLRU_cases T clock c) as [-> | (k' & _ & Hscan & ->)];
    [exact Hget|].
  destruct (CacheFacts.delete_fields T k' (advance (List.length (cache c)) c))
    as (_ & _ & _ & _ & _ & ->). simpl.
  destruct (CacheFacts.evictLRU_scan_spec T clock (cache c) None JSNumber.Infinity c)
    as [(Hr & _) | (i' & k'' & e' & Hi' & Hr & Hlt & _)];
    cbv zeta in Hr; rewrite Hr in Hscan; simpl in Hscan; [discriminate|].
  injection Hscan as ->.
  rewrite JSMapFacts.get_remove_other; trivial.
  intros ->.
  pose proof (CacheFacts.position_unique _ _ _ _ _ _ _ Hnd Hi Hi') as ->.
  pose proof (CacheFacts.get_nth_error _ _ _ _ _ Hnd Hi') as Hget'.
  assert (e' = e) as -> by congruence.
  rewrite Hnan in Hlt. discriminate Hlt.
Qed.

Lemma unread_entry_of_age_zero_is_not_evicted_witness :
  scan_score (Scenario.frozen 0) Scenario.two_entries 0 Scenario.B = JSNumber.NaN /\
  JSMap.get "B" (cache (evictLRU (Scenario.frozen 0) Scenario.two_entries))
    = Some Scenario.B.
Proof.
  apply (unread_entry_of_age_zero_is_not_evicted string (Scenario.frozen 0)
           Scenario.two_entries 0 "B" Scenario.B).
  - simpl. repeat constructor; simpl; intuition discriminate.
  - reflexivity.
  - reflexivity.
  - reflexivity.
Defined.

(** X4. A [get] of a resident entry that has not expired returns its data
    and adds one to its hit counter; the keys and their order, the other
    entries, the entry's timestamp and size, and [sizeUsed] are unchanged. *)
Theorem fresh_get_counts_one_hit :
  forall (T : Type) (clock : nat -> Z) (c : CacheManager T)
         (key : string) (e : CacheEntry T),
    JSMap.get key (cache c) = Some e ->
    clock (clockReads c) - timestamp e <= getTTLForKey c key ->
    fst (get clock key c) = Some (data e) /\
    JSMap.get key (cache (snd (get clock key c))) =
      Some (mkEntry (data e) (timestamp e) (size e) (hits e + 1)) /\
    JSMap.keys (cache (snd (get clock key c))) = JSMap.keys (cache c) /\
    (forall k, k <> key ->
       JSMap.get k (cache (snd (get clock key c))) = JSMap.get k (cache c)) /\
    sizeUsed (snd (get clock key c)) = sizeUsed c.
Proof.
  intros T clock c key e Hget Hfresh.
  rewrite (CacheFacts.get_fresh _ _ _ _ _ Hget Hfresh). simpl.
  repeat split.
  - apply JSMapFacts.get_set_same.
  - eapply JSMapFacts.keys_set_present; eassumption.
  - intros k Hk. now apply JSMapFacts.get_set_other.
Qed.

Lemma fresh_get_counts_one_hit_witness :
  fst (get (Scenario.frozen 100000) "A" Scenario.two_entries)
    = Some Scenario.payload /\
  JSMap.get "A" (cache (snd (get (Scenario.frozen 100000) "A" Scenario.two_entries)))
    = Some (mkEntry Scenario.payload 99000 60 (10 + 1)) /\
  JSMap.keys (cache (snd (get (Scenario.frozen 100000) "A" Scenario.two_entries)))
    = JSMap.keys (cache Scenario.two_entries) /\
  (forall k, k <> "A" ->
     JSMap.get k (cache (snd (get (Scenario.frozen 100000) "A" Scenario.two_entries)))
     = JSMap.get k (cache Scenario.two_entries)) /\
  sizeUsed (snd (get (Scenario.frozen 100000) "A" Scenario.two_entries))
    = sizeUsed Scenario.two_entries.
Proof.
  apply (fresh_get_counts_one_hit string (Scenario.frozen 100000)
           Scenario.two_entries "A" Scenario.A).
  - reflexivity.
  - vm_compute. discriminate.
Defined.

(** X5. After [destroy] the timer is off for good: whatever operations
    follow, the timer handle stays cleared and a timer tick changes
    nothing. *)
Theorem no_sweep_after_destroy :
  forall (T : Type) (JSON_stringify : T -> option string) (clock : nat -> Z)
         (fuel : nat) (ops : list (Op T)) (c c' : CacheManager T),
    run JSON_stringify clock fuel ops (destroy c) = Some c' ->
    cleanupTimer c' = None /\
    exec JSON_stringify clock fuel OpSweep c' = Some c'.
Proof.
  intros T js clock fuel ops c c' Hrun.
  assert (cleanupTimer c' = None) as Hoff.
  { assert (cleanupTimer (destroy c) = None) as H0 by reflexivity.
    revert H0 Hrun. generalize (destroy c). clear c.
    induction ops as [|op ops IH]; intros c H0; simpl.
    - now intros [= <-].
    - destruct (exec js clock fuel op c) as [c1|] eqn:E; [|discriminate].
      apply IH. eapply CacheFacts.exec_timer_off; eassumption. }
  split; trivial. simpl. now rewrite Hoff.
Qed.

Lemma no_sweep_after_destroy_witness :
  exists c',
    run Scenario.JSON_stringify (Scenario.ticking 0) 3
        [OpSet "post:1" Scenario.payload None; OpSweep]
        (destroy (new (mkOptions (Some 100) None None))) = Some c' /\
    cleanupTimer c' = None /\
    exec Scenario.JSON_stringify (Scenario.ticking 0) 3 OpSweep c' = Some c'.
Proof.
  eexists. split; [vm_compute; reflexivity|].
  apply (no_sweep_after_destroy string Scenario.JSON_stringify
           (Scenario.ticking 0) 3
           [OpSet "post:1" Scenario.payload None; OpSweep]
           (new (mkOptions (Some 100) None None))).
  vm_compute. reflexivity.
Defined.

(** X6. The patterns of the rule table: the matcher accepts exactly the
    words of a pattern body; a [subreddit] rule accepts ["subreddit:"]
    followed by text without line terminator and the rule's suffix, and
    nothing else; a prefix rule accepts exactly the keys that start with
    the prefix. *)
Theorem rule_patterns_accept_the_documented_keys :
  (forall r s, RegExp.matches r s = true <-> RegExp.lang r s) /\
  (forall suffix key,
      RegExp.test (re_subreddit suffix) key = true <->
      exists name, key = "subreddit:" ++ name ++ suffix /\
                   RegExp.single_line name = true) /\
  (forall prefix key,
      RegExp.test (re_prefix prefix) key = true <->
      exists rest, key = prefix ++ rest).
Proof.
  split; [exact RegExpFacts.matches_lang|].
  split; [exact RegExpFacts.test_subreddit | exact RegExpFacts.test_prefix].
Qed.

(** X7. The loop of [set]: one call of [evictLRU] removes at most one
    entry of a store with distinct keys; and the loop is left at once,
    without any eviction, when the store is empty or the new entry fits. *)
Theorem eviction_removes_one_entry_at_a_time :
  forall (T : Type) (clock : nat -> Z) (c : CacheManager T),
    (NoDup (JSMap.keys (cache c)) ->
     cache (evictLRU clock c) = cache c \/
     S (List.length (cache (evictLRU clock c))) = List.length (cache c))
    /\
    (forall fuel sz,
        cache c = [] \/ sizeUsed c + sz <= maxSize c ->
        evict_while clock fuel sz c = Some c).
Proof.
  intros T clock c. split.
  - intros Hnd.
    destruct (list_eq_dec (fun x y : string => string_dec x y)
                (JSMap.keys (cache (evictLRU clock c))) (JSMap.keys (cache c)))
      as [Hk|Hk].
    + destruct (CacheFacts.evictLRU_cases T clock c) as [-> | (k & _ & _ & Hd)];
        [now left|].
      rewrite Hd in *.
      destruct (CacheFacts.delete_fields T k (advance (List.length (cache c)) c))
        as (_ & _ & _ & _ & _ & Hc). rewrite Hc in *. simpl in *.
      left. apply JSMapFacts.remove_absent. apply JSMapFacts.get_none_notin.
      intros Hin. rewrite <- Hk in Hin.
      apply JSMapFacts.in_keys_remove in Hin. now destruct Hin.
    + assert (cache (evictLRU clock c) <> cache c) as Hneq by congruence.
      destruct (CacheFacts.evictLRU_victim T clock c Hnd Hneq)
        as (i & k & e & Hi & -> & _).
      right. eapply CacheFacts.length_remove_resident; eassumption.
  - intros fuel sz H. apply CacheFacts.evict_while_done.
    unfold must_evict, JSMap.size. destruct H as [-> | H].
    + simpl. apply andb_false_r.
    + apply andb_false_iff. left.
      destruct (Z.gtb_spec (sizeUsed c + sz) (maxSize c)); [lia | trivial].
Qed.

(** X8. What [getStats] reports: the number of entries, [sizeUsed] and
    [maxSize] as they are; as oldest entry, nothing for an empty store and
    otherwise the first key, in insertion order, of least timestamp; as
    most used keys, the first five keys of the entries arranged by
    decreasing hit count. *)
Theorem getStats_reports_the_store :
  forall (T : Type) (c : CacheManager T),
    stats_entries (fst (getStats c)) = Z.of_nat (List.length (cache c)) /\
    stats_sizeUsed (fst (getStats c)) = sizeUsed c /\
    stats_maxSize (fst (getStats c)) = maxSize c /\
    ((cache c = [] /\ stats_oldestEntry (fst (getStats c)) = None) \/
     (exists i k e,
         nth_error (cache c) i = Some (k, e) /\
         stats_oldestEntry (fst (getStats c)) = Some k /\
         (forall j kj ej, nth_error (cache c) j = Some (kj, ej) ->
                          timestamp e <= timestamp ej) /\
         (forall j kj ej, (j < i)%nat -> nth_error (cache c) j = Some (kj, ej) ->
                          timestamp e < timestamp ej))) /\
    (exists sorted,
        Permutation sorted (cache c) /\
        StronglySorted (fun a b => hits (snd b) <= hits (snd a)) sorted /\
        stats_mostUsed (fst (getStats c)) = List.map fst (firstn 5 sorted)).
Proof.
  intros T c. repeat split.
  - destruct (CacheFacts.getOldestEntry_scan_spec T (cache c) None None)
      as [(Hr & Hall) | (i & k & e & Hi & Hr & _ & Hall & Hbefore)].
    + left. split; [|exact Hr].
      destruct (cache c) as [|[k e] m]; trivial.
      destruct (Hall 0%nat k e eq_refl) as (t & Ht & _). discriminate Ht.
    + right. exists i, k, e. repeat split; trivial.
  - exists (sort (fun a b : string * CacheEntry T => hits (snd b) - hits (snd a))
                 (cache c)).
    split; [apply CacheFacts.sort_perm|].
    split; [|reflexivity].
    apply (CacheFacts.sort_sorted (fun a : string * CacheEntry T => hits (snd a))).
Qed.

(** X9. No operation writes the configuration: through any run the byte
    budget, the default TTL and the rule table stay what the constructor
    made them, so the TTL resolved for a key never changes. *)
Theorem configuration_is_never_written :
  forall (T : Type) (JSON_stringify : T -> option string) (clock : nat -> Z)
         (fuel : nat) (ops : list (Op T)) (c c' : CacheManager T),
    run JSON_stringify clock fuel ops c = Some c' ->
    maxSize c' = maxSize c /\ defaultTTL c' = defaultTTL c /\
    ttlByPattern c' = ttlByPattern c /\
    (forall key, getTTLForKey c' key = getTTLForKey c key).
Proof.
  intros T js clock fuel ops c c' Hrun.
  destruct (CacheFacts.run_fields _ _ _ _ _ _ _ Hrun) as (H1 & H2 & H3).
  repeat split; trivial.
  intros key. unfold getTTLForKey. now rewrite H2, H3.
Qed.

Lemma configuration_is_never_written_witness :
  exists c',
    run Scenario.JSON_stringify Scenario.timeline 2
        (Scenario.session ++ [OpClear; OpSweep; OpDestroy])%list
        (new Scenario.options150) = Some c' /\
    maxSize c' = maxSize (@new string Scenario.options150) /\
    defaultTTL c' = defaultTTL (@new string Scenario.options150) /\
    ttlByPattern c' = ttlByPattern (@new string Scenario.options150) /\
    (forall key, getTTLForKey c' key = getTTLForKey (@new string Scenario.options150) key).
Proof.
  eexists. split; [vm_compute; reflexivity|].
  apply (configuration_is_never_written string Scenario.JSON_stringify
           Scenario.timeline 2
           (Scenario.session ++ [OpClear; OpSweep; OpDestroy])%list).
  vm_compute. reflexivity.
Defined.

(** X10. A completed [set] leaves of the former store the entries that
    were neither evicted nor stored under the same key, unchanged and in
    their order, and puts the new entry last, with no hit, the estimate
    of its data as size and the last reading of the clock as timestamp;
    a key that is set again moves to the end of the insertion order. *)
Theorem set_keeps_the_other_entries_in_order :
  forall (T : Type) (JSON_stringify : T -> option string) (clock : nat -> Z)
         (fuel : nat) (key : string) (d : T) (ttl : option Z)
         (c c' : CacheManager T),
    set JSON_stringify clock fuel key d ttl c = Some c' ->
    exists gone,
      cache c' =
        (Conditions.without (key :: gone) (cache c)
         ++ [(key, mkEntry d (clock (pred (clockReads c')))
                           (estimateSize JSON_stringify d) 0)])%list.
Proof.
  intros T js clock fuel key d ttl c c'. apply CacheFacts.set_cache.
Qed.

Lemma set_keeps_the_other_entries_in_order_witness :
  exists c' gone,
    set Scenario.JSON_stringify (Scenario.frozen 100000) 0 "B"
        Scenario.big_payload None
        (mkCache [("B", Scenario.B); ("A", Scenario.A)] 120 500 0 None
                 default_rules 0) = Some c' /\
    List.map fst (cache c') = ["A"; "B"] /\
    cache c' =
      (Conditions.without ("B" :: gone) [("B", Scenario.B); ("A", Scenario.A)]
       ++ [("B", mkEntry Scenario.big_payload
                         (Scenario.frozen 100000 (pred (clockReads c')))
                         (estimateSize Scenario.JSON_stringify Scenario.big_payload)
                         0)])%list.
Proof.
  eexists.
  destruct (set_keeps_the_other_entries_in_order string Scenario.JSON_stringify
              (Scenario.frozen 100000) 0 "B" Scenario.big_payload None
              (mkCache [("B", Scenario.B); ("A", Scenario.A)] 120 500 0 None
                       default_rules 0)
              _ eq_refl) as (gone & Hgone).
  exists gone. split; [reflexivity|]. split; [reflexivity | exact Hgone].
Defined.

(** X11. A [delete] of a resident key returns [true], removes that entry
    and no other, keeps the order of the others and subtracts the entry's
    size from [sizeUsed]; a [get] of the key then misses without reading
    the clock, and a second [delete] returns [false]. *)
Theorem delete_removes_exactly_its_entry :
  forall (T : Type) (clock : nat -> Z) (c : CacheManager T)
         (key : string) (e : CacheEntry T),
    JSMap.get key (cache c) = Some e ->
    fst (delete key c) = true /\
    cache (snd (delete key c)) = Conditions.without [key] (cache c) /\
    sizeUsed (snd (delete key c)) = sizeUsed c - size e /\
    (forall k, k <> key ->
       JSMap.get k (cache (snd (delete key c))) = JSMap.get k (cache c)) /\
    get clock key (snd (delete key c)) = (None, snd (delete key c)) /\
    delete key (snd (delete key c)) = (false, snd (delete key c)).
Proof.
  intros T clock c key e Hget.
  rewrite (CacheFacts.delete_present _ _ _ _ Hget). simpl.
  assert (JSMap.get key (JSMap.remove key (cache c)) = None) as Habs
    by apply JSMapFacts.get_remove_same.
  repeat split.
  - rewrite <- CacheFacts.without_cons. now rewrite CacheFacts.without_nil.
  - intros k Hk. now apply JSMapFacts.get_remove_other.
  - now apply CacheFacts.get_absent.
  - now apply CacheFacts.delete_absent.
Qed.

Lemma delete_removes_exactly_its_entry_witness :
  fst (delete "B" Scenario.two_entries) = true /\
  cache (snd (delete "B" Scenario.two_entries)) =
    Conditions.without ["B"] (cache Scenario.two_entries) /\
  sizeUsed (snd (delete "B" Scenario.two_entries)) =
    sizeUsed Scenario.two_entries - size Scenario.B /\
  (forall k, k <> "B" ->
     JSMap.get k (cache (snd (delete "B" Scenario.two_entries))) =
     JSMap.get k (cache Scenario.two_entries)) /\
  get (Scenario.frozen 0) "B" (snd (delete "B" Scenario.two_entries)) =
    (None, snd (delete "B" Scenario.two_entries)) /\
  delete "B" (snd (delete "B" Scenario.two_entries)) =
    (false, snd (delete "B" Scenario.two_entries)).
Proof.
  apply (delete_removes_exactly_its_entry string (Scenario.frozen 0)
           Scenario.two_entries "B" Scenario.B).
  reflexivity.
Defined.

(** X12. When the clock never goes back, every store reached from a fresh
    cache lists its entries by increasing timestamp, each timestamp being
    an earlier reading of the clock; so the oldest entry that [getStats]
    reports is the first key of the store. *)
Theorem entries_stay_in_timestamp_order :
  forall (T : Type) (JSON_stringify : T -> option string) (clock : nat -> Z)
         (options : CacheOptions) (fuel : nat) (ops : list (Op T))
         (c : CacheManager T),
    Conditions.monotone clock ->
    run JSON_stringify clock fuel ops (new options) = Some c ->
    Conditions.by_timestamp (cache c) /\
    Conditions.stamped clock c /\
    stats_oldestEntry (fst (getStats c)) = option_map fst (hd_error (cache c)).
Proof.
  intros T js clock options fuel ops c Hmono Hrun.
  assert (Conditions.ordered clock c) as (Hs & Ho).
  { eapply CacheFacts.ordered_run; [exact Hmono | | exact Hrun].
    split; constructor. }
  repeat split; trivial.
  now apply CacheFacts.oldest_is_first.
Qed.

Lemma entries_stay_in_timestamp_order_witness :
  exists c,
    run Scenario.JSON_stringify Scenario.timeline 2 Scenario.session
        (new Scenario.options150) = Some c /\
    Conditions.by_timestamp (cache c) /\
    Conditions.stamped Scenario.timeline c /\
    stats_oldestEntry (fst (getStats c)) = option_map fst (hd_error (cache c)).
Proof.
  eexists. split; [vm_compute; reflexivity|].
  apply (entries_stay_in_timestamp_order string Scenario.JSON_stringify
           Scenario.timeline Scenario.options150 2 Scenario.session).
  - intros m n Hmn. unfold Scenario.timeline.
    destruct (Nat.eqb_spec m 0), (Nat.eqb_spec n 0),
             (Nat.eqb_spec m 1), (Nat.eqb_spec n 1),
             (Nat.leb_spec m 11), (Nat.leb_spec n 11); lia.
  - vm_compute. reflexivity.
Defined.

(** X13. [set] completes, within as many iterations of its loop as there
    are entries, when no resident key is the empty string, the hit
    counters are below 2^53, and the clock, at the readings the loop can
    make, is later than every resident timestamp (by less than 2^53 ms):
    every entry then has an ordinary score, and each iteration removes
    one entry. *)
Theorem set_completes_when_entries_have_aged :
  forall (T : Type) (JSON_stringify : T -> option string) (clock : nat -> Z)
         (key : string) (d : T) (ttl : option Z) (c : CacheManager T),
    NoDup (JSMap.keys (cache c)) ->
    Conditions.keys_nonempty c ->
    Conditions.hits_in_range c ->
    Conditions.aged clock c
      (clockReads c + List.length (cache c) * List.length (cache c)) ->
    exists c',
      set JSON_stringify clock (List.length (cache c)) key d ttl c = Some c'.
Proof.
  intros T js clock key d ttl c Hnd Hk Hh Ha. unfold set.
  destruct (CacheFacts.evict_while_terminates T clock (List.length (cache c))
              (estimateSize js d) c eq_refl Hnd Hk Hh Ha) as (c1 & ->).
  eauto.
Qed.

Lemma set_completes_when_entries_have_aged_witness :
  exists c',
    set Scenario.JSON_stringify (Scenario.frozen 100000)
        (List.length (cache Scenario.two_entries)) "C" Scenario.payload None
        Scenario.two_entries = Some c'.
Proof.
  apply (set_completes_when_entries_have_aged string Scenario.JSON_stringify
           (Scenario.frozen 100000) "C" Scenario.payload None
           Scenario.two_entries).
  - simpl. repeat constructor; simpl; intuition discriminate.
  - repeat constructor; simpl; discriminate.
  - repeat constructor; simpl; try lia; reflexivity.
  - intros k e n Hin _. simpl in Hin.
    destruct Hin as [[= <- <-] | [[= <- <-] | []]]; vm_compute; split; reflexivity.
Defined.

(** X14. Among entries of positive age (at every reading that the scan
    makes, the clock is later than each resident timestamp, by less than
    2^53 ms), with distinct keys and hit counters below 2^53, eviction goes
    first to the entries that were never read, in the order of their
    insertion: when some resident entry has no hit, [evictLRU] selects the
    first such entry, and removes it unless its key is the empty string.
    (An entry whose timestamp is later than the clock has a negative score,
    and is outside this statement.) *)
Theorem unread_entries_are_evicted_first :
  forall (T : Type) (clock : nat -> Z) (c : CacheManager T) (k : string),
    NoDup (JSMap.keys (cache c)) ->
    Conditions.hits_in_range c ->
    Conditions.aged clock c (List.length (cache c) + clockReads c) ->
    Conditions.first_unread (cache c) = Some k ->
    fst (fst (evictLRU_scan clock (cache c) None JSNumber.Infinity c)) = Some k /\
    (k <> "" -> cache (evictLRU clock c) = JSMap.remove k (cache c)).
Proof.
  intros T clock c k Hnd Hh Ha Hfirst.
  assert (fst (fst (evictLRU_scan clock (cache c) None JSNumber.Infinity c)) = Some k)
    as Hsel
    by (eapply CacheFacts.evictLRU_first_unread; try eassumption; lia).
  split; trivial. intros Hk.
  rewrite (CacheFacts.evictLRU_selected T clock c k Hsel Hk).
  apply (CacheFacts.delete_fields T k (advance (List.length (cache c)) c)).
Qed.

Lemma unread_entries_are_evicted_first_witness :
  fst (fst (evictLRU_scan (Scenario.frozen 100000)
              (cache Scenario.two_entries_swapped) None JSNumber.Infinity
              Scenario.two_entries_swapped)) = Some "B" /\
  ("B" <> "" ->
   cache (evictLRU (Scenario.frozen 100000) Scenario.two_entries_swapped) =
   JSMap.remove "B" (cache Scenario.two_entries_swapped)).
Proof.
  apply (unread_entries_are_evicted_first string (Scenario.frozen 100000)
           Scenario.two_entries_swapped "B").
  - simpl. repeat constructor; simpl; intuition discriminate.
  - repeat constructor; simpl; try lia; reflexivity.
  - intros k e n Hin _. simpl in Hin.
    destruct Hin as [[= <- <-] | [[= <- <-] | []]]; vm_compute; split; reflexivity.
  - reflexivity.
Defined.



(** X16. On components of the modelled domain (ASCII text, safe integers,
    booleans, [undefined], [null]), [createKey] joins: the key of a sequence
    followed by another is the two keys joined by [":"] (when both have a
    present component), and absent components at the end add nothing.  Keys
    do not tell apart the case of the components, nor a component
    containing [":"] from two components, nor components whose lower-cased
    texts are the same (a safe integer and its decimal text, a boolean and
    its name); and a key is its own lower case.  So [createKey("USER", 7,
    true)], [createKey("user", null, "7", "TRUE")] and
    [createKey("User:7", undefined, "true")] are all ["user:7:true"]. *)
Theorem createKey_joins_and_merges :
  (forall ps qs,
      in_domain ps = true -> in_domain qs = true ->
      filter present ps <> [] -> filter present qs <> [] ->
      createKey (ps ++ qs)%list = createKey ps ++ ":" ++ createKey qs) /\
  (forall ps qs,
      in_domain ps = true -> in_domain qs = true ->
      filter present qs = [] -> createKey (ps ++ qs)%list = createKey ps) /\
  (forall a b,
      ascii_text a = true -> ascii_text b = true ->
      createKey [PString (a ++ ":" ++ b)] = createKey [PString a; PString b]) /\
  (forall ps qs,
      in_domain ps = true -> in_domain qs = true ->
      List.map (fun p => toLowerCase (ToString p)) (filter present ps) =
      List.map (fun p => toLowerCase (ToString p)) (filter present qs) ->
      createKey ps = createKey qs) /\
  (forall ps, in_domain ps = true -> toLowerCase (createKey ps) = createKey ps) /\
  (createKey [PString "USER"; PNumber 7; PBoolean true] = "user:7:true" /\
   createKey [PString "user"; PNull; PString "7"; PString "TRUE"] = "user:7:true" /\
   createKey [PString "User:7"; PUndefined; PString "true"] = "user:7:true").
Proof.
  repeat split.
  - intros ps qs _ _. apply KeyBuilderFacts.createKey_app.
  - intros ps qs _ _. apply KeyBuilderFacts.createKey_app_absent.
  - intros a b _ _. rewrite !KeyBuilderFacts.createKey_concat. reflexivity.
  - intros ps qs _ _ H. rewrite !KeyBuilderFacts.createKey_concat.
    rewrite !KeyBuilderFacts.toLowerCase_concat.
    rewrite !map_map. now rewrite H.
  - intros ps _. rewrite KeyBuilderFacts.createKey_concat.
    apply KeyBuilderFacts.toLowerCase_idem.
Qed.

Lemma createKey_joins_and_merges_witness :
  createKey ([PString "Post"; PUndefined] ++ [PNumber 42; PBoolean true])%list
  = createKey [PString "Post"; PUndefined] ++ ":" ++ createKey [PNumber 42; PBoolean true]
  /\
  createKey [PString "USER"; PNumber 7] = createKey [PString "user"; PNull; PString "7"].
Proof.
  split.
  - apply (proj1 createKey_joins_and_merges); reflexivity || discriminate.
  - apply (proj1 (proj2 (proj2 (proj2 createKey_joins_and_merges)))); reflexivity.
Defined.

(** X17. Keys built by [createKey] from ASCII text and components of the
    modelled domain, and the rule table of the constructor.  A key built
    from a namespace that is ["subreddit"] in lower case, a name without
    line terminator and a sort order that is ["hot"], ["new"] or ["top"] in
    lower case resolves to 5, 2 or 30 minutes.  A key built from a
    namespace that is ["post"], ["user"] or ["search"] in lower case,
    followed by at least one present component, resolves to 10, 15 or 10
    minutes.  Each of the four namespaces alone, which gives a key without
    [":"], resolves to the default TTL.  So
    [createKey("Subreddit", "AskReddit", "HOT")] resolves to 5 minutes,
    [createKey("User", undefined, 17)] to 15 minutes and
    [createKey("POST", undefined)] to the default TTL. *)
Theorem built_keys_resolve_to_the_rule_of_their_namespace :
  forall (T : Type) (options : CacheOptions),
    (forall ns name sort,
        ascii_text ns = true -> ascii_text name = true -> ascii_text sort = true ->
        RegExp.single_line name = true ->
        toLowerCase ns = "subreddit" ->
        let key := createKey [PString ns; PString name; PString sort] in
        (toLowerCase sort = "hot" -> getTTLForKey (@new T options) key = 300000) /\
        (toLowerCase sort = "new" -> getTTLForKey (@new T options) key = 120000) /\
        (toLowerCase sort = "top" -> getTTLForKey (@new T options) key = 1800000))
    /\
    (forall ns parts,
        ascii_text ns = true -> in_domain parts = true ->
        filter present parts <> [] ->
        let key := createKey (PString ns :: parts) in
        (toLowerCase ns = "post" -> getTTLForKey (@new T options) key = 600000) /\
        (toLowerCase ns = "user" -> getTTLForKey (@new T options) key = 900000) /\
        (toLowerCase ns = "search" -> getTTLForKey (@new T options) key = 600000))
    /\
    (forall ns parts,
        ascii_text ns = true -> in_domain parts = true ->
        filter present parts = [] ->
        toLowerCase ns = "subreddit" \/ toLowerCase ns = "post" \/
        toLowerCase ns = "user" \/ toLowerCase ns = "search" ->
        getTTLForKey (@new T options) (createKey (PString ns :: parts))
        = defaultTTL (@new T options))
    /\
    (getTTLForKey (@new T options)
       (createKey [PString "Subreddit"; PString "AskReddit"; PString "HOT"]) = 300000 /\
     getTTLForKey (@new T options)
       (createKey [PString "User"; PUndefined; PNumber 17]) = 900000 /\
     getTTLForKey (@new T options) (createKey [PString "POST"; PUndefined])
     = defaultTTL (@new T options)).
Proof.
  intros T options. split; [|split; [|split]].
  - intros ns name sort _ _ _ Hname Hns key.
    assert (key = "subreddit:" ++ toLowerCase name ++ ":" ++ toLowerCase sort) as ->.
    { unfold key. rewrite KeyBuilderFacts.createKey_concat.
      cbn [filter present List.map ToString String.concat].
      rewrite !KeyBuilderFacts.toLowerCase_app. now rewrite Hns. }
    repeat split; intros ->;
      apply KeyBuilderFacts.ttl_of_subreddit;
      now rewrite KeyBuilderFacts.single_line_lower.
  - intros ns parts _ _ Hp key.
    assert (key = toLowerCase ns ++ ":" ++ createKey parts) as ->.
    { unfold key. change (PString ns :: parts) with ([PString ns] ++ parts)%list.
      rewrite KeyBuilderFacts.createKey_app by (trivial; discriminate).
      reflexivity. }
    repeat split; intros ->;
      apply (KeyBuilderFacts.ttl_of_namespace T options (createKey parts)).
  - intros ns parts _ _ Habs Hns.
    assert (createKey (PString ns :: parts) = toLowerCase ns) as ->.
    { change (PString ns :: parts) with ([PString ns] ++ parts)%list.
      rewrite KeyBuilderFacts.createKey_app_absent by trivial.
      reflexivity. }
    destruct Hns as [-> | [-> | [-> | ->]]]; reflexivity.
  - repeat split.
Qed.

Lemma built_keys_resolve_to_the_rule_of_their_namespace_witness :
  getTTLForKey (@new string Scenario.options100)
    (createKey [PString "Subreddit"; PString "AskReddit"; PString "HOT"]) = 300000 /\
  getTTLForKey (@new string Scenario.options100)
    (createKey [PString "user"; PUndefined; PNumber 17]) = 900000 /\
  getTTLForKey (@new string Scenario.options100)
    (createKey [PString "Search"; PUndefined]) = defaultTTL (@new string Scenario.options100).
Proof.
  pose proof (built_keys_resolve_to_the_rule_of_their_namespace string Scenario.options100)
    as (Hsub & Hns & Halone & _).
  split; [|split].
  - apply (Hsub "Subreddit" "AskReddit" "HOT"); reflexivity.
  - apply (Hns "user" [PUndefined; PNumber 17]); reflexivity || discriminate.
  - apply (Halone "Search" [PUndefined]); try reflexivity. right. right. right. reflexivity.
Defined.

(** X18. Which tools the entry point registers: the identifiers of the
    registry, in its order, that [shouldRegisterTool] accepts, each with the
    description of the registry.  Without a list of enabled tools, or with
    an empty one, these are the three tools enabled in the registry; with a
    non-empty list they are the listed identifiers that the registry knows,
    whatever their [enabled] flag, the order of the list and its other
    elements. *)
Theorem registered_tools_follow_the_configuration :
  forall config : Server.Config,
    Server.registeredTools (Server.registration config) = filter (Server.shouldRegisterTool config) Server.tool_ids /\
    Server.server_tools (Server.registration config) =
      List.map (fun id => (id, Server.description_of id)) (Server.registeredTools (Server.registration config)) /\
    (Server.enabledTools config = None \/ Server.enabledTools config = Some [] ->
     Server.registeredTools (Server.registration config) = ["browse_subreddit"; "search_reddit"; "get_post_details"]) /\
    (forall l, Server.enabledTools config = Some l -> l <> [] ->
       forall id, In id (Server.registeredTools (Server.registration config)) <-> In id l /\ In id Server.tool_ids).
Proof.
  intros config.
  destruct (ServerFacts.registration_filter config) as (Hf & Hm).
  split; [exact Hf|]. split; [|split].
  - unfold Server.registration, Server.register.
    destruct (Server.shouldRegisterTool config "browse_subreddit");
    destruct (Server.shouldRegisterTool config "search_reddit");
    destruct (Server.shouldRegisterTool config "get_post_details");
    destruct (Server.shouldRegisterTool config "user_analysis");
    destruct (Server.shouldRegisterTool config "reddit_explain");
    reflexivity.
  - intros Hd. rewrite Hf.
    unfold Server.tool_ids. cbn [Server.availableTools List.map fst filter].
    rewrite !(ServerFacts.shouldRegisterTool_default config _ Hd). reflexivity.
  - intros l El Hl id. rewrite Hf, filter_In.
    rewrite (ServerFacts.shouldRegisterTool_listed config l id El Hl).
    rewrite ServerFacts.includes_In. tauto.
Qed.

Lemma registered_tools_follow_the_configuration_witness :
  Server.registeredTools
    (Server.registration
       (Server.mkConfig (Some ["reddit_explain"; "no_such_tool"; "search_reddit"]) false))
  = ["search_reddit"; "reddit_explain"].
Proof.
  rewrite (proj1 (registered_tools_follow_the_configuration
     (Server.mkConfig (Some ["reddit_explain"; "no_such_tool"; "search_reddit"]) false))).
  reflexivity.
Defined.

(** X19. The cache that the entry point builds when caching is disabled
    (budget and default TTL zero), for a serializer that never returns the
    empty text: a store reached from it holds at most one entry; a [set]
    that completes leaves its entry alone in the store; a [get] of that key
    returns the value as long as the time elapsed is within the TTL of the
    key, which for a key of the [post:] namespace is still ten minutes. *)
Theorem disabled_cache_still_serves_the_last_entry :
  forall (T : Type) (JSON_stringify : T -> option string) (clock : nat -> Z)
         (cacheTTL : Z) (fuel : nat) (ops : list (Op T)) (c : CacheManager T),
    (forall d, JSON_stringify d <> Some "") ->
    run JSON_stringify clock fuel ops
        (new (Server.cacheOptions (Some "true") cacheTTL)) = Some c ->
    maxSize c = 0 /\ defaultTTL c = 0 /\
    (List.length (cache c) <= 1)%nat /\
    forall fuel' key d ttl c',
      set JSON_stringify clock fuel' key d ttl c = Some c' ->
      (exists e, cache c' = [(key, e)] /\ data e = d) /\
      (clock (clockReads c') - clock (pred (clockReads c')) <= getTTLForKey c' key ->
       fst (get clock key c') = Some d) /\
      (forall rest, key = "post:" ++ rest -> getTTLForKey c' key = 600000).
Proof.
  intros T js clock cacheTTL fuel ops c Hjs Hrun.
  set (P := fun e : CacheEntry T => 0 < size e).
  assert (Hhit : forall e, P e -> P (hit e)) by (intros e; exact (fun H => H)).
  assert (Hnew : forall d t, P (mkEntry d t (estimateSize js d) 0)).
  { intros d t. unfold P, estimateSize. cbn [size].
    specialize (Hjs d). destruct (js d) as [s|]; [|lia].
    destruct s; [congruence|]. cbn [String.length]. lia. }
  pose proof (CacheFacts.run_fields _ _ _ _ _ _ _ Hrun) as (Hmax & Hdef & Hrules).
  cbn in Hmax, Hdef, Hrules.
  assert (Hreach : reachable js clock (Server.cacheOptions (Some "true") cacheTTL) c).
  { eapply CacheFacts.run_reachable; [constructor | exact Hrun]. }
  pose proof (CacheFacts.accounted_reachable _ _ _ _ _ Hreach) as Hacc.
  assert (Hsz : Forall (fun kv => P (snd kv)) (cache c)).
  { eapply (CacheFacts.entries_run T js clock P Hhit Hnew); [|exact Hrun]. constructor. }
  split; [exact Hmax|]. split; [exact Hdef|]. split.
  - destruct (CacheFacts.bounded_reachable _ _ _ _ _ Hreach) as [Hb|Hb]; trivial.
    destruct (cache c) as [|kv m] eqn:E; [simpl; lia|].
    exfalso. destruct Hacc as (_ & _ & Hsum). rewrite E in Hsum.
    assert (0 < total_size (kv :: m)).
    { apply CacheFacts.total_size_pos; [exact Hsz | discriminate]. }
    lia.
  - intros fuel' key d ttl c' Hset.
    assert (Hex : exec js clock fuel' (OpSet key d ttl) c = Some c') by exact Hset.
    pose proof (CacheFacts.exec_fields _ _ _ _ _ _ _ Hex) as Hf.
    pose proof (CacheFacts.entries_exec T js clock P Hhit Hnew _ _ _ _ Hsz Hex) as Hsz'.
    pose proof (CacheFacts.accounted_exec _ _ _ _ _ _ _ Hacc Hex) as Hacc'.
    split; [|split].
    + destruct (CacheFacts.set_fits_or_alone _ _ _ _ _ _ _ _ _ Hacc Hset)
        as [Hfit|(e & Hc & Hd & _)].
      * exfalso. destruct (CacheFacts.set_cache _ _ _ _ _ _ _ _ _ Hset) as (gone & Hc).
        destruct Hacc' as (_ & _ & Hsum).
        assert (0 < total_size (cache c')).
        { apply CacheFacts.total_size_pos; [exact Hsz'|].
          rewrite Hc. intros Habs. apply app_eq_nil in Habs. destruct Habs; discriminate. }
        destruct Hf as (Hm' & _). lia.
      * exists e. now split.
    + intros Hfresh. exact (CacheFacts.set_then_get T js clock fuel' key d ttl c c' Hset Hfresh).
    + intros rest ->. destruct Hf as (_ & _ & Hr').
      unfold getTTLForKey. rewrite Hr', Hrules.
      exact (proj1 (KeyBuilderFacts.ttl_of_namespace T
                      (mkOptions None (Some (defaultTTL c')) None) rest)).
Qed.

Lemma disabled_cache_still_serves_the_last_entry_witness :
  exists c,
    run Scenario.JSON_stringify (Scenario.ticking 1000) 5
        [OpSet "post:1" Scenario.payload None; OpGet "post:1";
         OpSet "post:2" Scenario.payload None]
        (new (Server.cacheOptions (Some "true") 300000)) = Some c /\
    List.map fst (cache c) = ["post:2"] /\
    maxSize c = 0 /\ (List.length (cache c) <= 1)%nat.
Proof.
  eexists. split; [vm_compute; reflexivity|]. split; [reflexivity|].
  refine ((fun H => conj (proj1 H) (proj1 (proj2 (proj2 H))))
            (disabled_cache_still_serves_the_last_entry string Scenario.JSON_stringify
               (Scenario.ticking 1000) 300000 5
               [OpSet "post:1" Scenario.payload None; OpGet "post:1";
                OpSet "post:2" Scenario.payload None] _ _ _)).
  - intros d. unfold Scenario.JSON_stringify, Scenario.dquote. simpl. discriminate.
  - vm_compute. reflexivity.
Defined.

(** X20. Only [set] adds to the store: any other operation, run on a
    store whose counter is the sum of its sizes, leaves a counter that is
    not larger, a set of keys included in the former one, and not more
    entries. *)
Theorem only_set_adds_to_the_store :
  forall (T : Type) (JSON_stringify : T -> option string) (clock : nat -> Z)
         (fuel : nat) (op : Op T) (c c' : CacheManager T),
    accounted c ->
    (forall key d ttl, op <> OpSet key d ttl) ->
    exec JSON_stringify clock fuel op c = Some c' ->
    sizeUsed c' <= sizeUsed c /\
    incl (JSMap.keys (cache c')) (JSMap.keys (cache c)) /\
    (List.length (cache c') <= List.length (cache c))%nat.
Proof.
  intros T js clock fuel op c c' Hc Hop Hex.
  assert (Hlen : forall m m' : JSMap.t (CacheEntry T),
             NoDup (JSMap.keys m') -> incl (JSMap.keys m') (JSMap.keys m) ->
             (List.length m' <= List.length m)%nat).
  { intros m m' Hnd Hincl.
    rewrite <- (length_map fst m), <- (length_map fst m').
    now apply NoDup_incl_length. }
  pose proof (CacheFacts.accounted_exec _ _ _ _ _ _ _ Hc Hex) as (Hnd' & _ & _).
  enough (sizeUsed c' <= sizeUsed c /\
          incl (JSMap.keys (cache c')) (JSMap.keys (cache c))) as (H1 & H2).
  { repeat split; trivial. now apply Hlen. }
  clear Hlen Hnd'.
  destruct op; simpl in Hex.
  - exfalso. now apply (Hop key d customTTL).
  - injection Hex as <-.
    destruct (JSMap.get key (cache c)) as [e|] eqn:E.
    + destruct (Z.gtb_spec (clock (clockReads c) - timestamp e) (getTTLForKey c key)).
      * rewrite (CacheFacts.get_expired _ _ _ _ _ E) by lia. simpl.
        apply (CacheFacts.delete_shrinks T key (advance 1 c)).
        now apply CacheFacts.accounted_advance.
      * rewrite (CacheFacts.get_fresh _ _ _ _ _ E) by lia. simpl.
        split; [lia|].
        rewrite (JSMapFacts.keys_set_present _ _ _ _ E). apply incl_refl.
    + rewrite (CacheFacts.get_absent _ _ _ _ E). simpl. split; [lia | apply incl_refl].
  - injection Hex as <-. now apply CacheFacts.delete_shrinks.
  - injection Hex as <-. simpl. destruct Hc as (_ & Hpos & ->).
    split; [now apply CacheFacts.total_size_nonneg | intros k []].
  - injection Hex as <-. simpl. split; [lia | apply incl_refl].
  - destruct (cleanupTimer c); injection Hex as <-.
    + unfold cleanup. rewrite CacheFacts.Date_now_eq.
      apply (CacheFacts.delete_all_shrinks T _ (advance 1 c)).
      now apply CacheFacts.accounted_advance.
    + split; [lia | apply incl_refl].
  - injection Hex as <-. simpl. destruct Hc as (_ & Hpos & ->).
    split; [now apply CacheFacts.total_size_nonneg | intros k []].
Qed.

Lemma only_set_adds_to_the_store_witness :
  exists c',
    exec Scenario.JSON_stringify (Scenario.frozen 400000) 0 (OpGet "B")
         Scenario.two_entries = Some c' /\
    JSMap.keys (cache c') = ["A"] /\
    sizeUsed c' <= sizeUsed Scenario.two_entries.
Proof.
  eexists. split; [reflexivity|]. split; [reflexivity|].
  refine (proj1 (only_set_adds_to_the_store string Scenario.JSON_stringify
                   (Scenario.frozen 400000) 0 (OpGet "B") Scenario.two_entries _ _ _ _)).
  - repeat split; simpl.
    + repeat constructor; simpl; intuition discriminate.
    + repeat constructor; simpl; lia.
  - discriminate.
  - reflexivity.
Defined.

(** X21. Round trip with a completed [set]: when the keys of the store are
    distinct and none is the empty string, the hit counters are below
    2^53, the clock at the readings the loop can make is later than every
    resident timestamp (by less than 2^53 ms), and two consecutive readings
    of the clock are never further apart than the TTL resolved for the key,
    [set] completes within as many iterations as there are entries and the
    [get] of the key that follows returns the value. *)
Theorem set_then_get_round_trip_when_entries_have_aged :
  forall (T : Type) (JSON_stringify : T -> option string) (clock : nat -> Z)
         (key : string) (d : T) (ttl : option Z) (c : CacheManager T),
    NoDup (JSMap.keys (cache c)) ->
    Conditions.keys_nonempty c ->
    Conditions.hits_in_range c ->
    Conditions.aged clock c
      (clockReads c + List.length (cache c) * List.length (cache c)) ->
    (forall n, clock (S n) - clock n <= getTTLForKey c key) ->
    exists c',
      set JSON_stringify clock (List.length (cache c)) key d ttl c = Some c' /\
      fst (get clock key c') = Some d.
Proof.
  intros T js clock key d ttl c Hnd Hk Hh Ha Hstep.
  destruct (CacheFacts.evict_while_terminates T clock (List.length (cache c))
              (estimateSize js d) c eq_refl Hnd Hk Hh Ha) as (c1 & Hc1).
  assert (Hset : set js clock (List.length (cache c)) key d ttl c
                 = Some (set_insert clock key d (estimateSize js d) c1)).
  { unfold set. now rewrite Hc1. }
  eexists. split; [exact Hset|].
  apply (CacheFacts.set_then_get T js clock _ key d ttl c _ Hset).
  assert (Hex : exec js clock (List.length (cache c)) (OpSet key d ttl) c
                = Some (set_insert clock key d (estimateSize js d) c1)) by exact Hset.
  pose proof (CacheFacts.exec_fields _ _ _ _ _ _ _ Hex) as (_ & Hd & Hr).
  assert (getTTLForKey (set_insert clock key d (estimateSize js d) c1) key
          = getTTLForKey c key) as -> by (unfold getTTLForKey; now rewrite Hd, Hr).
  destruct (CacheFacts.set_insert_resident T clock key d (estimateSize js d) c1)
    as (_ & Hreads).
  rewrite Hreads. cbn [pred]. apply Hstep.
Qed.

Lemma set_then_get_round_trip_when_entries_have_aged_witness :
  exists c',
    set Scenario.JSON_stringify (Scenario.ticking 100000) 2 "post:9"
        Scenario.payload (Some 5) Scenario.two_entries = Some c' /\
    fst (get (Scenario.ticking 100000) "post:9" c') = Some Scenario.payload.
Proof.
  apply (set_then_get_round_trip_when_entries_have_aged string Scenario.JSON_stringify
           (Scenario.ticking 100000) "post:9" Scenario.payload (Some 5)
           Scenario.two_entries).
  - simpl. repeat constructor; simpl; intuition discriminate.
  - repeat constructor; simpl; discriminate.
  - repeat constructor; simpl; try lia; reflexivity.
  - intros k e n Hin Hn. simpl in Hin, Hn.
    destruct Hin as [[= <- <-] | [[= <- <-] | []]];
      unfold Scenario.ticking; cbn [timestamp Scenario.A Scenario.B];
      change (2 ^ 53) with 9007199254740992; lia.
  - intros n. unfold Scenario.ticking.
    change (getTTLForKey Scenario.two_entries "post:9") with 600000. lia.
Defined.
